(** * Sky height calculator: the decode-and-derive pipeline of [decodeAndCalculate]
      and the potion simulator [handlePotionDrink] (src/App.tsx).

    JavaScript numbers are IEEE 754 binary64 values; they are modelled by
    Rocq's primitive [float], which is the same format with the same
    round-to-nearest-even operations.  JavaScript strings are modelled as
    lists of 8-bit characters: [atob] only ever produces code units below
    256, and in the raw input a code unit above 255 behaves like any other
    character outside the base64 alphabet (it is no part of the anchor, it is
    not rewritten by the normaliser, and it makes [atob] throw). *)

From Stdlib Require Import ZArith List Ascii String Bool Lia Floats.
Import ListNotations.

Set Warnings "-inexact-float".

Local Open Scope Z_scope.

(** ** JavaScript strings *)

Definition jsstring := list ascii.

Definition lit (s : string) : jsstring := list_ascii_of_string s.

Definition code (c : ascii) : Z := Z.of_N (N_of_ascii c).

Definition chr (n : Z) : ascii := ascii_of_N (Z.to_N n).

Definition jslength (s : jsstring) : Z := Z.of_nat (List.length s).

Fixpoint startsWith (needle s : jsstring) : bool :=
  match needle, s with
  | [], _ => true
  | a :: needle', b :: s' => Ascii.eqb a b && startsWith needle' s'
  | _ :: _, [] => false
  end.

(** [s.indexOf(needle)]: the position of the first occurrence, or -1. *)
Fixpoint indexOf_from (i : Z) (s needle : jsstring) : Z :=
  if startsWith needle s then i
  else match s with
       | [] => -1
       | _ :: t => indexOf_from (i + 1) t needle
       end.

Definition indexOf (s needle : jsstring) : Z := indexOf_from 0 s needle.

(** [s.substring(i)] for [0 <= i]. *)
Definition substring_from (s : jsstring) (i : Z) : jsstring :=
  skipn (Z.to_nat i) s.

(** [s.substring(0, n)]. *)
Definition substring_to (s : jsstring) (n : Z) : jsstring :=
  firstn (Z.to_nat n) s.

(** [s.replace(/a/g, b)] for a single character [a]. *)
Definition replaceAll (a b : ascii) (s : jsstring) : jsstring :=
  map (fun c => if Ascii.eqb c a then b else c) s.

(** [c.repeat(n)]. *)
Definition repeat_char (c : ascii) (n : Z) : jsstring :=
  repeat c (Z.to_nat n).

(** ** Base64: [atob] (and [btoa], which the examples use to build payloads) *)

Definition is_ascii_whitespace (c : ascii) : bool :=
  let n := code c in
  (n =? 9) || (n =? 10) || (n =? 12) || (n =? 13) || (n =? 32).

Definition b64_value (c : ascii) : option Z :=
  let n := code c in
  if (65 <=? n) && (n <=? 90) then Some (n - 65)
  else if (97 <=? n) && (n <=? 122) then Some (n - 71)
  else if (48 <=? n) && (n <=? 57) then Some (n + 4)
  else if n =? 43 then Some 62
  else if n =? 47 then Some 63
  else None.

Fixpoint sextets (s : jsstring) : option (list Z) :=
  match s with
  | [] => Some []
  | c :: t =>
      match b64_value c, sextets t with
      | Some v, Some l => Some (v :: l)
      | _, _ => None
      end
  end.

Fixpoint decode_sextets (l : list Z) : jsstring :=
  match l with
  | a :: b :: c :: d :: l' =>
      let n := Z.lor (Z.lor (Z.shiftl a 18) (Z.shiftl b 12)) (Z.lor (Z.shiftl c 6) d) in
      chr (Z.shiftr n 16) :: chr (Z.land (Z.shiftr n 8) 255) :: chr (Z.land n 255)
        :: decode_sextets l'
  | [a; b; c] =>
      let n := Z.shiftr (Z.lor (Z.lor (Z.shiftl a 12) (Z.shiftl b 6)) c) 2 in
      [chr (Z.shiftr n 8); chr (Z.land n 255)]
  | [a; b] =>
      [chr (Z.shiftr (Z.lor (Z.shiftl a 6) b) 4)]
  | _ => []
  end.

Definition strip_padding (s : jsstring) : jsstring :=
  match rev s with
  | a :: r =>
      if Ascii.eqb a "=" then
        match r with
        | b :: r' => if Ascii.eqb b "=" then rev r' else rev r
        | [] => rev r
        end
      else s
  | [] => s
  end.

(** [atob] is the forgiving-base64 decode of the HTML standard: ASCII
    whitespace is dropped; when the length is a multiple of 4, one or two
    trailing [=] are removed; a remaining length of 1 modulo 4, or any
    character outside the alphabet, is an [InvalidCharacterError], modelled
    by [None]. *)
Definition atob (data : jsstring) : option jsstring :=
  let data := filter (fun c => negb (is_ascii_whitespace c)) data in
  let data := if jslength data mod 4 =? 0 then strip_padding data else data in
  if jslength data mod 4 =? 1 then None
  else match sextets data with
       | Some l => Some (decode_sextets l)
       | None => None
       end.

Definition b64_char (v : Z) : ascii :=
  if v <? 26 then chr (v + 65)
  else if v <? 52 then chr (v + 71)
  else if v <? 62 then chr (v - 4)
  else if v =? 62 then "+"%char
  else "/"%char.

Fixpoint btoa (s : jsstring) : jsstring :=
  match s with
  | x :: y :: z :: s' =>
      let n := Z.lor (Z.lor (Z.shiftl (code x) 16) (Z.shiftl (code y) 8)) (code z) in
      b64_char (Z.shiftr n 18) :: b64_char (Z.land (Z.shiftr n 12) 63)
        :: b64_char (Z.land (Z.shiftr n 6) 63) :: b64_char (Z.land n 63) :: btoa s'
  | [x; y] =>
      let n := Z.shiftl (Z.lor (Z.shiftl (code x) 8) (code y)) 2 in
      [b64_char (Z.shiftr n 12); b64_char (Z.land (Z.shiftr n 6) 63);
       b64_char (Z.land n 63); "="%char]
  | [x] =>
      let n := Z.shiftl (code x) 4 in
      [b64_char (Z.shiftr n 6); b64_char (Z.land n 63); "="%char; "="%char]
  | [] => []
  end.

(** ** Regular expressions

    The regular expressions of the pipeline are embedded as syntax trees and
    run by a backtracking matcher with ECMAScript's priorities: a greedy
    quantifier tries the longest repetition first, a lazy one the shortest,
    an alternation its left branch first, and an unanchored search the
    leftmost start position first.  Every quantifier in the source applies to
    a single character class, which is what [Quant] offers. *)

Inductive regex :=
| Char (cls : ascii -> bool)
| Empty
| Seq (r1 r2 : regex)
| Alt (r1 r2 : regex)
| Quant (cls : ascii -> bool) (lo : nat) (hi : option nat) (greedy : bool)
| Group (n : nat) (r : regex)
| AssertStart.

Record MState := mkMState {
  pos : nat;                        (* index of the next character *)
  rest : jsstring;                  (* input from [pos] on *)
  caps : list (nat * jsstring)      (* captures so far, latest first *)
}.

Fixpoint quant {R} (cls : ascii -> bool) (greedy : bool) (lo : nat) (hi : option nat)
    (s : jsstring) (p : nat) (k : nat -> jsstring -> option R) {struct s} : option R :=
  let more :=
    fun _ : unit =>
      match hi, s with
      | Some O, _ => None
      | _, c :: t =>
          if cls c then quant cls greedy (Nat.pred lo) (option_map Nat.pred hi) t (S p) k
          else None
      | _, [] => None
      end in
  let stop := fun _ : unit => match lo with O => k p s | S _ => None end in
  if greedy
  then match more tt with Some r => Some r | None => stop tt end
  else match stop tt with Some r => Some r | None => more tt end.

Fixpoint run {R} (r : regex) (st : MState) (k : MState -> option R) : option R :=
  match r with
  | Char cls =>
      match rest st with
      | c :: t => if cls c then k (mkMState (S (pos st)) t (caps st)) else None
      | [] => None
      end
  | Empty => k st
  | Seq r1 r2 => run r1 st (fun st' => run r2 st' k)
  | Alt r1 r2 =>
      match run r1 st k with
      | Some x => Some x
      | None => run r2 st k
      end
  | Quant cls lo hi greedy =>
      quant cls greedy lo hi (rest st) (pos st) (fun p s => k (mkMState p s (caps st)))
  | Group n r' =>
      run r' st (fun st' =>
        k (mkMState (pos st') (rest st')
             ((n, firstn (pos st' - pos st) (rest st)) :: caps st')))
  | AssertStart => match pos st with O => k st | S _ => None end
  end.

(** The result of [String.prototype.match] with a regular expression without
    the [g] flag: the index of the match, the matched text and the captures. *)
Record MatchResult := mkMatch {
  index : Z;
  matched : jsstring;
  groups : list (nat * jsstring)
}.

Fixpoint group (n : nat) (gs : list (nat * jsstring)) : option jsstring :=
  match gs with
  | [] => None
  | (i, w) :: gs' => if Nat.eqb i n then Some w else group n gs'
  end.

Fixpoint search (r : regex) (s : jsstring) (i : nat) : option MatchResult :=
  match run r (mkMState i s []) (fun st' => Some st') with
  | Some st' => Some (mkMatch (Z.of_nat i) (firstn (pos st' - i) s) (caps st'))
  | None =>
      match s with
      | [] => None
      | _ :: t => search r t (S i)
      end
  end.

Definition js_match (s : jsstring) (r : regex) : option MatchResult := search r s 0.

(** Character classes. *)

Definition is_char (a : ascii) : ascii -> bool := fun c => Ascii.eqb c a.

Definition is_digit (c : ascii) : bool := (48 <=? code c) && (code c <=? 57).

(** [.] without the [s] flag: anything but a line terminator (of which only
    LF and CR exist among 8-bit characters). *)
Definition is_dot (c : ascii) : bool := negb ((code c =? 10) || (code c =? 13)).

Definition upcase (c : ascii) : ascii :=
  if (97 <=? code c) && (code c <=? 122) then chr (code c - 32) else c.

(** A letter under the [i] flag. *)
Definition is_char_i (a : ascii) : ascii -> bool :=
  fun c => Ascii.eqb (upcase c) (upcase a).

Definition one_of (a b : ascii) : ascii -> bool :=
  fun c => Ascii.eqb c a || Ascii.eqb c b.

Definition opt (cls : ascii -> bool) : regex := Quant cls 0 (Some 1%nat) true.
Definition star (cls : ascii -> bool) : regex := Quant cls 0 None true.
Definition plus (cls : ascii -> bool) : regex := Quant cls 1 None true.
Definition lazy_star (cls : ascii -> bool) : regex := Quant cls 0 None false.

Fixpoint seq (rs : list regex) : regex :=
  match rs with
  | [] => Empty
  | [r] => r
  | r :: rs' => Seq r (seq rs')
  end.

Definition word_i (w : string) : regex :=
  seq (map (fun c => Char (is_char_i c)) (lit w)).

Definition dquote : ascii := chr 34.

(** The source pattern: [/eigh/i]. *)
Definition re_height_key : regex := word_i "eigh".

(** The source pattern, spaced out: [/( -? \d* \. \d+ | -? \d+ \.? \d* )/]. *)
Definition re_height_value : regex :=
  Group 1
    (Alt (seq [opt (is_char "-"); star is_digit; Char (is_char "."); plus is_digit])
         (seq [opt (is_char "-"); plus is_digit; opt (is_char "."); star is_digit])).

(** The source pattern: [/scale/i]. *)
Definition re_scale_key : regex := word_i "scale".

(** The source pattern, spaced out, with Q for the double quote:
    [/ [Q:]* ( -? \d+ \.? \d* ) [eE] ( [-+]? \d+ ) /]. *)
Definition re_scientific : regex :=
  seq [star (one_of dquote ":");
       Group 1 (seq [opt (is_char "-"); plus is_digit; opt (is_char "."); star is_digit]);
       Char (one_of "e" "E");
       Group 2 (seq [opt (one_of "-" "+"); plus is_digit])].

(** The source pattern, spaced out, with Q for the double quote:
    [/ [Q:]* ( -? \d* \. \d+ ) /]. *)
Definition re_standard_float : regex :=
  seq [star (one_of dquote ":");
       Group 1 (seq [opt (is_char "-"); star is_digit; Char (is_char "."); plus is_digit])].

(** The source pattern, spaced out: [/ ^ .*? ( \d{1,10} ) /]. *)
Definition re_integer : regex :=
  seq [AssertStart; lazy_star is_dot; Group 1 (Quant is_digit 1 (Some 10%nat) true)].

(** ** Numbers: [parseFloat], [parseInt] and the formula's constants *)

Local Open Scope float_scope.

(** The binary64 value nearest to [n / 10^k] (ties to even), which is what a
    decimal literal or a parsed decimal string denotes; the sign is kept on
    zero.  The rounding is that of the standard library's [SFdiv]. *)
Definition of_decimal (neg : bool) (n : Z) (k : nat) : float :=
  match n with
  | Zpos p =>
      SF2Prim (SFdiv prec emax (S754_finite neg p 0)
                 (S754_finite false (Z.to_pos (10 ^ Z.of_nat k)) 0))
  | _ => if neg then neg_zero else zero
  end.

Fixpoint span_digits (s : jsstring) : jsstring * jsstring :=
  match s with
  | c :: t =>
      if is_digit c then let (ds, r) := span_digits t in (c :: ds, r) else ([], s)
  | [] => ([], [])
  end.

Definition digits_value (ds : jsstring) : Z :=
  fold_left (fun acc c => (10 * acc + (code c - 48))%Z) ds 0%Z.

Definition split_sign (s : jsstring) : bool * jsstring :=
  match s with
  | c :: t =>
      if Ascii.eqb c "-" then (true, t)
      else if Ascii.eqb c "+" then (false, t)
      else (false, s)
  | [] => (false, s)
  end.

(** [parseFloat] on a sign, digits, and an optional point with digits: the
    longest such prefix is read, [NaN] when it holds no digit.  Leading white
    space, an exponent part and [Infinity] are not modelled: the pipeline
    passes captures made of [-], digits and [.] only. *)
Definition parseFloat (s : jsstring) : float :=
  let (neg, s1) := split_sign s in
  let (ip, s2) := span_digits s1 in
  let fp := match s2 with
            | c :: s3 => if Ascii.eqb c "." then fst (span_digits s3) else []
            | [] => []
            end in
  match ip ++ fp with
  | [] => nan
  | ds => of_decimal neg (digits_value ds) (List.length fp)
  end.

(** [parseInt] in radix 10 on a sign and digits, [NaN] when there is no
    digit.  The pipeline passes captures made of a sign and digits only, so
    the hexadecimal prefix and leading white space do not arise. *)
Definition parseInt (s : jsstring) : float :=
  let (neg, s1) := split_sign s in
  match fst (span_digits s1) with
  | [] => nan
  | ds => of_decimal neg (digits_value ds) 0
  end.

(** The integer a float denotes, when it denotes one. *)
Definition float_to_Z (f : float) : option Z :=
  match Prim2SF f with
  | S754_zero _ => Some 0%Z
  | S754_finite s m e =>
      let v := (if s then Z.neg m else Z.pos m) in
      if (0 <=? e)%Z then Some (v * 2 ^ e)%Z
      else if (Z.pos m mod 2 ^ (- e) =? 0)%Z then Some (v / 2 ^ (- e))%Z
      else None
  | _ => None
  end.

(** A reference [Math.pow] for base 10 and integer exponents, correctly
    rounded; it instantiates the pipeline in the examples. *)
Definition Math_pow_ref (b e : float) : float :=
  if b =? 10 then
    match float_to_Z e with
    | Some n =>
        if (400 <? n)%Z then infinity
        else if (n <? -400)%Z then zero
        else if (0 <=? n)%Z then of_decimal false (10 ^ n) 0
        else of_decimal false 1 (Z.to_nat (- n))
    | None => nan
    end
  else nan.

(** ** Results *)

(** The source returns [{ error: translations['status_error_general'] }] at
    every failing return statement, with the same message each time.  The
    model tags each of these statements with the kind the specification gives
    it, so that a result says which return produced it. *)
Inductive ErrorKind :=
| AnchorNotFound        (* the anchor is absent from the raw input *)
| DecodeFailure         (* the catch block: [atob] threw *)
| HeightKeyNotFound
| HeightValueNotFound
| ScaleKeyNotFound
| ScaleValueNotFound.

Record RawFields := mkRawFields {
  height_raw : float;
  scale_raw : float
}.

Record CalculationResult := mkResult {
  current : float;
  tallest : float;
  shortest : float;
  scale : float;
  timestamp : Z;
  note : jsstring;
  json : RawFields
}.

Inductive Output :=
| Success (r : CalculationResult)
| Failure (kind : ErrorKind).

(** ** The host: [atob], the clock and the console

    A computation runs in a world that holds the wall clock and records the
    calls made to the host.  It completes normally, by a [return] statement,
    or by throwing. *)

Inductive Event :=
| EvAtob (arg : jsstring)
| EvDateNow
| EvConsoleError.

Record World := mkWorld {
  clock : Z;                (* milliseconds since the epoch *)
  events : list Event       (* host calls so far, oldest first *)
}.

Inductive Completion (A : Type) :=
| Normal (a : A)
| Return (o : Output)
| Throw.

Arguments Normal {A} a.
Arguments Return {A} o.
Arguments Throw {A}.

Definition M (A : Type) := World -> Completion A * World.

Definition ret {A} (a : A) : M A := fun w => (Normal a, w).

Definition bind {A B} (m : M A) (f : A -> M B) : M B :=
  fun w =>
    match m w with
    | (Normal a, w') => f a w'
    | (Return o, w') => (Return o, w')
    | (Throw, w') => (Throw, w')
    end.

Definition return_ {A} (o : Output) : M A := fun w => (Return o, w).

Definition emit (e : Event) (w : World) : World :=
  mkWorld (clock w) (events w ++ [e]).

Definition call_atob (s : jsstring) : M jsstring :=
  fun w =>
    match atob s with
    | Some t => (Normal t, emit (EvAtob s) w)
    | None => (Throw, emit (EvAtob s) w)
    end.

(** [new Date().getTime()] *)
Definition date_now : M Z := fun w => (Normal (clock w), emit EvDateNow w).

Definition console_error : M unit := fun w => (Normal tt, emit EvConsoleError w).

(** A pure stage that either yields a value or names the failing return. *)
Definition stage {A} (x : A + ErrorKind) : M A :=
  match x with
  | inl a => ret a
  | inr k => return_ (Failure k)
  end.

Notation "x <- m ;; f" := (bind m (fun x => f))
  (at level 61, m at next level, right associativity).

(** ** The pipeline of [decodeAndCalculate] *)

(** [match[n]]; a group that took no part in the match is [undefined], which
    [parseFloat] and [parseInt] read as the text [undefined]. *)
Definition capture (m : MatchResult) (n : nat) : jsstring :=
  match group n (groups m) with
  | Some w => w
  | None => lit "undefined"
  end.

Definition startMarker : jsstring := lit "ImJvZHki".

(** Lines 795-799: the URL-safe alphabet is rewritten and the padding restored. *)
Definition normalize (b64Str : jsstring) : jsstring :=
  let b64Str := replaceAll "_" "/" (replaceAll "-" "+" b64Str) in
  let padding := (jslength b64Str mod 4)%Z in
  if (padding =? 0)%Z then b64Str else b64Str ++ repeat_char "=" (4 - padding).

(** Lines 802-814. *)
Definition extractHeight (decodedText : jsstring) : float + ErrorKind :=
  match js_match decodedText re_height_key with
  | None => inr HeightKeyNotFound
  | Some heightKeyMatch =>
      let heightSearchArea :=
        substring_from decodedText (index heightKeyMatch + jslength (matched heightKeyMatch)) in
      match js_match heightSearchArea re_height_value with
      | Some heightMatch => inl (parseFloat (capture heightMatch 1))
      | None => inr HeightValueNotFound
      end
  end.

Section Pipeline.

(** [Math.pow]: ECMAScript leaves its accuracy to the implementation, so the
    pipeline is stated for any. *)
Variable Math_pow : float -> float -> float.

(** Lines 823-845: the three tiers tried on the text after the scale key. *)
Definition scaleTiers (scaleSearchArea : jsstring) : float + ErrorKind :=
  match js_match scaleSearchArea re_scientific with
  | Some scientificMatch =>
      let base := parseFloat (capture scientificMatch 1) in
      let exponent := parseInt (capture scientificMatch 2) in
      inl (base * Math_pow 10 exponent)
  | None =>
      match js_match scaleSearchArea re_standard_float with
      | Some standardFloatMatch => inl (parseFloat (capture standardFloatMatch 1))
      | None =>
          let searchWindow := substring_to scaleSearchArea 30 in
          match js_match searchWindow re_integer with
          | Some integerMatch =>
              let scaleInt := parseInt (capture integerMatch 1) in
              inl (scaleInt / 1000000000.0)
          | None => inr ScaleValueNotFound
          end
      end
  end.

(** Lines 816-845. *)
Definition extractScale (decodedText : jsstring) : float + ErrorKind :=
  match js_match decodedText re_scale_key with
  | None => inr ScaleKeyNotFound
  | Some scaleKeyMatch =>
      scaleTiers
        (substring_from decodedText (index scaleKeyMatch + jslength (matched scaleKeyMatch)))
  end.

(** Lines 847-864: the formula and the result record. *)
Definition assemble (height scale : float) : M Empty_set :=
  let currentHeight := 7.6 - (8.3 * scale) - (3 * height) in
  let shortestHeight := 7.6 - (8.3 * scale) - (3 * -2.0) in
  let tallestHeight := 7.6 - (8.3 * scale) - (3 * 2.0) in
  let jsonResult := mkRawFields height scale in
  now <- date_now ;;
  return_ (Success (mkResult currentHeight tallestHeight shortestHeight scale now [] jsonResult)).

(** The body of the [try] block, lines 788-864. *)
Definition tryBlock (rawData : jsstring) : M Empty_set :=
  let startIndex := indexOf rawData startMarker in
  if (startIndex =? -1)%Z then return_ (Failure AnchorNotFound)
  else
    let b64Str := normalize (substring_from rawData startIndex) in
    decodedText <- call_atob b64Str ;;
    height <- stage (extractHeight decodedText) ;;
    scale <- stage (extractScale decodedText) ;;
    assemble height scale.

(** [decodeAndCalculate]: the [try] block, and the [catch] block that logs
    and returns the failure record. *)
Definition decodeAndCalculate (rawData : jsstring) (w : World) : Output * World :=
  match tryBlock rawData w with
  | (Normal e, _) => match e with end
  | (Return o, w') => (o, w')
  | (Throw, w') => (Failure DecodeFailure, emit EvConsoleError w')
  end.

End Pipeline.

(** ** The potion simulator: [handlePotionDrink] (lines 236-251)

    The component state the handler reads and writes, and the alerts it
    raises.  [Math.random()] is called once, on line 243, and only when a
    result exists; its value is the argument [random]. *)

Inductive Tab := TabMeasure | TabSim | TabHistory.

Record AppState := mkApp {
  activeTab : Tab;
  lastResult : option CalculationResult;
  potionCount : float;
  simResult : option float;
  simExtremeNotice : string;
  alerts : list string
}.

Section Simulator.

(** [translations], imported from a module that is not part of the sources. *)
Variable translations : string -> option string.

(** [t(key) = translations[key] || key] *)
Definition t (key : string) : string :=
  match translations key with
  | Some EmptyString | None => key
  | Some s => s
  end.

Definition handlePotionDrink (random : float) (st : AppState) : AppState :=
  match lastResult st with
  | None =>
      mkApp TabMeasure (lastResult st) (potionCount st) (simResult st)
        (simExtremeNotice st) (alerts st ++ [t "sim_error_no_calc"])
  | Some last =>
      let newRandomHeight := random * 4.0 - 2.0 in
      let newHeightNumber := 7.6 - (8.3 * scale last) - (3 * newRandomHeight) in
      let notice :=
        if 1.96 <=? newRandomHeight then t "sim_extreme_tall"
        else if newRandomHeight <=? -1.96 then t "sim_extreme_short"
        else EmptyString in
      mkApp (activeTab st) (lastResult st) (potionCount st + 1) (Some newHeightNumber)
        notice (alerts st)
  end.

End Simulator.

Local Close Scope float_scope.

(** * Properties *)

(** ** Strings *)

Lemma startsWith_iff (needle s : jsstring) :
  startsWith needle s = true <-> exists post, s = needle ++ post.
Proof.
  revert s; induction needle as [|a needle IH]; intros s; simpl.
  - split; [exists s; reflexivity | reflexivity].
  - destruct s as [|b s].
    + split; [discriminate | intros [post H]; discriminate].
    + rewrite andb_true_iff, Ascii.eqb_eq, IH. split.
      * intros [-> [post ->]]. now exists post.
      * intros [post H]. injection H as -> ->. split; [reflexivity | now exists post].
Qed.

(** [needle] occurs in [s]. *)
Definition contains (needle s : jsstring) : Prop :=
  exists pre post, s = pre ++ needle ++ post.

Lemma indexOf_from_spec (needle s : jsstring) (i : Z) :
  (indexOf_from i s needle = -1 /\ (0 <= i -> ~ contains needle s))%Z \/
  exists n : nat,
    (indexOf_from i s needle = i + Z.of_nat n)%Z /\
    (n <= List.length s)%nat /\
    startsWith needle (skipn n s) = true /\
    forall m, (m < n)%nat -> startsWith needle (skipn m s) = false.
Proof.
  revert i; induction s as [|c s IH]; intros i; simpl.
  - destruct (startsWith needle []) eqn:E.
    + right. exists 0%nat. simpl. repeat split; [lia | lia | exact E | lia].
    + left. split; [reflexivity|]. intros _ (pre & post & H).
      destruct pre; simpl in H; [|discriminate].
      assert (startsWith needle [] = true) by (apply startsWith_iff; now exists post).
      congruence.
  - destruct (startsWith needle (c :: s)) eqn:E.
    + right. exists 0%nat. simpl. repeat split; [lia | lia | exact E | lia].
    + destruct (IH (i + 1)%Z) as [[H1 H2] | (n & H1 & H2 & H3 & H4)].
      * destruct (Z.eq_dec i (-1)) as [->|Hi].
        -- left. split; [exact H1 | lia].
        -- left. split; [exact H1|]. intros Hi0 (pre & post & H).
           destruct pre as [|c' pre]; simpl in H.
           ++ rewrite (proj2 (startsWith_iff needle (c :: s))) in E; [discriminate|].
              now exists post.
           ++ injection H as _ H. apply H2; [lia|]. now exists pre, post.
      * right. exists (S n). simpl. repeat split; [lia | lia | exact H3 |].
        intros [|m] Hm; simpl; [exact E | apply H4; lia].
Qed.

Lemma indexOf_absent (s needle : jsstring) :
  indexOf s needle = (-1)%Z <-> ~ contains needle s.
Proof.
  unfold indexOf. destruct (indexOf_from_spec needle s 0) as [[H1 H2] | (n & H1 & H2 & H3 & H4)].
  - split; [intros _; apply H2; lia | intros _; exact H1].
  - split; [lia|]. intros H. exfalso. apply H.
    apply startsWith_iff in H3 as [post H3].
    exists (firstn n s), post. rewrite <- H3. symmetry. apply firstn_skipn.
Qed.

Lemma indexOf_absent_not (s needle : jsstring) :
  contains needle s -> (indexOf s needle =? -1)%Z = false.
Proof.
  intros H. apply Z.eqb_neq. intros E. now apply indexOf_absent in E.
Qed.

Lemma indexOf_present (s needle : jsstring) (i : Z) :
  indexOf s needle = i -> i <> (-1)%Z ->
  (0 <= i <= jslength s)%Z /\
  (exists post, substring_from s i = needle ++ post) /\
  forall m, (m < Z.to_nat i)%nat -> startsWith needle (skipn m s) = false.
Proof.
  unfold indexOf, substring_from, jslength. intros H Hi.
  destruct (indexOf_from_spec needle s 0) as [[H1 H2] | (n & H1 & H2 & H3 & H4)]; [congruence|].
  assert (Hn : i = Z.of_nat n) by lia. clear H H1. subst i. rewrite Nat2Z.id.
  split; [lia|]. split; [now apply startsWith_iff | exact H4].
Qed.

(** ** The pipeline as a function of its input

    The monadic body unfolds into a decision tree over the stages; every
    later property of [decodeAndCalculate] is read off it. *)

Section PipelineFacts.

Variable Math_pow : float -> float -> float.

(** The block handed to [atob]. *)
Definition candidateBlock (rawData : jsstring) : jsstring :=
  normalize (substring_from rawData (indexOf rawData startMarker)).

Lemma decodeAndCalculate_unfold (rawData : jsstring) (w : World) :
  decodeAndCalculate Math_pow rawData w =
  if (indexOf rawData startMarker =? -1)%Z then (Failure AnchorNotFound, w)
  else
    let w1 := emit (EvAtob (candidateBlock rawData)) w in
    match atob (candidateBlock rawData) with
    | None => (Failure DecodeFailure, emit EvConsoleError w1)
    | Some decodedText =>
        match extractHeight decodedText with
        | inr k => (Failure k, w1)
        | inl height =>
            match extractScale Math_pow decodedText with
            | inr k => (Failure k, w1)
            | inl scale =>
                (Success
                   (mkResult (7.6 - 8.3 * scale - 3 * height)%float
                             (7.6 - 8.3 * scale - 3 * 2.0)%float
                             (7.6 - 8.3 * scale - 3 * -2.0)%float
                             scale (clock w) [] (mkRawFields height scale)),
                 emit EvDateNow w1)
            end
        end
    end.
Proof.
  unfold decodeAndCalculate, tryBlock, candidateBlock.
  destruct (indexOf rawData startMarker =? -1)%Z; [reflexivity|].
  unfold bind, call_atob. cbv zeta.
  destruct (atob _) as [decodedText|]; [|reflexivity].
  destruct (extractHeight decodedText) as [height|k]; [|reflexivity].
  destruct (extractScale Math_pow decodedText) as [scale|k]; reflexivity.
Qed.

End PipelineFacts.

(** ** Block normalisation *)

(** The URL-safe to standard alphabet substitution, character by character. *)
Definition url_to_standard (c : ascii) : ascii :=
  if Ascii.eqb c "-" then "+"%char
  else if Ascii.eqb c "_" then "/"%char
  else c.

Lemma replaceAll_url (s : jsstring) :
  replaceAll "_" "/" (replaceAll "-" "+" s) = map url_to_standard s.
Proof.
  unfold replaceAll. rewrite map_map. apply map_ext. intros c. unfold url_to_standard.
  destruct (Ascii.eqb c "-") eqn:E; [reflexivity|].
  reflexivity.
Qed.

Lemma jslength_app (s1 s2 : jsstring) :
  jslength (s1 ++ s2) = (jslength s1 + jslength s2)%Z.
Proof. unfold jslength. rewrite length_app. lia. Qed.

Lemma jslength_repeat_char (c : ascii) (n : Z) :
  (0 <= n)%Z -> jslength (repeat_char c n) = n.
Proof. intros H. unfold jslength, repeat_char. rewrite repeat_length. lia. Qed.

Lemma jslength_map (f : ascii -> ascii) (s : jsstring) :
  jslength (map f s) = jslength s.
Proof. unfold jslength. now rewrite length_map. Qed.

Lemma normalize_shape (block : jsstring) :
  normalize block =
    map url_to_standard block
      ++ (if (jslength block mod 4 =? 0)%Z then []
          else repeat_char "=" (4 - jslength block mod 4)).
Proof.
  unfold normalize. rewrite replaceAll_url, jslength_map.
  destruct (jslength block mod 4 =? 0)%Z; [now rewrite app_nil_r | reflexivity].
Qed.

(** C8: normalisation is a total rewrite: every [-] becomes [+] and every
    [_] becomes [/]; then, when the length is not a multiple of 4, it is
    padded on the right with [4 - length mod 4] copies of [=], and not padded
    otherwise; the output length is always a multiple of 4. *)
Theorem normalize_rewrites_and_pads (block : jsstring) :
  let padding := (jslength block mod 4)%Z in
  normalize block =
    map url_to_standard block
      ++ (if (padding =? 0)%Z then [] else repeat_char "=" (4 - padding))
  /\ (jslength (normalize block) mod 4 = 0)%Z
  /\ (jslength block <= jslength (normalize block) < jslength block + 4)%Z.
Proof.
  cbv zeta. split; [apply normalize_shape|]. rewrite normalize_shape.
  assert (Hm : (0 <= jslength block mod 4 < 4)%Z) by (apply Z.mod_pos_bound; lia).
  destruct (jslength block mod 4 =? 0)%Z eqn:E.
  - apply Z.eqb_eq in E. rewrite app_nil_r, jslength_map. repeat split; [exact E | lia | lia].
  - apply Z.eqb_neq in E.
    rewrite jslength_app, jslength_map, jslength_repeat_char by lia.
    repeat split; [|lia|lia].
    rewrite (Z.div_mod (jslength block) 4) at 1 by lia.
    replace (4 * (jslength block / 4) + jslength block mod 4 + (4 - jslength block mod 4))%Z
      with ((jslength block / 4 + 1) * 4)%Z by lia.
    apply Z.mod_mul. lia.
Qed.

(** ** [atob] on malformed blocks *)

Lemma sextets_invalid (s : jsstring) (c : ascii) :
  In c s -> b64_value c = None -> sextets s = None.
Proof.
  induction s as [|a s IH]; simpl; [tauto|].
  intros [->|H] Hc.
  - now rewrite Hc.
  - rewrite (IH H Hc). now destruct (b64_value a).
Qed.

Lemma strip_padding_keeps (s : jsstring) (c : ascii) :
  In c s -> c <> "="%char -> In c (strip_padding s).
Proof.
  intros H Hc. unfold strip_padding.
  assert (Hr : In c (rev s)) by now apply in_rev in H.
  destruct (rev s) as [|a r]; [exact H|].
  destruct (Ascii.eqb a "=") eqn:Ea; [|exact H].
  apply Ascii.eqb_eq in Ea. subst a.
  destruct Hr as [Hr|Hr]; [congruence|].
  destruct r as [|b r]; [destruct Hr|].
  destruct (Ascii.eqb b "=") eqn:Eb.
  - apply Ascii.eqb_eq in Eb. subst b.
    destruct Hr as [Hr|Hr]; [congruence | now apply in_rev in Hr].
  - now apply in_rev in Hr.
Qed.

(** A character that is neither white space, nor in the alphabet, nor [=]
    makes [atob] throw. *)
Lemma atob_invalid_char (data : jsstring) (c : ascii) :
  In c data -> is_ascii_whitespace c = false -> b64_value c = None -> c <> "="%char ->
  atob data = None.
Proof.
  intros Hin Hws Hv Hc. unfold atob.
  set (d := filter _ data).
  assert (Hd : In c d) by (apply filter_In; split; [exact Hin | now rewrite Hws]).
  assert (Hs : forall x, In c x -> sextets x = None) by (intros x Hx; now apply sextets_invalid with c).
  destruct (jslength d mod 4 =? 0)%Z.
  - destruct (_ =? 1)%Z; [reflexivity|].
    rewrite Hs; [reflexivity | now apply strip_padding_keeps].
  - destruct (_ =? 1)%Z; [reflexivity|]. now rewrite Hs.
Qed.

(** Three padding characters can never be decoded: at most two are removed. *)
Lemma atob_three_padding (s : jsstring) :
  atob (s ++ repeat_char "=" 3) = None.
Proof.
  unfold atob. rewrite filter_app.
  change (filter _ (repeat_char "=" 3)) with (lit "===").
  set (f := filter _ s).
  assert (Hs : forall x, In "="%char x -> sextets x = None)
    by (intros x Hx; now apply sextets_invalid with "="%char).
  destruct (jslength (f ++ lit "===") mod 4 =? 0)%Z.
  - replace (strip_padding (f ++ lit "===")) with (f ++ lit "=").
    + destruct (_ =? 1)%Z; [reflexivity|].
      rewrite Hs; [reflexivity|]. apply in_or_app. right. now left.
    + unfold strip_padding. rewrite rev_app_distr. simpl.
      now rewrite rev_involutive.
  - destruct (_ =? 1)%Z; [reflexivity|].
    rewrite Hs; [reflexivity|]. apply in_or_app. right. now left.
Qed.

(** ** C6, C2, C7: the anchor gate, failures and determinism *)

Lemma extractHeight_failure (decodedText : jsstring) (k : ErrorKind) :
  extractHeight decodedText = inr k -> k = HeightKeyNotFound \/ k = HeightValueNotFound.
Proof.
  unfold extractHeight. destruct (js_match decodedText re_height_key); [|intros [= <-]; now left].
  destruct (js_match _ re_height_value); [discriminate | intros [= <-]; now right].
Qed.

Section PipelineClaims.

Variable Math_pow : float -> float -> float.

Lemma extractScale_failure (decodedText : jsstring) (k : ErrorKind) :
  extractScale Math_pow decodedText = inr k -> k = ScaleKeyNotFound \/ k = ScaleValueNotFound.
Proof.
  unfold extractScale, scaleTiers.
  destruct (js_match decodedText re_scale_key); [|intros [= <-]; now left].
  destruct (js_match _ re_scientific); [discriminate|].
  destruct (js_match _ re_standard_float); [discriminate|].
  destruct (js_match _ re_integer); [discriminate | intros [= <-]; now right].
Qed.

Definition new_events (w w' : World) (evs : list Event) : Prop :=
  events w' = events w ++ evs.

(** C6: an input without the anchor fails with [AnchorNotFound] and leaves
    the world untouched, so [atob] is not called; an input with the anchor
    splits at its first occurrence into [pre ++ startMarker ++ post], the
    outcome is not [AnchorNotFound], and the first host call is [atob] on the
    normalised suffix [startMarker ++ post], anchor included. *)
Theorem anchor_gate (rawData : jsstring) (w : World) :
  (~ contains startMarker rawData ->
     decodeAndCalculate Math_pow rawData w = (Failure AnchorNotFound, w))
  /\
  (contains startMarker rawData ->
     exists pre post,
       rawData = pre ++ startMarker ++ post
       /\ (forall m, (m < List.length pre)%nat -> startsWith startMarker (skipn m rawData) = false)
       /\ candidateBlock rawData = normalize (startMarker ++ post)
       /\ fst (decodeAndCalculate Math_pow rawData w) <> Failure AnchorNotFound
       /\ exists evs,
            new_events w (snd (decodeAndCalculate Math_pow rawData w))
              (EvAtob (normalize (startMarker ++ post)) :: evs)).
Proof.
  rewrite decodeAndCalculate_unfold. split.
  - intros H. apply indexOf_absent in H. now rewrite H.
  - intros H.
    destruct (Z.eq_dec (indexOf rawData startMarker) (-1)) as [E|E].
    { apply indexOf_absent in E. contradiction. }
    destruct (indexOf_present rawData startMarker _ eq_refl E) as (Hi & (post & Hpost) & Hfirst).
    exists (firstn (Z.to_nat (indexOf rawData startMarker)) rawData), post.
    assert (Hlen : List.length (firstn (Z.to_nat (indexOf rawData startMarker)) rawData)
                   = Z.to_nat (indexOf rawData startMarker)).
    { apply firstn_length_le. unfold jslength in Hi. lia. }
    split; [|split; [|split]].
    + rewrite <- Hpost. symmetry. apply firstn_skipn.
    + rewrite Hlen. exact Hfirst.
    + unfold candidateBlock. now rewrite Hpost.
    + apply Z.eqb_neq in E. rewrite E. cbv zeta.
      assert (Hb : candidateBlock rawData = normalize (startMarker ++ post))
        by (unfold candidateBlock; now rewrite Hpost).
      rewrite <- Hb. unfold new_events.
      destruct (atob (candidateBlock rawData)) as [decodedText|].
      * destruct (extractHeight decodedText) as [height|k] eqn:E1.
        -- destruct (extractScale Math_pow decodedText) as [scale|k] eqn:E0; simpl.
           ++ split; [discriminate|]. exists [EvDateNow]. now rewrite <- app_assoc.
           ++ split; [|now exists []].
              destruct (extractScale_failure _ _ E0) as [-> | ->]; discriminate.
        -- simpl. split; [|now exists []].
           destruct (extractHeight_failure _ _ E1) as [-> | ->]; discriminate.
      * simpl. split; [discriminate|]. exists [EvConsoleError]. now rewrite <- app_assoc.
Qed.

Definition agree_up_to_timestamp (o1 o2 : Output) : Prop :=
  match o1, o2 with
  | Success r1, Success r2 =>
      current r1 = current r2 /\ tallest r1 = tallest r2 /\ shortest r1 = shortest r2
      /\ scale r1 = scale r2 /\ json r1 = json r2 /\ note r1 = note r2
  | Failure k1, Failure k2 => k1 = k2
  | _, _ => False
  end.

Lemma success_reads_clock_once (rawData : jsstring) (w : World) (r : CalculationResult) :
  fst (decodeAndCalculate Math_pow rawData w) = Success r ->
  timestamp r = clock w
  /\ new_events w (snd (decodeAndCalculate Math_pow rawData w))
       [EvAtob (candidateBlock rawData); EvDateNow].
Proof.
  rewrite decodeAndCalculate_unfold. unfold new_events.
  destruct (indexOf rawData startMarker =? -1)%Z; [discriminate|]. cbv zeta.
  destruct (atob (candidateBlock rawData)) as [decodedText|]; [|discriminate].
  destruct (extractHeight decodedText) as [height|k]; [|discriminate].
  destruct (extractScale Math_pow decodedText) as [scale|k]; [|discriminate].
  simpl. intros [= <-]. simpl. split; [reflexivity | now rewrite <- app_assoc].
Qed.

Lemma failure_reads_no_clock (rawData : jsstring) (w : World) (k : ErrorKind) (evs : list Event) :
  fst (decodeAndCalculate Math_pow rawData w) = Failure k ->
  new_events w (snd (decodeAndCalculate Math_pow rawData w)) evs ->
  ~ In EvDateNow evs.
Proof.
  rewrite decodeAndCalculate_unfold. unfold new_events.
  assert (Hfail : forall tail,
             ~ In EvDateNow tail ->
             (events w ++ [EvAtob (candidateBlock rawData)]) ++ tail = events w ++ evs ->
             ~ In EvDateNow evs).
  { intros tail Ht H. rewrite <- app_assoc in H. apply app_inv_head in H. subst evs.
    simpl. intros [H|H]; [discriminate | contradiction]. }
  destruct (indexOf rawData startMarker =? -1)%Z.
  { intros _ H. simpl in H. rewrite <- (app_nil_r (events w)) in H at 1.
    apply app_inv_head in H. subst evs. simpl. tauto. }
  cbv zeta.
  destruct (atob (candidateBlock rawData)) as [decodedText|].
  - destruct (extractHeight decodedText) as [height|k'].
    + destruct (extractScale Math_pow decodedText) as [scale|k']; [discriminate|].
      intros _ H. simpl in H. apply (Hfail []); [simpl; tauto | now rewrite app_nil_r].
    + intros _ H. simpl in H. apply (Hfail []); [simpl; tauto | now rewrite app_nil_r].
  - intros _ H. simpl in H. apply (Hfail [EvConsoleError]); [|exact H].
    simpl. intros [H'|H']; [discriminate | contradiction].
Qed.

Lemma outcome_ignores_world (rawData : jsstring) (w1 w2 : World) :
  agree_up_to_timestamp (fst (decodeAndCalculate Math_pow rawData w1))
                        (fst (decodeAndCalculate Math_pow rawData w2)).
Proof.
  rewrite !decodeAndCalculate_unfold.
  destruct (indexOf rawData startMarker =? -1)%Z; [reflexivity|]. cbv zeta.
  destruct (atob (candidateBlock rawData)) as [decodedText|]; [|reflexivity].
  destruct (extractHeight decodedText) as [height|k]; [|reflexivity].
  destruct (extractScale Math_pow decodedText) as [scale|k]; [|reflexivity].
  simpl. tauto.
Qed.

(** C7: two runs on the same input, in any two worlds, agree on the outcome
    and on every field but [timestamp]; the timestamp is the clock of the
    world the run was made in, read once, as the last host call of a
    successful run; a failing run never reads the clock. *)
Theorem deterministic_up_to_timestamp (rawData : jsstring) (w1 w2 : World) :
  let (o1, w1') := decodeAndCalculate Math_pow rawData w1 in
  let (o2, w2') := decodeAndCalculate Math_pow rawData w2 in
  agree_up_to_timestamp o1 o2
  /\ (forall r, o1 = Success r ->
        timestamp r = clock w1
        /\ new_events w1 w1' [EvAtob (candidateBlock rawData); EvDateNow])
  /\ (forall k evs, o1 = Failure k -> new_events w1 w1' evs -> ~ In EvDateNow evs).
Proof.
  pose proof (outcome_ignores_world rawData w1 w2) as Ha.
  pose proof (success_reads_clock_once rawData w1) as Hs.
  pose proof (failure_reads_no_clock rawData w1) as Hf.
  destruct (decodeAndCalculate Math_pow rawData w1) as [o1 w1'].
  destruct (decodeAndCalculate Math_pow rawData w2) as [o2 w2'].
  simpl in *. split; [exact Ha|]. split; [exact Hs|].
  intros k evs. apply Hf.
Qed.

(** The text from the anchor on, before normalisation. *)
Definition anchoredSuffix (rawData : jsstring) : jsstring :=
  substring_from rawData (indexOf rawData startMarker).

(** C2: the outcome is a success or a failure, never both; the [try] block
    throws exactly when the anchor is present and [atob] rejects the block,
    and the throw is caught and returned as the decode failure; a suffix
    that holds a character outside the two alphabets (other than white space
    and [=]), or whose length is 1 modulo 4, is so rejected; and a failing
    run has assembled no result: it never read the clock. *)
Theorem failures_are_caught (rawData : jsstring) (w : World) :
  let o := fst (decodeAndCalculate Math_pow rawData w) in
  let w' := snd (decodeAndCalculate Math_pow rawData w) in
  ((exists r, o = Success r) \/ (exists k, o = Failure k))
  /\ ~ ((exists r, o = Success r) /\ (exists k, o = Failure k))
  /\ (fst (tryBlock Math_pow rawData w) = Throw <->
       contains startMarker rawData /\ atob (candidateBlock rawData) = None)
  /\ (fst (tryBlock Math_pow rawData w) = Throw -> o = Failure DecodeFailure)
  /\ (contains startMarker rawData ->
       (exists c, In c (anchoredSuffix rawData) /\ is_ascii_whitespace c = false
                  /\ b64_value (url_to_standard c) = None /\ c <> "="%char)
       \/ (jslength (anchoredSuffix rawData) mod 4 = 1)%Z ->
       o = Failure DecodeFailure)
  /\ (forall k evs, o = Failure k -> new_events w w' evs -> ~ In EvDateNow evs).
Proof.
  cbv zeta.
  assert (Hthrow : fst (tryBlock Math_pow rawData w) = Throw <->
                   contains startMarker rawData /\ atob (candidateBlock rawData) = None).
  { unfold tryBlock. fold (candidateBlock rawData).
    destruct (Z.eq_dec (indexOf rawData startMarker) (-1)) as [E|E].
    - rewrite E. simpl. apply indexOf_absent in E. split; [discriminate | tauto].
    - assert (Hc : contains startMarker rawData).
      { destruct (indexOf_present rawData startMarker _ eq_refl E) as (Hi & (post & Hpost) & _).
        exists (firstn (Z.to_nat (indexOf rawData startMarker)) rawData), post.
        unfold substring_from in Hpost. rewrite <- Hpost. symmetry. apply firstn_skipn. }
      apply Z.eqb_neq in E. rewrite E. unfold bind, call_atob.
      destruct (atob (candidateBlock rawData)) as [decodedText|].
      + split; [|intros [_ H]; discriminate].
        destruct (extractHeight decodedText); simpl; [|discriminate].
        destruct (extractScale Math_pow decodedText); simpl; discriminate.
      + simpl. tauto. }
  assert (Hcaught : contains startMarker rawData -> atob (candidateBlock rawData) = None ->
                    fst (decodeAndCalculate Math_pow rawData w) = Failure DecodeFailure).
  { intros Hc Ha. rewrite decodeAndCalculate_unfold.
    destruct (Z.eq_dec (indexOf rawData startMarker) (-1)) as [E|E].
    - apply indexOf_absent in E. contradiction.
    - apply Z.eqb_neq in E. rewrite E. cbv zeta. now rewrite Ha. }
  split; [|split; [|split; [exact Hthrow|split; [|split]]]].
  - destruct (fst (decodeAndCalculate Math_pow rawData w)) as [r|k]; [left; now exists r | right; now exists k].
  - intros [[r Hr] [k Hk]]. congruence.
  - intros H. apply Hthrow in H as [Hc Ha]. now apply Hcaught.
  - intros Hc Hbad. apply Hcaught; [exact Hc|].
    unfold candidateBlock. fold (anchoredSuffix rawData).
    pose proof (normalize_shape (anchoredSuffix rawData)) as Hn.
    destruct Hbad as [(c & Hin & Hws & Hv & Hne) | Hlen].
    + apply atob_invalid_char with (url_to_standard c).
      * rewrite Hn. apply in_or_app. left. now apply in_map.
      * revert Hws Hv. unfold url_to_standard.
        destruct (Ascii.eqb c "-"); [reflexivity|].
        destruct (Ascii.eqb c "_"); [reflexivity | tauto].
      * exact Hv.
      * revert Hv Hne. unfold url_to_standard.
        destruct (Ascii.eqb c "-"); [discriminate|].
        destruct (Ascii.eqb c "_"); [discriminate | tauto].
    + rewrite Hn, Hlen. simpl. apply atob_three_padding.
  - intros k evs. apply failure_reads_no_clock.
Qed.

End PipelineClaims.

(** ** Regular expressions: what the matcher finds

    [matches r st st'] says that [r] can consume input from [st] up to [st'],
    recording its captures; it does not say which of the possible ways the
    backtracking matcher takes.  The matcher is sound for it, and complete:
    it fails only when no way exists. *)

Definition within (n : nat) (hi : option nat) : Prop :=
  match hi with
  | None => True
  | Some h => (n <= h)%nat
  end.

Inductive matches : regex -> MState -> MState -> Prop :=
| m_char cls c t p cs :
    cls c = true ->
    matches (Char cls) (mkMState p (c :: t) cs) (mkMState (S p) t cs)
| m_empty st :
    matches Empty st st
| m_seq r1 r2 st st1 st2 :
    matches r1 st st1 -> matches r2 st1 st2 -> matches (Seq r1 r2) st st2
| m_alt_l r1 r2 st st' :
    matches r1 st st' -> matches (Alt r1 r2) st st'
| m_alt_r r1 r2 st st' :
    matches r2 st st' -> matches (Alt r1 r2) st st'
| m_quant cls lo hi greedy w t p cs :
    forallb cls w = true -> (lo <= List.length w)%nat -> within (List.length w) hi ->
    matches (Quant cls lo hi greedy) (mkMState p (w ++ t) cs)
            (mkMState (p + List.length w) t cs)
| m_group n r st st' :
    matches r st st' ->
    matches (Group n r) st
            (mkMState (pos st') (rest st')
               ((n, firstn (pos st' - pos st) (rest st)) :: caps st'))
| m_start st :
    pos st = 0%nat -> matches AssertStart st st.

Definition first_of {R} (a b : option R) : option R :=
  match a with
  | Some r => Some r
  | None => b
  end.

Lemma first_of_some {R} (a b : option R) (x : R) :
  first_of a b = Some x -> a = Some x \/ b = Some x.
Proof. destruct a; simpl; auto. Qed.

Lemma first_of_not_none {R} (a b : option R) :
  a <> None \/ b <> None -> first_of a b <> None.
Proof. destruct a; simpl; [discriminate | tauto]. Qed.

(** One more repetition, and none. *)
Definition quant_more {R} (cls : ascii -> bool) (greedy : bool) (lo : nat)
    (hi : option nat) (s : jsstring) (p : nat)
    (k : nat -> jsstring -> option R) : option R :=
  match hi, s with
  | Some O, _ => None
  | _, c :: t =>
      if cls c then quant cls greedy (Nat.pred lo) (option_map Nat.pred hi) t (S p) k
      else None
  | _, [] => None
  end.

Definition quant_stop {R} (lo : nat) (s : jsstring) (p : nat)
    (k : nat -> jsstring -> option R) : option R :=
  match lo with
  | O => k p s
  | S _ => None
  end.

Lemma quant_eq {R} cls greedy lo hi s p (k : nat -> jsstring -> option R) :
  quant cls greedy lo hi s p k =
  if greedy
  then first_of (quant_more cls greedy lo hi s p k) (quant_stop lo s p k)
  else first_of (quant_stop lo s p k) (quant_more cls greedy lo hi s p k).
Proof. destruct s; reflexivity. Qed.

Lemma quant_more_some {R} cls greedy lo hi s p (k : nat -> jsstring -> option R) x :
  quant_more cls greedy lo hi s p k = Some x ->
  exists c t,
    s = c :: t /\ hi <> Some O /\ cls c = true
    /\ quant cls greedy (Nat.pred lo) (option_map Nat.pred hi) t (S p) k = Some x.
Proof.
  unfold quant_more. intros H.
  destruct s as [|c t]; [destruct hi as [[|h]|]; discriminate|].
  exists c, t.
  destruct hi as [[|h]|]; [discriminate | |];
    (destruct (cls c); [repeat split; [discriminate | exact H] | discriminate]).
Qed.

Lemma quant_more_cons {R} cls greedy lo hi c t p (k : nat -> jsstring -> option R) :
  hi <> Some O -> cls c = true ->
  quant_more cls greedy lo hi (c :: t) p k
  = quant cls greedy (Nat.pred lo) (option_map Nat.pred hi) t (S p) k.
Proof.
  intros Hhi Hc. unfold quant_more. rewrite Hc.
  destruct hi as [[|h]|]; [congruence | reflexivity..].
Qed.

Lemma within_pred (n : nat) (hi : option nat) :
  within (S n) hi -> within n (option_map Nat.pred hi) /\ hi <> Some O.
Proof. destruct hi as [[|h]|]; simpl; [lia | split; [lia | discriminate] | split; [exact I | discriminate]]. Qed.

Lemma within_succ (n : nat) (hi : option nat) :
  hi <> Some O -> within n (option_map Nat.pred hi) -> within (S n) hi.
Proof. destruct hi as [[|h]|]; simpl; [congruence | lia | trivial]. Qed.

Lemma within_zero (hi : option nat) : within 0 hi.
Proof. destruct hi; simpl; [lia | exact I]. Qed.

Lemma quant_sound {R} cls greedy (k : nat -> jsstring -> option R) x :
  forall s lo hi p,
    quant cls greedy lo hi s p k = Some x ->
    exists w t,
      s = w ++ t /\ forallb cls w = true /\ (lo <= List.length w)%nat
      /\ within (List.length w) hi /\ k (p + List.length w)%nat t = Some x.
Proof.
  induction s as [|c s IH]; intros lo hi p H; rewrite quant_eq in H.
  - assert (Hstop : quant_stop lo [] p k = Some x).
    { destruct greedy; apply first_of_some in H as [H|H]; try exact H;
        apply quant_more_some in H as (c & t & Hs & _); discriminate. }
    unfold quant_stop in Hstop. destruct lo; [|discriminate].
    exists [], []. simpl. rewrite Nat.add_0_r.
    repeat split; [lia | apply within_zero | exact Hstop].
  - assert (Hcases : quant_stop lo (c :: s) p k = Some x \/
                     quant_more cls greedy lo hi (c :: s) p k = Some x).
    { destruct greedy; apply first_of_some in H; tauto. }
    destruct Hcases as [Hstop | Hmore].
    + unfold quant_stop in Hstop. destruct lo; [|discriminate].
      exists [], (c :: s). simpl. rewrite Nat.add_0_r.
      repeat split; [lia | apply within_zero | exact Hstop].
    + apply quant_more_some in Hmore as (c' & t' & [= <- <-] & Hhi & Hc & Hq).
      apply IH in Hq as (w & t & -> & Hw & Hlo & Hhi' & Hk).
      exists (c :: w), t. simpl. rewrite Hc, Hw.
      repeat split; [lia | now apply within_succ | now rewrite <- Nat.add_succ_comm].
Qed.

Lemma quant_complete {R} cls greedy (k : nat -> jsstring -> option R) t :
  forall w lo hi p,
    forallb cls w = true -> (lo <= List.length w)%nat -> within (List.length w) hi ->
    k (p + List.length w)%nat t <> None ->
    quant cls greedy lo hi (w ++ t) p k <> None.
Proof.
  induction w as [|c w IH]; intros lo hi p Hw Hlo Hhi Hk; rewrite quant_eq.
  - simpl in *. rewrite Nat.add_0_r in Hk. assert (lo = 0%nat) by lia. subst lo.
    destruct greedy; apply first_of_not_none; [right | left]; exact Hk.
  - simpl in Hw. apply andb_true_iff in Hw as [Hc Hw]. simpl in Hlo, Hhi, Hk.
    apply within_pred in Hhi as [Hhi Hhi0].
    simpl app. rewrite quant_more_cons by assumption.
    assert (Hmore : quant cls greedy (Nat.pred lo) (option_map Nat.pred hi) (w ++ t) (S p) k
                    <> None).
    { apply IH; [exact Hw | lia | exact Hhi | now rewrite Nat.add_succ_comm]. }
    destruct greedy; apply first_of_not_none; [left | right]; exact Hmore.
Qed.

Lemma run_sound {R} (r : regex) :
  forall (st : MState) (k : MState -> option R) (x : R),
    run r st k = Some x -> exists st', matches r st st' /\ k st' = Some x.
Proof.
  induction r as [cls | | r1 IH1 r2 IH2 | r1 IH1 r2 IH2 | cls lo hi greedy | n r IH | ];
    intros [p s cs] k x H; simpl in H.
  - destruct s as [|c t]; [discriminate|].
    destruct (cls c) eqn:E; [|discriminate].
    eexists. split; [now apply m_char | exact H].
  - eexists. split; [apply m_empty | exact H].
  - apply IH1 in H as (st1 & H1 & H). apply IH2 in H as (st2 & H2 & H).
    exists st2. split; [now apply m_seq with st1 | exact H].
  - destruct (run r1 _ k) eqn:E.
    + injection H as ->. apply IH1 in E as (st' & H1 & H). exists st'. split; [now apply m_alt_l | exact H].
    + apply IH2 in H as (st' & H2 & H). exists st'. split; [now apply m_alt_r | exact H].
  - apply quant_sound in H as (w & t & -> & Hw & Hlo & Hhi & H).
    eexists. split; [now apply m_quant | exact H].
  - apply IH in H as (st' & H1 & H).
    eexists. split; [apply m_group; exact H1 | exact H].
  - destruct p; [|discriminate]. eexists. split; [now apply m_start | exact H].
Qed.

Lemma run_complete {R} (r : regex) (st st' : MState) :
  matches r st st' ->
  forall k : MState -> option R, k st' <> None -> run r st k <> None.
Proof.
  induction 1 as [cls c t p cs Hc | st | r1 r2 st st1 st2 _ IH1 _ IH2
                 | r1 r2 st st' _ IH | r1 r2 st st' _ IH
                 | cls lo hi greedy w t p cs Hw Hlo Hhi | n r st st' _ IH | st Hp];
    intros k Hk; simpl.
  - now rewrite Hc.
  - exact Hk.
  - apply IH1. now apply IH2.
  - destruct (run r1 st k) eqn:E; [discriminate|]. now apply IH in E.
  - destruct (run r1 st k); [discriminate | now apply IH].
  - now apply quant_complete.
  - now apply IH.
  - now rewrite Hp.
Qed.

(** A match consumes a prefix of the input and advances by its length. *)
Lemma matches_consumes (r : regex) (st st' : MState) :
  matches r st st' ->
  exists w, rest st = w ++ rest st' /\ pos st' = (pos st + List.length w)%nat.
Proof.
  induction 1 as [cls c t p cs Hc | st | r1 r2 st st1 st2 _ IH1 _ IH2
                 | r1 r2 st st' _ IH | r1 r2 st st' _ IH
                 | cls lo hi greedy w t p cs Hw Hlo Hhi | n r st st' _ IH | st Hp]; simpl.
  - exists [c]. simpl. split; [reflexivity | lia].
  - exists []. simpl. split; [reflexivity | lia].
  - destruct IH1 as (w1 & E1 & P1), IH2 as (w2 & E2 & P2).
    exists (w1 ++ w2). rewrite E1, E2, <- app_assoc, length_app. split; [reflexivity | lia].
  - exact IH.
  - exact IH.
  - now exists w.
  - exact IH.
  - exists []. simpl. split; [reflexivity | lia].
Qed.

(** The unanchored search: the leftmost position where the matcher succeeds. *)
Definition attempt (r : regex) (s : jsstring) (i j : nat) : option MState :=
  run r (mkMState (i + j) (skipn j s) []) (fun st' => Some st').

Lemma search_spec (r : regex) :
  forall (s : jsstring) (i : nat),
    match search r s i with
    | None => forall j, (j <= List.length s)%nat -> attempt r s i j = None
    | Some m =>
        exists j st',
          (j <= List.length s)%nat
          /\ attempt r s i j = Some st'
          /\ m = mkMatch (Z.of_nat (i + j)) (firstn (pos st' - (i + j)) (skipn j s)) (caps st')
          /\ forall j', (j' < j)%nat -> attempt r s i j' = None
    end.
Proof.
  unfold attempt.
  induction s as [|c s IH]; intros i; simpl.
  - destruct (run r (mkMState i [] []) _) as [st'|] eqn:E.
    + exists 0%nat, st'. rewrite Nat.add_0_r. simpl. repeat split; [lia | exact E | lia].
    + intros j Hj. assert (j = 0%nat) by lia. subst j. now rewrite Nat.add_0_r.
  - destruct (run r (mkMState i (c :: s) []) _) as [st'|] eqn:E.
    + exists 0%nat, st'. rewrite Nat.add_0_r. simpl. repeat split; [lia | exact E | lia].
    + specialize (IH (S i)). destruct (search r s (S i)) as [m|].
      * destruct IH as (j & st' & Hj & Hrun & Hm & Hfirst).
        exists (S j), st'. rewrite <- Nat.add_succ_comm. simpl.
        repeat split; [lia | exact Hrun | exact Hm |].
        intros [|j'] Hj'; [now rewrite Nat.add_0_r|].
        rewrite <- Nat.add_succ_comm. apply Hfirst. lia.
      * intros [|j] Hj; [now rewrite Nat.add_0_r|].
        rewrite <- Nat.add_succ_comm. apply IH. lia.
Qed.

(** *** Inversion of the derivations, and the consumed words *)

(** [consumes st w st']: [st'] is [st] advanced over [w]. *)
Definition consumes (st : MState) (w : jsstring) (st' : MState) : Prop :=
  rest st = w ++ rest st' /\ pos st' = (pos st + List.length w)%nat.

Lemma firstn_consumed (st st' : MState) (w : jsstring) :
  consumes st w st' -> firstn (pos st' - pos st) (rest st) = w.
Proof.
  intros [E P]. rewrite E, P.
  replace (pos st + List.length w - pos st)%nat with (List.length w + 0)%nat by lia.
  rewrite firstn_app_2. simpl. apply app_nil_r.
Qed.

Lemma consumes_unique (st st' : MState) (w1 w2 : jsstring) :
  consumes st w1 st' -> consumes st w2 st' -> w1 = w2.
Proof.
  intros H1 H2. rewrite <- (firstn_consumed _ _ _ H1). now apply firstn_consumed.
Qed.

Lemma inv_char cls st st' :
  matches (Char cls) st st' ->
  exists c, cls c = true /\ consumes st [c] st' /\ caps st' = caps st.
Proof.
  inversion 1; subst. exists c. unfold consumes. simpl. repeat split; [assumption | lia].
Qed.

Lemma inv_seq r1 r2 st st' :
  matches (Seq r1 r2) st st' -> exists st1, matches r1 st st1 /\ matches r2 st1 st'.
Proof. inversion 1; subst. eauto. Qed.

Lemma inv_alt r1 r2 st st' :
  matches (Alt r1 r2) st st' -> matches r1 st st' \/ matches r2 st st'.
Proof. inversion 1; subst; auto. Qed.

Lemma inv_quant cls lo hi greedy st st' :
  matches (Quant cls lo hi greedy) st st' ->
  exists w, consumes st w st' /\ caps st' = caps st
            /\ forallb cls w = true /\ (lo <= List.length w)%nat /\ within (List.length w) hi.
Proof.
  inversion 1; subst. exists w. unfold consumes. simpl. repeat split; assumption.
Qed.

Lemma inv_group n r st st'' :
  matches (Group n r) st st'' ->
  exists st' w,
    matches r st st' /\ consumes st w st'
    /\ st'' = mkMState (pos st') (rest st') ((n, w) :: caps st').
Proof.
  inversion 1 as [ | | | | | | n' r' st0 st' Hm | ]; subst.
  destruct (matches_consumes _ _ _ Hm) as (w & Hw).
  exists st', w. rewrite (firstn_consumed st st' w Hw). auto.
Qed.

Lemma inv_start st st' :
  matches AssertStart st st' -> st' = st /\ pos st = 0%nat.
Proof. inversion 1; subst. auto. Qed.

Lemma consumes_nil (st : MState) : consumes st [] st.
Proof. unfold consumes. simpl. split; [reflexivity | lia]. Qed.

Lemma consumes_app (st st1 st2 : MState) (w1 w2 : jsstring) :
  consumes st w1 st1 -> consumes st1 w2 st2 -> consumes st (w1 ++ w2) st2.
Proof.
  intros [E1 P1] [E2 P2]. unfold consumes.
  rewrite E1, E2, P2, P1, <- app_assoc, length_app. split; [reflexivity | lia].
Qed.

(** Building derivations over explicit words. *)

Lemma mk_quant cls lo hi greedy (w t : jsstring) (p : nat) cs :
  forallb cls w = true -> (lo <= List.length w)%nat -> within (List.length w) hi ->
  matches (Quant cls lo hi greedy) (mkMState p (w ++ t) cs) (mkMState (p + List.length w) t cs).
Proof. apply m_quant. Qed.

Lemma mk_group n r (w t : jsstring) (p : nat) cs cs' :
  matches r (mkMState p (w ++ t) cs) (mkMState (p + List.length w) t cs') ->
  matches (Group n r) (mkMState p (w ++ t) cs)
          (mkMState (p + List.length w) t ((n, w) :: cs')).
Proof.
  intros H. apply (m_group n) in H. simpl in H.
  replace (p + List.length w - p)%nat with (List.length w + 0)%nat in H by lia.
  rewrite firstn_app_2 in H. simpl in H. now rewrite app_nil_r in H.
Qed.

(** *** The numeric tokens of the pipeline's patterns *)

Definition all_digits (w : jsstring) : Prop := forallb is_digit w = true.

Definition digit_run (w : jsstring) : Prop := w <> [] /\ all_digits w.

Definition optional (a : ascii) (w : jsstring) : Prop := w = [] \/ w = [a].

(** A sign, digits, a point, and at least one digit: the first branch of
    the height pattern and the token of the second scale tier. *)
Definition decimal_token (tok : jsstring) : Prop :=
  exists sgn ip fp,
    tok = sgn ++ ip ++ "."%char :: fp
    /\ optional "-" sgn /\ all_digits ip /\ digit_run fp.

(** A sign, at least one digit, and optionally a point and digits: the
    second branch of the height pattern and the mantissa of the first tier. *)
Definition number_token (tok : jsstring) : Prop :=
  exists sgn ip pt fp,
    tok = sgn ++ ip ++ pt ++ fp
    /\ optional "-" sgn /\ digit_run ip /\ optional "." pt /\ all_digits fp.

(** An optional sign and at least one digit: the exponent of the first tier. *)
Definition exponent_token (tok : jsstring) : Prop :=
  exists sgn ds,
    tok = sgn ++ ds /\ (optional "-" sgn \/ optional "+" sgn) /\ digit_run ds.

Definition rx_decimal : regex :=
  seq [opt (is_char "-"); star is_digit; Char (is_char "."); plus is_digit].

Definition rx_number : regex :=
  seq [opt (is_char "-"); plus is_digit; opt (is_char "."); star is_digit].

Definition rx_exponent : regex :=
  seq [opt (one_of "-" "+"); plus is_digit].

Lemma is_char_true (a c : ascii) : is_char a c = true -> c = a.
Proof. unfold is_char. apply Ascii.eqb_eq. Qed.

Lemma optional_word (a : ascii) (w : jsstring) :
  forallb (is_char a) w = true -> within (List.length w) (Some 1%nat) -> optional a w.
Proof.
  destruct w as [|c [|c' w]]; simpl; intros H L; [now left | | lia].
  right. apply andb_true_iff in H as [H _]. apply is_char_true in H. now subst.
Qed.

Lemma optional_sign_word (w : jsstring) :
  forallb (one_of "-" "+") w = true -> within (List.length w) (Some 1%nat) ->
  optional "-" w \/ optional "+" w.
Proof.
  destruct w as [|c [|c' w]]; simpl; intros H L; [left; now left | | lia].
  apply andb_true_iff in H as [H _]. unfold one_of in H. apply orb_true_iff in H.
  destruct H as [H|H]; apply Ascii.eqb_eq in H; subst; [left | right]; now right.
Qed.

Lemma digit_run_word (w : jsstring) :
  forallb is_digit w = true -> (1 <= List.length w)%nat -> digit_run w.
Proof. intros H L. split; [|exact H]. destruct w; [simpl in L; lia | discriminate]. Qed.

Lemma optional_forallb (a : ascii) (w : jsstring) :
  optional a w -> forallb (is_char a) w = true /\ within (List.length w) (Some 1%nat).
Proof.
  intros [-> | ->]; simpl; [split; [reflexivity | lia]|].
  unfold is_char. rewrite Ascii.eqb_refl. split; [reflexivity | lia].
Qed.

Lemma digit_run_length (w : jsstring) : digit_run w -> (1 <= List.length w)%nat.
Proof. intros [H _]. destruct w; [congruence | simpl; lia]. Qed.

Lemma decimal_matches (st st' : MState) :
  matches rx_decimal st st' ->
  exists tok, consumes st tok st' /\ decimal_token tok /\ caps st' = caps st.
Proof.
  unfold rx_decimal. simpl seq. intros H.
  apply inv_seq in H as (s1 & H1 & H). apply inv_seq in H as (s2 & H2 & H).
  apply inv_seq in H as (s3 & H3 & H4).
  apply inv_quant in H1 as (w1 & C1 & K1 & F1 & L1 & U1).
  apply inv_quant in H2 as (w2 & C2 & K2 & F2 & L2 & U2).
  apply inv_char in H3 as (c & Hc & C3 & K3).
  apply inv_quant in H4 as (w4 & C4 & K4 & F4 & L4 & U4).
  apply is_char_true in Hc. subst c.
  exists (w1 ++ w2 ++ ["."%char] ++ w4). split; [|split].
  - eauto using consumes_app.
  - exists w1, w2, w4. split; [reflexivity|].
    split; [now apply optional_word|]. split; [exact F2 | now apply digit_run_word].
  - congruence.
Qed.

Lemma number_matches (st st' : MState) :
  matches rx_number st st' ->
  exists tok, consumes st tok st' /\ number_token tok /\ caps st' = caps st.
Proof.
  unfold rx_number. simpl seq. intros H.
  apply inv_seq in H as (s1 & H1 & H). apply inv_seq in H as (s2 & H2 & H).
  apply inv_seq in H as (s3 & H3 & H4).
  apply inv_quant in H1 as (w1 & C1 & K1 & F1 & L1 & U1).
  apply inv_quant in H2 as (w2 & C2 & K2 & F2 & L2 & U2).
  apply inv_quant in H3 as (w3 & C3 & K3 & F3 & L3 & U3).
  apply inv_quant in H4 as (w4 & C4 & K4 & F4 & L4 & U4).
  exists (w1 ++ w2 ++ w3 ++ w4). split; [|split].
  - eauto using consumes_app.
  - exists w1, w2, w3, w4. split; [reflexivity|].
    split; [now apply optional_word|]. split; [now apply digit_run_word|].
    split; [now apply optional_word | exact F4].
  - congruence.
Qed.

Lemma exponent_matches (st st' : MState) :
  matches rx_exponent st st' ->
  exists tok, consumes st tok st' /\ exponent_token tok /\ caps st' = caps st.
Proof.
  unfold rx_exponent. simpl seq. intros H.
  apply inv_seq in H as (s1 & H1 & H2).
  apply inv_quant in H1 as (w1 & C1 & K1 & F1 & L1 & U1).
  apply inv_quant in H2 as (w2 & C2 & K2 & F2 & L2 & U2).
  exists (w1 ++ w2). split; [|split].
  - eauto using consumes_app.
  - exists w1, w2. split; [reflexivity|].
    split; [now apply optional_sign_word | now apply digit_run_word].
  - congruence.
Qed.

Lemma decimal_token_matches (tok t : jsstring) (p : nat) cs :
  decimal_token tok ->
  matches rx_decimal (mkMState p (tok ++ t) cs) (mkMState (p + List.length tok) t cs).
Proof.
  intros (sgn & ip & fp & -> & Hs & Hi & Hf).
  apply optional_forallb in Hs as [Fs Us]. pose proof (digit_run_length _ Hf) as Lf.
  destruct Hf as [_ Ff].
  replace (p + List.length (sgn ++ ip ++ "."%char :: fp))%nat
    with (S (p + List.length sgn + List.length ip) + List.length fp)%nat
    by (rewrite !length_app; simpl; lia).
  rewrite <- !app_assoc. unfold rx_decimal. simpl seq.
  eapply m_seq; [apply m_quant; [exact Fs | lia | exact Us]|].
  eapply m_seq; [apply m_quant; [exact Hi | lia | exact I]|].
  simpl app. eapply m_seq; [apply m_char; reflexivity|].
  apply m_quant; [exact Ff | exact Lf | exact I].
Qed.

Lemma number_token_matches (tok t : jsstring) (p : nat) cs :
  number_token tok ->
  matches rx_number (mkMState p (tok ++ t) cs) (mkMState (p + List.length tok) t cs).
Proof.
  intros (sgn & ip & pt & fp & -> & Hs & Hi & Hp & Hf).
  apply optional_forallb in Hs as [Fs Us]. apply optional_forallb in Hp as [Fp Up].
  pose proof (digit_run_length _ Hi) as Li. destruct Hi as [_ Fi].
  replace (p + List.length (sgn ++ ip ++ pt ++ fp))%nat
    with (p + List.length sgn + List.length ip + List.length pt + List.length fp)%nat
    by (rewrite !length_app; lia).
  rewrite <- !app_assoc. unfold rx_number. simpl seq.
  eapply m_seq; [apply m_quant; [exact Fs | lia | exact Us]|].
  eapply m_seq; [apply m_quant; [exact Fi | exact Li | exact I]|].
  eapply m_seq; [apply m_quant; [exact Fp | lia | exact Up]|].
  apply m_quant; [exact Hf | lia | exact I].
Qed.

Lemma exponent_token_matches (tok t : jsstring) (p : nat) cs :
  exponent_token tok ->
  matches rx_exponent (mkMState p (tok ++ t) cs) (mkMState (p + List.length tok) t cs).
Proof.
  intros (sgn & ds & -> & Hs & Hd).
  assert (Fs : forallb (one_of "-" "+") sgn = true /\ within (List.length sgn) (Some 1%nat)).
  { destruct Hs as [[-> | ->] | [-> | ->]]; simpl; split; try reflexivity; lia. }
  destruct Fs as [Fs Us].
  pose proof (digit_run_length _ Hd) as Ld. destruct Hd as [_ Fd].
  replace (p + List.length (sgn ++ ds))%nat with (p + List.length sgn + List.length ds)%nat
    by (rewrite !length_app; lia).
  rewrite <- !app_assoc. unfold rx_exponent. simpl seq.
  eapply m_seq; [apply m_quant; [exact Fs | lia | exact Us]|].
  apply m_quant; [exact Fd | exact Ld | exact I].
Qed.

(** *** The search, declaratively *)

Lemma js_match_sound (r : regex) (s : jsstring) (m : MatchResult) :
  js_match s r = Some m ->
  exists pre post st',
    s = pre ++ matched m ++ post
    /\ index m = jslength pre
    /\ groups m = caps st'
    /\ matches r (mkMState (List.length pre) (matched m ++ post) []) st'
    /\ rest st' = post
    /\ forall pre' t st1, s = pre' ++ t -> (List.length pre' < List.length pre)%nat ->
         ~ matches r (mkMState (List.length pre') t []) st1.
Proof.
  unfold js_match. intros H. pose proof (search_spec r s 0) as S. rewrite H in S.
  destruct S as (j & st' & Hj & Hrun & -> & Hfirst). unfold attempt in *. simpl in *.
  apply run_sound in Hrun as (st'' & Hm & [= ->]).
  destruct (matches_consumes _ _ _ Hm) as (w & Hw). pose proof Hw as [E P]. simpl in E, P.
  pose proof (firstn_consumed _ _ _ Hw) as Hf. simpl in Hf. rewrite Hf.
  assert (Hlen : List.length (firstn j s) = j) by (apply firstn_length_le; exact Hj).
  exists (firstn j s), (rest st'), st'. rewrite Hlen.
  split; [rewrite <- E; symmetry; apply firstn_skipn|].
  split; [unfold jslength; now rewrite Hlen|].
  split; [reflexivity|]. split; [now rewrite <- E|]. split; [reflexivity|].
  intros pre' t st1 -> Hlt Hm1.
  specialize (Hfirst (List.length pre') Hlt).
  rewrite skipn_app, skipn_all, Nat.sub_diag in Hfirst. simpl in Hfirst.
  eapply (run_complete _ _ _ Hm1); [|exact Hfirst]. discriminate.
Qed.

Lemma js_match_complete (r : regex) (pre t : jsstring) (st' : MState) :
  matches r (mkMState (List.length pre) t []) st' ->
  js_match (pre ++ t) r <> None.
Proof.
  intros Hm Hnone. unfold js_match in Hnone.
  pose proof (search_spec r (pre ++ t) 0) as S. rewrite Hnone in S.
  specialize (S (List.length pre)). unfold attempt in S. simpl in S.
  rewrite skipn_app, skipn_all, Nat.sub_diag in S. simpl in S.
  eapply (run_complete _ _ _ Hm); [|apply S; rewrite length_app; lia]. discriminate.
Qed.

(** *** The height value pattern *)

Definition has_digit (s : jsstring) : Prop := exists d, In d s /\ is_digit d = true.

Lemma digit_run_has_digit (w : jsstring) : digit_run w -> has_digit w.
Proof.
  intros [Hne Hall]. destruct w as [|d w]; [congruence|].
  simpl in Hall. apply andb_true_iff in Hall as [Hd _]. exists d. split; [now left | exact Hd].
Qed.

Lemma has_digit_app (s1 s2 : jsstring) :
  has_digit (s1 ++ s2) <-> has_digit s1 \/ has_digit s2.
Proof.
  unfold has_digit. split.
  - intros (d & Hin & Hd). apply in_app_or in Hin as [H|H]; [left | right]; eauto.
  - intros [(d & Hin & Hd) | (d & Hin & Hd)]; exists d; split; auto using in_or_app.
Qed.

Lemma decimal_token_has_digit (tok : jsstring) : decimal_token tok -> has_digit tok.
Proof.
  intros (sgn & ip & fp & -> & _ & _ & Hf).
  apply has_digit_app. right. apply has_digit_app. right.
  change ("."%char :: fp) with (["."%char] ++ fp). apply has_digit_app. right.
  now apply digit_run_has_digit.
Qed.

Lemma number_token_has_digit (tok : jsstring) : number_token tok -> has_digit tok.
Proof.
  intros (sgn & ip & pt & fp & -> & _ & Hi & _ & _).
  apply has_digit_app. right. apply has_digit_app. left. now apply digit_run_has_digit.
Qed.

Lemma height_value_matches (st st' : MState) :
  matches re_height_value st st' ->
  exists tok,
    consumes st tok st' /\ (decimal_token tok \/ number_token tok)
    /\ caps st' = (1%nat, tok) :: caps st.
Proof.
  unfold re_height_value. intros H.
  apply inv_group in H as (st1 & w & H & Hw & ->). simpl.
  apply inv_alt in H as [H|H].
  - apply decimal_matches in H as (tok & Ht & Hd & Hc).
    rewrite (consumes_unique _ _ _ _ Hw Ht). exists tok.
    split; [exact Ht|]. split; [now left | now rewrite Hc].
  - apply number_matches in H as (tok & Ht & Hd & Hc).
    rewrite (consumes_unique _ _ _ _ Hw Ht). exists tok.
    split; [exact Ht|]. split; [now right | now rewrite Hc].
Qed.

(** The height value pattern finds a token exactly when the text holds a
    digit; the token is then a decimal or a number token and is capture 1. *)
Lemma height_value_search (area : jsstring) :
  match js_match area re_height_value with
  | Some m =>
      has_digit area
      /\ exists pre post,
           area = pre ++ capture m 1 ++ post
           /\ (decimal_token (capture m 1) \/ number_token (capture m 1))
  | None => ~ has_digit area
  end.
Proof.
  destruct (js_match area re_height_value) as [m|] eqn:E.
  - apply js_match_sound in E as (pre & post & st' & Hs & _ & Hg & Hm & Hr & _).
    apply height_value_matches in Hm as (tok & [Ht _] & Hshape & Hc).
    simpl in Ht, Hc. rewrite Hr in Ht. apply app_inv_tail in Ht.
    assert (Hcap : capture m 1 = tok) by (unfold capture; rewrite Hg, Hc; reflexivity).
    rewrite Hcap, <- Ht. split.
    + rewrite Hs. apply has_digit_app. right. apply has_digit_app. left.
      rewrite Ht. destruct Hshape; [now apply decimal_token_has_digit | now apply number_token_has_digit].
    + exists pre, post. split; [exact Hs | now rewrite Ht].
  - intros (d & Hin & Hd).
    apply in_split in Hin as (pre & post & ->).
    eapply (js_match_complete re_height_value pre (d :: post)); [|exact E].
    unfold re_height_value.
    apply (mk_group 1 _ [d] post (List.length pre) [] []).
    apply m_alt_r. apply (number_token_matches [d] post).
    exists [], [d], [], [].
    split; [reflexivity|]. split; [now left|]. split; [|split; [now left | reflexivity]].
    split; [discriminate|]. unfold all_digits. simpl. now rewrite Hd.
Qed.

(** *** The key patterns *)

(** Equal up to the case of ASCII letters. *)
Definition same_letters (w l : jsstring) : Prop := map upcase w = map upcase l.

Definition letters (l : jsstring) : regex := seq (map (fun c => Char (is_char_i c)) l).

Lemma same_letters_length (w l : jsstring) : same_letters w l -> List.length w = List.length l.
Proof. intros H. apply (f_equal (@List.length ascii)) in H. now rewrite !length_map in H. Qed.

Lemma letters_matches (l : jsstring) :
  forall st st',
    matches (letters l) st st' ->
    exists w, consumes st w st' /\ caps st' = caps st /\ same_letters w l.
Proof.
  unfold letters. induction l as [|a l IH]; intros st st' H.
  - inversion H; subst. exists []. split; [apply consumes_nil | split; reflexivity].
  - assert (Hone : forall s s', matches (Char (is_char_i a)) s s' ->
                     exists c, consumes s [c] s' /\ caps s' = caps s /\ upcase c = upcase a).
    { intros s s' Hm. apply inv_char in Hm as (c & Hc & Hcons & Hcaps).
      exists c. split; [exact Hcons|]. split; [exact Hcaps|].
      unfold is_char_i in Hc. now apply Ascii.eqb_eq in Hc. }
    destruct l as [|b l].
    + apply Hone in H as (c & Hc & Hcaps & Hu). exists [c].
      split; [exact Hc|]. split; [exact Hcaps|]. unfold same_letters. simpl. now rewrite Hu.
    + change (seq (map _ (a :: b :: l)))
        with (Seq (Char (is_char_i a)) (seq (map (fun c => Char (is_char_i c)) (b :: l)))) in H.
      apply inv_seq in H as (s1 & H1 & H2).
      apply Hone in H1 as (c & Hc & Hcaps & Hu).
      apply IH in H2 as (w & Hw & Hcaps' & Hs).
      exists ([c] ++ w). split; [now apply consumes_app with s1|].
      split; [congruence|]. unfold same_letters in *. simpl. now rewrite Hu, Hs.
Qed.

Lemma letters_built (l : jsstring) :
  forall (w t : jsstring) (p : nat) cs,
    same_letters w l ->
    matches (letters l) (mkMState p (w ++ t) cs) (mkMState (p + List.length w) t cs).
Proof.
  unfold letters, same_letters. induction l as [|a l IH]; intros w t p cs H.
  - destruct w; [|discriminate]. simpl. rewrite Nat.add_0_r. apply m_empty.
  - destruct w as [|c w]; [discriminate|]. simpl in H. injection H as Hc Hw.
    assert (Hcls : is_char_i a c = true) by (unfold is_char_i; now apply Ascii.eqb_eq).
    simpl List.length. rewrite <- Nat.add_succ_comm.
    destruct l as [|b l].
    + destruct w; [|discriminate]. simpl. rewrite Nat.add_0_r. now apply m_char.
    + change (seq (map _ (a :: b :: l)))
        with (Seq (Char (is_char_i a)) (seq (map (fun c => Char (is_char_i c)) (b :: l)))).
      eapply m_seq; [simpl; now apply m_char|]. now apply IH.
Qed.

(** [text] splits at the first occurrence of the key, in any case, into what
    precedes it, the occurrence, and the search area after it. *)
Definition first_marker (key : string) (text pre mk area : jsstring) : Prop :=
  text = pre ++ mk ++ area
  /\ same_letters mk (lit key)
  /\ forall pre' mk' area',
       text = pre' ++ mk' ++ area' -> same_letters mk' (lit key) ->
       (List.length pre <= List.length pre')%nat.

Lemma app_eq_length (a1 b1 a2 b2 : jsstring) :
  a1 ++ b1 = a2 ++ b2 -> List.length a1 = List.length a2 -> a1 = a2 /\ b1 = b2.
Proof.
  revert a2; induction a1 as [|x a1 IH]; intros [|y a2] H L; simpl in *; try lia.
  - now split.
  - injection H as -> H. destruct (IH a2 H) as [-> ->]; [lia | now split].
Qed.

Lemma first_marker_unique (key : string) (text p1 m1 a1 p2 m2 a2 : jsstring) :
  first_marker key text p1 m1 a1 -> first_marker key text p2 m2 a2 ->
  p1 = p2 /\ m1 = m2 /\ a1 = a2.
Proof.
  intros (E1 & S1 & F1) (E2 & S2 & F2).
  pose proof (F1 _ _ _ E2 S2). pose proof (F2 _ _ _ E1 S1).
  rewrite E1 in E2. apply app_eq_length in E2 as [-> E2]; [|lia].
  apply app_eq_length in E2 as [-> ->]; [auto|].
  rewrite (same_letters_length _ _ S1). symmetry. now apply same_letters_length.
Qed.

Lemma key_search (key : string) (text : jsstring) :
  match js_match text (word_i key) with
  | Some m =>
      exists pre area,
        first_marker key text pre (matched m) area
        /\ index m = jslength pre
        /\ substring_from text (index m + jslength (matched m)) = area
  | None =>
      forall pre mk area, text = pre ++ mk ++ area -> ~ same_letters mk (lit key)
  end.
Proof.
  change (word_i key) with (letters (lit key)).
  destruct (js_match text (letters (lit key))) as [m|] eqn:E.
  - apply js_match_sound in E as (pre & post & st' & Hs & Hi & _ & Hm & Hr & Hfirst).
    apply letters_matches in Hm as (w & [Hw _] & _ & Hsame). simpl in Hw.
    rewrite Hr in Hw. apply app_inv_tail in Hw. subst w.
    exists pre, post. split; [split; [exact Hs | split; [exact Hsame|]]|split; [exact Hi|]].
    + intros pre' mk' area' Ht Hs'.
      destruct (Nat.le_gt_cases (List.length pre) (List.length pre')) as [Hle|Hgt]; [exact Hle|].
      exfalso. eapply (Hfirst pre' (mk' ++ area')); [exact Ht | exact Hgt|].
      now apply letters_built.
    + unfold substring_from. rewrite Hi. unfold jslength. rewrite <- Nat2Z.inj_add, Nat2Z.id.
      rewrite Hs at 1. rewrite app_assoc, <- length_app.
      rewrite skipn_app, skipn_all, Nat.sub_diag. reflexivity.
  - intros pre mk area -> Hsame.
    eapply (js_match_complete (letters (lit key)) pre (mk ++ area)); [|exact E].
    now apply letters_built.
Qed.

(** ** C10: the height value *)

Lemma extractHeight_at_marker (text pre mk area : jsstring) :
  first_marker "eigh" text pre mk area ->
  extractHeight text =
  match js_match area re_height_value with
  | Some heightMatch => inl (parseFloat (capture heightMatch 1))
  | None => inr HeightValueNotFound
  end.
Proof.
  intros Hfm. unfold extractHeight. pose proof (key_search "eigh" text) as K.
  change (word_i "eigh") with re_height_key in K.
  destruct (js_match text re_height_key) as [m|].
  - destruct K as (pre' & area' & Hfm' & _ & ->).
    destruct (first_marker_unique _ _ _ _ _ _ _ _ Hfm Hfm') as (_ & _ & ->). reflexivity.
  - destruct Hfm as (E & S & _). exfalso. exact (K _ _ _ E S).
Qed.

Lemma extractHeight_no_marker (text : jsstring) :
  extractHeight text = inr HeightKeyNotFound <->
  forall pre mk area, text = pre ++ mk ++ area -> ~ same_letters mk (lit "eigh").
Proof.
  unfold extractHeight. pose proof (key_search "eigh" text) as K.
  change (word_i "eigh") with re_height_key in K.
  destruct (js_match text re_height_key) as [m|].
  - destruct K as (pre' & area' & (E & S & _) & _ & _). split.
    + destruct (js_match _ re_height_value); discriminate.
    + intros H. exfalso. exact (H _ _ _ E S).
  - split; [intros _; exact K | reflexivity].
Qed.

Section HeightValue.

Variable Math_pow : float -> float -> float.

(** C10: when the text holds the height marker, with [area] the text after
    its first occurrence, the height is found exactly when [area] holds a
    decimal digit: the value-not-found failure is returned, by the extractor
    and by the pipeline, exactly when [area] has no digit, and otherwise the
    height is [parseFloat] of a token of [area] that is a decimal token (a
    point followed by digits, the integer part optional) or a number token
    (digits, the point and the fraction optional). *)
Theorem height_found_iff_digit (text pre mk area : jsstring) :
  first_marker "eigh" text pre mk area ->
  (extractHeight text = inr HeightValueNotFound <-> ~ has_digit area)
  /\ (has_digit area <->
      exists tok a b,
        area = a ++ tok ++ b
        /\ (decimal_token tok \/ number_token tok)
        /\ extractHeight text = inl (parseFloat tok))
  /\ (forall rawData w,
        contains startMarker rawData -> atob (candidateBlock rawData) = Some text ->
        (fst (decodeAndCalculate Math_pow rawData w) = Failure HeightValueNotFound
         <-> ~ has_digit area)).
Proof.
  intros Hfm. pose proof (extractHeight_at_marker _ _ _ _ Hfm) as E.
  pose proof (height_value_search area) as S.
  destruct (js_match area re_height_value) as [hm|].
  - destruct S as (Hd & a & b & Harea & Hshape).
    split; [rewrite E; split; [discriminate | contradiction]|]. split.
    + split; [|intros _; exact Hd]. intros _.
      exists (capture hm 1), a, b. now rewrite E.
    + intros rawData w Hc Ha. rewrite decodeAndCalculate_unfold.
      apply indexOf_absent_not in Hc. rewrite Hc. cbv zeta. rewrite Ha, E.
      split; [|contradiction].
      destruct (extractScale Math_pow text) as [s|k] eqn:Es; [discriminate|].
      intros [= ->]. apply extractScale_failure in Es as [Es|Es]; discriminate.
  - split; [rewrite E; split; [intros _; exact S | reflexivity]|]. split.
    + split; [contradiction|]. intros (tok & a & b & _ & _ & H). rewrite E in H. discriminate.
    + intros rawData w Hc Ha. rewrite decodeAndCalculate_unfold.
      apply indexOf_absent_not in Hc. rewrite Hc. cbv zeta. rewrite Ha, E.
      split; [intros _; exact S | reflexivity].
Qed.

End HeightValue.

(** ** The scale tiers *)

(** *** Tiers 1 and 2: the tokens *)

Definition exponent_mark (c : ascii) : Prop := c = "e"%char \/ c = "E"%char.

(** A mantissa, [e] or [E], and an exponent. *)
Definition scientific_token (tok : jsstring) : Prop :=
  exists mant ech expo,
    tok = mant ++ ech :: expo
    /\ number_token mant /\ exponent_mark ech /\ exponent_token expo.

Lemma scientific_matches (st st' : MState) :
  matches re_scientific st st' ->
  exists seps mant ech expo,
    consumes st (seps ++ mant ++ ech :: expo) st'
    /\ number_token mant /\ exponent_mark ech /\ exponent_token expo
    /\ caps st' = (2%nat, expo) :: (1%nat, mant) :: caps st.
Proof.
  unfold re_scientific. simpl seq. fold rx_number rx_exponent. intros H.
  apply inv_seq in H as (s1 & H1 & H). apply inv_seq in H as (s2 & H2 & H).
  apply inv_seq in H as (s3 & H3 & H4).
  apply inv_quant in H1 as (seps & C1 & K1 & _).
  apply inv_group in H2 as (s2' & mant & H2 & C2 & ->).
  apply number_matches in H2 as (mant' & C2' & Hmant & K2).
  rewrite <- (consumes_unique _ _ _ _ C2 C2') in Hmant.
  apply inv_char in H3 as (ech & Hech & C3 & K3). simpl in C3, K3.
  apply inv_group in H4 as (s4' & expo & H4 & C4 & ->).
  apply exponent_matches in H4 as (expo' & C4' & Hexpo & K4).
  rewrite <- (consumes_unique _ _ _ _ C4 C4') in Hexpo.
  exists seps, mant, ech, expo. split; [|split; [exact Hmant | split; [|split; [exact Hexpo|]]]].
  - apply consumes_app with s1; [exact C1|].
    apply consumes_app with (mkMState (pos s2') (rest s2') ((1%nat, mant) :: caps s2')); [exact C2|].
    change (ech :: expo) with ([ech] ++ expo).
    apply consumes_app with s3; [exact C3|]. exact C4.
  - unfold one_of in Hech. apply orb_true_iff in Hech.
    destruct Hech as [Hech|Hech]; apply Ascii.eqb_eq in Hech; [now left | now right].
  - simpl. rewrite K4, K3. simpl. now rewrite K2, K1.
Qed.

Lemma scientific_token_matches (tok t : jsstring) (p : nat) :
  scientific_token tok ->
  exists st', matches re_scientific (mkMState p (tok ++ t) []) st'.
Proof.
  intros (mant & ech & expo & -> & Hmant & Hech & Hexpo).
  unfold re_scientific. simpl seq. fold rx_number rx_exponent.
  rewrite <- app_assoc. simpl app.
  eexists. eapply m_seq.
  { apply (m_quant _ _ _ _ [] _ p []); [reflexivity | simpl; lia | exact I]. }
  simpl. eapply m_seq.
  { apply mk_group. apply number_token_matches. exact Hmant. }
  eapply m_seq.
  { apply m_char. unfold one_of. destruct Hech as [-> | ->]; reflexivity. }
  apply mk_group. apply exponent_token_matches. exact Hexpo.
Qed.

Lemma standard_float_matches (st st' : MState) :
  matches re_standard_float st st' ->
  exists seps tok,
    consumes st (seps ++ tok) st' /\ decimal_token tok
    /\ caps st' = (1%nat, tok) :: caps st.
Proof.
  unfold re_standard_float. simpl seq. fold rx_decimal. intros H.
  apply inv_seq in H as (s1 & H1 & H2).
  apply inv_quant in H1 as (seps & C1 & K1 & _).
  apply inv_group in H2 as (s2' & tok & H2 & C2 & ->).
  apply decimal_matches in H2 as (tok' & C2' & Htok & K2).
  rewrite <- (consumes_unique _ _ _ _ C2 C2') in Htok.
  exists seps, tok. split; [|split; [exact Htok|]].
  - apply consumes_app with s1; [exact C1 | exact C2].
  - simpl. now rewrite K2, K1.
Qed.

Lemma standard_float_token_matches (tok t : jsstring) (p : nat) :
  decimal_token tok ->
  exists st', matches re_standard_float (mkMState p (tok ++ t) []) st'.
Proof.
  intros Htok. unfold re_standard_float. simpl seq. fold rx_decimal.
  eexists. eapply m_seq.
  { apply (m_quant _ _ _ _ [] _ p []); [reflexivity | simpl; lia | exact I]. }
  simpl. apply mk_group. apply decimal_token_matches. exact Htok.
Qed.

(** [tok] occurs in [s]. *)
Definition occurs (shape : jsstring -> Prop) (s : jsstring) : Prop :=
  exists pre tok post, s = pre ++ tok ++ post /\ shape tok.

Lemma scientific_search (area : jsstring) :
  match js_match area re_scientific with
  | Some m =>
      exists pre post ech,
        area = pre ++ capture m 1 ++ ech :: capture m 2 ++ post
        /\ number_token (capture m 1) /\ exponent_mark ech /\ exponent_token (capture m 2)
  | None => ~ occurs scientific_token area
  end.
Proof.
  destruct (js_match area re_scientific) as [m|] eqn:E.
  - apply js_match_sound in E as (pre & post & st' & Hs & _ & Hg & Hm & Hr & _).
    apply scientific_matches in Hm as (seps & mant & ech & expo & [Ht _] & Hmant & Hech & Hexpo & Hc).
    simpl in Ht, Hc. rewrite Hr in Ht. apply app_inv_tail in Ht.
    assert (H1 : capture m 1 = mant) by (unfold capture; rewrite Hg, Hc; reflexivity).
    assert (H2 : capture m 2 = expo) by (unfold capture; rewrite Hg, Hc; reflexivity).
    rewrite H1, H2. exists (pre ++ seps), post, ech.
    split; [|auto]. rewrite Hs, Ht. repeat rewrite <- app_assoc. reflexivity.
  - intros (pre & tok & post & -> & Htok).
    destruct (scientific_token_matches tok post (List.length pre) Htok) as (st' & Hm).
    now apply (js_match_complete _ _ _ _ Hm).
Qed.

Lemma standard_float_search (area : jsstring) :
  match js_match area re_standard_float with
  | Some m =>
      exists pre post, area = pre ++ capture m 1 ++ post /\ decimal_token (capture m 1)
  | None => ~ occurs decimal_token area
  end.
Proof.
  destruct (js_match area re_standard_float) as [m|] eqn:E.
  - apply js_match_sound in E as (pre & post & st' & Hs & _ & Hg & Hm & Hr & _).
    apply standard_float_matches in Hm as (seps & tok & [Ht _] & Htok & Hc).
    simpl in Ht, Hc. rewrite Hr in Ht. apply app_inv_tail in Ht.
    assert (H1 : capture m 1 = tok) by (unfold capture; rewrite Hg, Hc; reflexivity).
    rewrite H1. exists (pre ++ seps), post.
    split; [|auto]. rewrite Hs, Ht. repeat rewrite <- app_assoc. reflexivity.
  - intros (pre & tok & post & -> & Htok).
    destruct (standard_float_token_matches tok post (List.length pre) Htok) as (st' & Hm).
    now apply (js_match_complete _ _ _ _ Hm).
Qed.

(** *** Tier 3: the matcher's priorities, followed step by step *)

Definition starts_with (cls : ascii -> bool) (s : jsstring) : bool :=
  match s with
  | c :: _ => cls c
  | [] => false
  end.

(** A greedy quantifier whose continuation accepts the longest repetition
    stops there. *)
Lemma quant_greedy_longest {R} cls (k : nat -> jsstring -> option R) (t : jsstring) (x : R) :
  forall w lo hi p,
    forallb cls w = true -> (lo <= List.length w)%nat -> within (List.length w) hi ->
    hi = Some (List.length w) \/ starts_with cls t = false ->
    k (p + List.length w)%nat t = Some x ->
    quant cls true lo hi (w ++ t) p k = Some x.
Proof.
  induction w as [|c w IH]; intros lo hi p Hw Hlo Hhi Hmax Hk; rewrite quant_eq.
  - simpl in *. rewrite Nat.add_0_r in Hk. assert (lo = 0%nat) by lia. subst lo.
    assert (Hmore : quant_more cls true 0 hi t p k = None).
    { unfold quant_more. destruct Hmax as [-> | Hmax]; [reflexivity|].
      destruct t as [|c t]; [now destruct hi as [[|h]|]|].
      simpl in Hmax. rewrite Hmax. now destruct hi as [[|h]|]. }
    rewrite Hmore. exact Hk.
  - simpl in Hw. apply andb_true_iff in Hw as [Hc Hw]. simpl in Hlo, Hhi, Hk.
    pose proof (within_pred _ _ Hhi) as [Hhi' Hhi0].
    simpl app. rewrite quant_more_cons by assumption.
    rewrite (IH (Nat.pred lo) (option_map Nat.pred hi) (S p));
      [reflexivity | exact Hw | lia | exact Hhi' | | now rewrite Nat.add_succ_comm].
    destruct Hmax as [-> | Hmax]; [left; reflexivity | now right].
Qed.

Lemma quant_needs_one {R} cls greedy (k : nat -> jsstring -> option R) hi s p lo :
  starts_with cls s = false -> quant cls greedy (S lo) hi s p k = None.
Proof.
  intros H. rewrite quant_eq.
  assert (Hmore : quant_more cls greedy (S lo) hi s p k = None).
  { unfold quant_more. destruct s as [|c t]; [now destruct hi as [[|h]|]|].
    simpl in H. rewrite H. now destruct hi as [[|h]|]. }
  rewrite Hmore. now destruct greedy.
Qed.

(** A lazy quantifier steps over a prefix on which its continuation fails. *)
Lemma quant_lazy_skip {R} cls (k : nat -> jsstring -> option R) (s : jsstring) :
  forall pre p,
    forallb cls pre = true ->
    (forall j, (j < List.length pre)%nat -> k (p + j)%nat (skipn j pre ++ s) = None) ->
    quant cls false 0 None (pre ++ s) p k = quant cls false 0 None s (p + List.length pre) k.
Proof.
  induction pre as [|c pre IH]; intros p Hpre Hk.
  - simpl. now rewrite Nat.add_0_r.
  - simpl in Hpre. apply andb_true_iff in Hpre as [Hc Hpre].
    rewrite quant_eq. unfold quant_stop.
    pose proof (Hk 0%nat) as H0. simpl in H0. rewrite Nat.add_0_r in H0.
    change ((c :: pre) ++ s) with (c :: (pre ++ s)).
    rewrite H0 by lia. unfold first_of.
    rewrite quant_more_cons by (discriminate || assumption).
    change (option_map Nat.pred None) with (@None nat). change (Nat.pred 0) with 0%nat.
    rewrite IH; [| exact Hpre |].
    + replace (S p + List.length pre)%nat with (p + List.length (c :: pre))%nat
        by (simpl; lia). reflexivity.
    + intros j Hj. specialize (Hk (S j)). simpl in Hk.
      replace (S p + j)%nat with (p + S j)%nat by lia. apply Hk. lia.
Qed.

Lemma quant_lazy_stuck {R} cls (k : nat -> jsstring -> option R) (s : jsstring) (p : nat) :
  k p s = None -> starts_with cls s = false -> quant cls false 0 None s p k = None.
Proof.
  intros Hk Hs. rewrite quant_eq. unfold quant_stop. rewrite Hk. simpl.
  unfold quant_more. destruct s as [|c t]; [reflexivity|]. simpl in Hs. now rewrite Hs.
Qed.

Lemma search_here (r : regex) (s : jsstring) (i : nat) (st' : MState) :
  run r (mkMState i s []) (fun st => Some st) = Some st' ->
  search r s i = Some (mkMatch (Z.of_nat i) (firstn (pos st' - i) s) (caps st')).
Proof. intros H. destruct s; simpl; now rewrite H. Qed.

Lemma search_nowhere (r : regex) (s : jsstring) (i : nat) :
  (forall j, (j <= List.length s)%nat -> attempt r s i j = None) -> search r s i = None.
Proof.
  intros H. pose proof (search_spec r s i) as S.
  destruct (search r s i) as [m|]; [|reflexivity].
  destruct S as (j & st' & Hj & Hrun & _). rewrite (H j Hj) in Hrun. discriminate.
Qed.

(** No digit and no line terminator. *)
Definition skippable (pre : jsstring) : Prop :=
  forallb (fun c => is_dot c && negb (is_digit c)) pre = true.

Lemma not_dot_not_digit (c : ascii) : is_dot c = false -> is_digit c = false.
Proof.
  unfold is_dot, is_digit. intros H. apply negb_false_iff, orb_true_iff in H.
  destruct H as [H|H]; apply Z.eqb_eq in H; rewrite H; reflexivity.
Qed.

Lemma skippable_forall (pre : jsstring) :
  skippable pre ->
  forallb is_dot pre = true
  /\ forall j s, (j < List.length pre)%nat -> starts_with is_digit (skipn j pre ++ s) = false.
Proof.
  unfold skippable. induction pre as [|c pre IH]; simpl; intros H.
  - split; [reflexivity | intros; lia].
  - apply andb_true_iff in H as [Hc H]. apply andb_true_iff in Hc as [Hdot Hdig].
    destruct (IH H) as [IH1 IH2]. rewrite Hdot, IH1. split; [reflexivity|].
    intros [|j] s Hj; simpl; [now apply negb_true_iff in Hdig | apply IH2; lia].
Qed.

(** The continuation of the lazy skip: capture 1 around one to ten digits. *)
Definition integer_tail (p : nat) (s : jsstring) : option MState :=
  run (Group 1 (Quant is_digit 1 (Some 10%nat) true)) (mkMState p s []) (fun st => Some st).

Lemma integer_tail_digits (ds post : jsstring) (p : nat) :
  digit_run ds -> (List.length ds <= 10)%nat ->
  List.length ds = 10%nat \/ starts_with is_digit post = false ->
  integer_tail p (ds ++ post) = Some (mkMState (p + List.length ds) post [(1%nat, ds)]).
Proof.
  intros Hds Hlen Hmax. unfold integer_tail. simpl.
  apply quant_greedy_longest.
  - apply Hds.
  - now apply digit_run_length.
  - exact Hlen.
  - destruct Hmax as [-> | H]; [now left | now right].
  - simpl. replace (p + List.length ds - p)%nat with (List.length ds + 0)%nat by lia.
    rewrite firstn_app_2. simpl. now rewrite app_nil_r.
Qed.

Lemma integer_tail_stuck (s : jsstring) (p : nat) :
  starts_with is_digit s = false -> integer_tail p s = None.
Proof. intros H. unfold integer_tail. simpl. now apply quant_needs_one. Qed.

Lemma integer_attempt (window : jsstring) :
  attempt re_integer window 0 0 = quant is_dot false 0 None window 0 integer_tail.
Proof. reflexivity. Qed.

Lemma integer_found (pre ds post : jsstring) :
  skippable pre -> digit_run ds -> (List.length ds <= 10)%nat ->
  List.length ds = 10%nat \/ starts_with is_digit post = false ->
  js_match (pre ++ ds ++ post) re_integer
  = Some (mkMatch 0 (pre ++ ds) [(1%nat, ds)]).
Proof.
  intros Hpre Hds Hlen Hmax. destruct (skippable_forall _ Hpre) as [Hdot Hnd].
  assert (Hrun : attempt re_integer (pre ++ ds ++ post) 0 0
                 = Some (mkMState (List.length pre + List.length ds) post [(1%nat, ds)])).
  { rewrite integer_attempt, quant_lazy_skip; [| exact Hdot |].
    - rewrite quant_eq. unfold quant_stop. simpl Nat.add.
      now rewrite integer_tail_digits.
    - intros j Hj. apply integer_tail_stuck. now apply Hnd. }
  change (attempt re_integer (pre ++ ds ++ post) 0 0)
    with (run re_integer (mkMState 0 (pre ++ ds ++ post) []) (fun st => Some st)) in Hrun.
  unfold js_match. rewrite (search_here _ _ _ _ Hrun). simpl.
  rewrite Nat.sub_0_r, app_assoc, <- length_app, <- (Nat.add_0_r (List.length (pre ++ ds))).
  rewrite firstn_app_2. simpl. now rewrite app_nil_r.
Qed.

Lemma integer_not_found (pre s : jsstring) :
  skippable pre -> starts_with is_dot s = false ->
  js_match (pre ++ s) re_integer = None.
Proof.
  intros Hpre Hs. destruct (skippable_forall _ Hpre) as [Hdot Hnd].
  assert (Hnodigit : starts_with is_digit s = false).
  { destruct s as [|c t]; [reflexivity|]. simpl in *. now apply not_dot_not_digit. }
  apply search_nowhere. intros [|j] Hj.
  - rewrite integer_attempt, quant_lazy_skip; [| exact Hdot |].
    + apply quant_lazy_stuck; [now apply integer_tail_stuck | exact Hs].
    + intros j Hj'. apply integer_tail_stuck. now apply Hnd.
  - reflexivity.
Qed.

(** The split at the first marker, computed by the search itself. *)
Lemma first_marker_by_search (key : string) (text : jsstring) (m : MatchResult) :
  js_match text (word_i key) = Some m ->
  first_marker key text (substring_to text (index m)) (matched m)
    (substring_from text (index m + jslength (matched m))).
Proof.
  intros E. pose proof (key_search key text) as K. rewrite E in K.
  destruct K as (pre & area & Hfm & Hi & ->).
  replace (substring_to text (index m)) with pre; [exact Hfm|].
  destruct Hfm as (-> & _). unfold substring_to. rewrite Hi. unfold jslength.
  rewrite Nat2Z.id, <- (Nat.add_0_r (List.length pre)), firstn_app_2. simpl.
  now rewrite app_nil_r.
Qed.

(** *** C3: the three tiers, in order *)

Lemma digit_prefix (n : nat) :
  forall s : jsstring,
    exists ds post,
      s = ds ++ post /\ all_digits ds /\ (List.length ds <= n)%nat
      /\ (List.length ds = n \/ starts_with is_digit post = false).
Proof.
  induction n as [|n IH]; intros s.
  - exists [], s. simpl. repeat split; auto.
  - destruct s as [|c s].
    + exists [], []. simpl. repeat split; [lia | now right].
    + destruct (is_digit c) eqn:Hc.
      * destruct (IH s) as (ds & post & -> & Hds & Hlen & Hmax).
        exists (c :: ds), post. unfold all_digits in *. simpl. rewrite Hc, Hds.
        repeat split; [lia | destruct Hmax as [<- | H]; [now left | now right]].
      * exists [], (c :: s). simpl. repeat split; [lia | now right].
Qed.

(** Every window either shows a first digit run behind skippable characters,
    or is blocked before any digit by its end or a line terminator. *)
Lemma window_cases (window : jsstring) :
  (exists skip ds post,
      window = skip ++ ds ++ post /\ skippable skip /\ digit_run ds
      /\ (List.length ds <= 10)%nat
      /\ (List.length ds = 10%nat \/ starts_with is_digit post = false))
  \/ (exists skip s, window = skip ++ s /\ skippable skip /\ starts_with is_dot s = false).
Proof.
  induction window as [|c w IH].
  - right. exists [], []. now repeat split.
  - destruct (is_digit c) eqn:Hc.
    + left. destruct (digit_prefix 9 w) as (ds & post & -> & Hds & Hlen & Hmax).
      exists [], (c :: ds), post. unfold all_digits in Hds. simpl.
      repeat split; [discriminate | unfold all_digits; simpl; now rewrite Hc, Hds | lia |].
      destruct Hmax as [-> | H]; [now left | now right].
    + destruct (is_dot c) eqn:Hd.
      * assert (Hskip : forall skip, skippable skip -> skippable (c :: skip)).
        { intros skip H. unfold skippable in *. simpl. now rewrite Hd, Hc, H. }
        destruct IH as [(skip & ds & post & -> & H1 & H2) | (skip & s & -> & H1 & H2)].
        -- left. exists (c :: skip), ds, post. auto.
        -- right. exists (c :: skip), s. auto.
      * right. exists [], (c :: w). simpl. now repeat split.
Qed.

Section ScaleTiers.

Variable Math_pow : float -> float -> float.

Lemma extractScale_at_marker (text pre mk area : jsstring) :
  first_marker "scale" text pre mk area ->
  extractScale Math_pow text = scaleTiers Math_pow area.
Proof.
  intros Hfm. unfold extractScale. pose proof (key_search "scale" text) as K.
  change (word_i "scale") with re_scale_key in K.
  destruct (js_match text re_scale_key) as [m|].
  - destruct K as (pre' & area' & Hfm' & _ & ->).
    destruct (first_marker_unique _ _ _ _ _ _ _ _ Hfm Hfm') as (_ & _ & ->). reflexivity.
  - destruct Hfm as (E & S & _). exfalso. exact (K _ _ _ E S).
Qed.

(** C3 (amended): with [area] the text after the first scale marker, the
    scale is read by the first tier that applies.  (1) If a scientific token
    occurs anywhere in [area], the scale is mantissa times [Math.pow(10,
    exponent)] of such a token, whatever else [area] holds.  (2) Otherwise,
    if a decimal token (digits optional, a point, digits) occurs, the scale
    is [parseFloat] of such a token.  (3) Otherwise the first 30 characters
    are searched: when only characters that are neither digits nor line
    terminators precede the first digit, the scale is the integer read from
    the first one to ten digits, divided by 1000000000.0; when the window
    ends, or a line terminator comes, before any digit, the stage fails and
    the pipeline returns the scale-value-not-found failure.  The two cases
    of (3) cover every window. *)
Theorem scale_tiers_in_order (text pre mk area : jsstring) :
  first_marker "scale" text pre mk area ->
  extractScale Math_pow text = scaleTiers Math_pow area
  /\ (occurs scientific_token area ->
        exists mant ech expo,
          occurs (eq (mant ++ ech :: expo)) area
          /\ number_token mant /\ exponent_mark ech /\ exponent_token expo
          /\ extractScale Math_pow text
             = inl (parseFloat mant * Math_pow 10 (parseInt expo))%float)
  /\ (~ occurs scientific_token area -> occurs decimal_token area ->
        exists tok,
          occurs (eq tok) area /\ decimal_token tok /\ In "."%char tok
          /\ extractScale Math_pow text = inl (parseFloat tok))
  /\ (~ occurs scientific_token area -> ~ occurs decimal_token area ->
        forall skip ds post,
          substring_to area 30 = skip ++ ds ++ post ->
          skippable skip -> digit_run ds -> (List.length ds <= 10)%nat ->
          List.length ds = 10%nat \/ starts_with is_digit post = false ->
          extractScale Math_pow text = inl (parseInt ds / 1000000000.0)%float)
  /\ (~ occurs scientific_token area -> ~ occurs decimal_token area ->
        forall skip s,
          substring_to area 30 = skip ++ s ->
          skippable skip -> starts_with is_dot s = false ->
          extractScale Math_pow text = inr ScaleValueNotFound
          /\ forall rawData w height,
               contains startMarker rawData ->
               atob (candidateBlock rawData) = Some text ->
               extractHeight text = inl height ->
               fst (decodeAndCalculate Math_pow rawData w) = Failure ScaleValueNotFound)
  /\ ((exists skip ds post,
         substring_to area 30 = skip ++ ds ++ post /\ skippable skip /\ digit_run ds
         /\ (List.length ds <= 10)%nat
         /\ (List.length ds = 10%nat \/ starts_with is_digit post = false))
      \/ (exists skip s,
            substring_to area 30 = skip ++ s /\ skippable skip
            /\ starts_with is_dot s = false)).
Proof.
  assert (Hcases := window_cases (substring_to area 30)).
  intros Hfm. pose proof (extractScale_at_marker _ _ _ _ Hfm) as E. rewrite E.
  split; [reflexivity|].
  unfold scaleTiers.
  pose proof (scientific_search area) as S1. pose proof (standard_float_search area) as S2.
  destruct (js_match area re_scientific) as [m1|] eqn:E1.
  { destruct S1 as (p1 & q1 & ech & Harea & Hmant & Hech & Hexpo).
    assert (Hocc : occurs scientific_token area).
    { exists p1, (capture m1 1 ++ ech :: capture m1 2), q1. split.
      - rewrite Harea. repeat rewrite <- app_assoc. reflexivity.
      - now exists (capture m1 1), ech, (capture m1 2). }
    split; [|repeat split; try exact Hcases; intros; contradiction].
    intros _. exists (capture m1 1), ech, (capture m1 2).
    split; [|auto]. exists p1, (capture m1 1 ++ ech :: capture m1 2), q1.
    split; [|reflexivity]. rewrite Harea. repeat rewrite <- app_assoc. reflexivity. }
  split; [intros H; contradiction|].
  destruct (js_match area re_standard_float) as [m2|] eqn:E2.
  { destruct S2 as (p2 & q2 & Harea & Htok).
    assert (Hocc : occurs decimal_token area) by (now exists p2, (capture m2 1), q2).
    split; [|repeat split; try exact Hcases; intros; contradiction].
    intros _ _. exists (capture m2 1).
    split; [now exists p2, (capture m2 1), q2|]. split; [exact Htok|]. split; [|reflexivity].
    destruct Htok as (sgn & ip & fp & -> & _). apply in_or_app. right. apply in_or_app. right. now left. }
  split; [intros _ H; contradiction|].
  split; [|split; [|exact Hcases]].
  - intros _ _ skip ds post Hw Hskip Hds Hlen Hmax. rewrite Hw.
    rewrite (integer_found skip ds post Hskip Hds Hlen Hmax). reflexivity.
  - intros _ _ skip s Hw Hskip Hs. rewrite Hw.
    assert (Hfail : match js_match (skip ++ s) re_integer with
                    | Some integerMatch =>
                        inl (parseInt (capture integerMatch 1) / 1000000000.0)%float
                    | None => inr ScaleValueNotFound
                    end = (inr ScaleValueNotFound : float + ErrorKind))
      by (now rewrite (integer_not_found skip s Hskip Hs)).
    split; [exact Hfail|].
    intros rawData w height Hc Ha Hh. rewrite decodeAndCalculate_unfold.
    rewrite (indexOf_absent_not _ _ Hc). cbv zeta. rewrite Ha, Hh, E.
    unfold scaleTiers. rewrite E1, E2, Hw, Hfail. reflexivity.
Qed.

End ScaleTiers.

(** ** Concrete inputs *)

(** Text with ['] standing for the double quote. *)
Definition quoted (s : string) : jsstring :=
  flat_map (fun c => if Ascii.eqb c "'" then [dquote] else [c]) (lit s).

Definition LF : ascii := chr 10.

Definition world0 : World := mkWorld 1700000000000 [].

Lemma scientific_found_occurs (area : jsstring) (m : MatchResult) :
  js_match area re_scientific = Some m -> occurs scientific_token area.
Proof.
  intros E. pose proof (scientific_search area) as S. rewrite E in S.
  destruct S as (pre & post & ech & Harea & Hmant & Hech & Hexpo).
  exists pre, (capture m 1 ++ ech :: capture m 2), post. split.
  - rewrite Harea. repeat rewrite <- app_assoc. reflexivity.
  - now exists (capture m 1), ech, (capture m 2).
Qed.

Lemma scientific_absent (area : jsstring) :
  js_match area re_scientific = None -> ~ occurs scientific_token area.
Proof. intros E. pose proof (scientific_search area) as S. now rewrite E in S. Qed.

Lemma decimal_found_occurs (area : jsstring) (m : MatchResult) :
  js_match area re_standard_float = Some m -> occurs decimal_token area.
Proof.
  intros E. pose proof (standard_float_search area) as S. rewrite E in S.
  destruct S as (pre & post & Harea & Htok). now exists pre, (capture m 1), post.
Qed.

Lemma decimal_absent (area : jsstring) :
  js_match area re_standard_float = None -> ~ occurs decimal_token area.
Proof. intros E. pose proof (standard_float_search area) as S. now rewrite E in S. Qed.

Lemma no_digit_by_search (s : jsstring) :
  js_match s re_height_value = None -> ~ has_digit s.
Proof. intros E. pose proof (height_value_search s) as S. now rewrite E in S. Qed.

(** *** C10 *)

Example height_bare_integer :
  extractHeight (lit "Height = 12 units") = inl 12%float.
Proof. vm_compute. reflexivity. Qed.

Example height_fraction_only :
  extractHeight (lit "height:.5") = inl 0.5%float.
Proof. vm_compute. reflexivity. Qed.

Example height_no_digit :
  extractHeight (lit "height: tall") = inr HeightValueNotFound.
Proof. vm_compute. reflexivity. Qed.

Lemma height_marker_example :
  first_marker "eigh" (lit "The HEIGHT is .5") (lit "The H") (lit "EIGH") (lit "T is .5").
Proof. exact (first_marker_by_search "eigh" (lit "The HEIGHT is .5") _ eq_refl). Qed.

Lemma height_found_iff_digit_witness :
  first_marker "eigh" (lit "The HEIGHT is .5") (lit "The H") (lit "EIGH") (lit "T is .5")
  /\ has_digit (lit "T is .5")
  /\ exists tok a b,
       lit "T is .5" = a ++ tok ++ b
       /\ (decimal_token tok \/ number_token tok)
       /\ extractHeight (lit "The HEIGHT is .5") = inl (parseFloat tok).
Proof.
  split; [exact height_marker_example|].
  assert (Hd : has_digit (lit "T is .5")).
  { exists "5"%char. split; [|reflexivity]. simpl. tauto. }
  split; [exact Hd|].
  exact (proj1 (proj1 (proj2 (height_found_iff_digit Math_pow_ref _ _ _ _ height_marker_example))) Hd).
Defined.

(** *** C3 *)

(** The first tier wins over a decimal that comes earlier in the text. *)
Example scientific_after_decimal :
  extractScale Math_pow_ref (quoted "'scale': 0.25 or 1.5e-1")
  = inl (1.5 * Math_pow_ref 10 (-1))%float.
Proof. vm_compute. reflexivity. Qed.

Example plain_decimal_tier :
  extractScale Math_pow_ref (quoted "'scale':0.25,") = inl 0.25%float.
Proof. vm_compute. reflexivity. Qed.

(** The test of the specification: [scale = 0.123456789]. *)
Example bare_integer_tier :
  extractScale Math_pow_ref (quoted "'scale':123456789") = inl 0.123456789%float.
Proof. vm_compute. reflexivity. Qed.

Example bare_integer_ten_digits :
  extractScale Math_pow_ref (quoted "'scale':123456789012") = inl 1.234567890%float.
Proof. vm_compute. reflexivity. Qed.

Example bare_integer_outside_window :
  extractScale Math_pow_ref (lit "scale of the thing, counted from here on: 7")
  = inr ScaleValueNotFound.
Proof. vm_compute. reflexivity. Qed.

Definition scale_text : jsstring := quoted "'scale': 0.25 or 1.5e-1".

Definition scale_area : jsstring := quoted "': 0.25 or 1.5e-1".

Lemma scale_marker_example :
  first_marker "scale" scale_text [dquote] (lit "scale") scale_area.
Proof. exact (first_marker_by_search "scale" scale_text _ eq_refl). Qed.

Lemma scale_tiers_in_order_witness :
  first_marker "scale" scale_text [dquote] (lit "scale") scale_area
  /\ occurs decimal_token scale_area
  /\ occurs scientific_token scale_area
  /\ exists mant ech expo,
       occurs (eq (mant ++ ech :: expo)) scale_area
       /\ number_token mant /\ exponent_mark ech /\ exponent_token expo
       /\ extractScale Math_pow_ref scale_text
          = inl (parseFloat mant * Math_pow_ref 10 (parseInt expo))%float.
Proof.
  assert (Hsci : occurs scientific_token scale_area).
  { refine (scientific_found_occurs scale_area _ _). vm_compute. reflexivity. }
  split; [exact scale_marker_example|].
  split; [refine (decimal_found_occurs scale_area _ _); vm_compute; reflexivity|].
  split; [exact Hsci|].
  exact (proj1 (proj2 (scale_tiers_in_order Math_pow_ref _ _ _ _ scale_marker_example)) Hsci).
Defined.

(** The payload [btoa("body" height 1 scale<LF>5)]: the digit is the second
    character after the marker, behind a line feed. *)
Definition line_feed_payload : jsstring :=
  btoa (quoted "'body' height 1 scale" ++ [LF; "5"%char]).

(** C3 as stated fails: the window after the marker holds a run of one
    digit behind a single non-digit character, no other tier applies, and
    yet the stage and the pipeline fail with scale-value-not-found, because
    the non-digit character is a line feed. *)
Lemma integer_tier_blocked_by_line_feed :
  substring_to [LF; "5"%char] 30 = [LF] ++ lit "5" ++ []
  /\ ~ has_digit [LF]
  /\ digit_run (lit "5")
  /\ ~ occurs scientific_token [LF; "5"%char]
  /\ ~ occurs decimal_token [LF; "5"%char]
  /\ scaleTiers Math_pow_ref [LF; "5"%char] = inr ScaleValueNotFound
  /\ atob line_feed_payload = Some (quoted "'body' height 1 scale" ++ [LF; "5"%char])
  /\ fst (decodeAndCalculate Math_pow_ref line_feed_payload world0)
     = Failure ScaleValueNotFound.
Proof.
  split; [reflexivity|].
  split; [apply no_digit_by_search; reflexivity|].
  split; [split; [discriminate | reflexivity]|].
  split; [apply scientific_absent; reflexivity|].
  split; [apply decimal_absent; reflexivity|].
  split; [reflexivity|].
  split; vm_compute; reflexivity.
Qed.

(** *** C5

    The sample payload and what the claim as stated gets wrong on it; the
    amended claim is [sample_fields_result], with the well-formed payloads
    below. *)

Definition sample_plaintext : jsstring :=
  quoted "'body':{'height: 0.1234','scale':1.5e-1}".

Definition sample_payload : jsstring := btoa sample_plaintext.

Local Open Scope float_scope.

(** C5 as stated fails: on this payload the result is more than 0.1 away
    from 6.0868, and the extracted scale is not the double 0.15. *)
Lemma sample_payload_not_6_0868 :
  exists r,
    fst (decodeAndCalculate Math_pow_ref sample_payload world0) = Success r
    /\ (0.1 <? abs (current r - 6.0868)) = true
    /\ (scale r =? 0.15) = false
    /\ (abs (current r - 5.9848) <? 0.000000000000001) = true.
Proof. eexists. split; [vm_compute; reflexivity|]. repeat split; vm_compute; reflexivity. Qed.

Local Close Scope float_scope.

(** * Binary64 arithmetic, from the specification of the primitive floats *)

(** ** Bit lengths *)

Lemma digits2_pos_log2 (m : positive) :
  Z.pos (digits2_pos m) = Z.log2 (Z.pos m) + 1.
Proof.
  induction m as [m IH | m IH |]; simpl digits2_pos.
  - rewrite Pos2Z.inj_succ, IH. 
    change (Z.pos m~1) with (2 * Z.pos m + 1). rewrite Z.log2_succ_double by lia. lia.
  - rewrite Pos2Z.inj_succ, IH.
    change (Z.pos m~0) with (2 * Z.pos m). rewrite Z.log2_double by lia. lia.
  - reflexivity.
Qed.

(** The bit length of a positive integer. *)
Definition bits (x : Z) : Z := Z.log2 x + 1.

Lemma bits_spec (x : Z) : 0 < x -> 2 ^ (bits x - 1) <= x < 2 ^ bits x.
Proof.
  intros H. unfold bits. replace (Z.log2 x + 1 - 1) with (Z.log2 x) by lia.
  replace (Z.log2 x + 1) with (Z.succ (Z.log2 x)) by lia. now apply Z.log2_spec.
Qed.

Lemma bits_pos (x : Z) : 0 < x -> 0 < bits x.
Proof. intros H. unfold bits. pose proof (Z.log2_nonneg x). lia. Qed.

Lemma bits_unique (x d : Z) : 0 < d -> 2 ^ (d - 1) <= x < 2 ^ d -> bits x = d.
Proof.
  intros Hd H. unfold bits. rewrite (Z.log2_unique x (d - 1)); [lia | lia |].
  replace (Z.succ (d - 1)) with d by lia. exact H.
Qed.

Lemma bits_mul_pow2 (x k : Z) : 0 < x -> 0 <= k -> bits (x * 2 ^ k) = bits x + k.
Proof.
  intros Hx Hk. unfold bits. rewrite Z.log2_mul_pow2 by lia. lia.
Qed.

Lemma bits_le (x y : Z) : 0 < x -> x <= y -> bits x <= bits y.
Proof. intros Hx H. unfold bits. pose proof (Z.log2_le_mono x y H). lia. Qed.

(** ** Shifting right with a rounding and a sticky bit *)

Lemma iter_pos_nat {A} (f : A -> A) (p : positive) (x : A) :
  iter_pos f p x = Nat.iter (Pos.to_nat p) f x.
Proof.
  revert x. induction p as [p IH | p IH |]; intros x; simpl iter_pos.
  - rewrite !IH, Pos2Nat.inj_xI, Nat.iter_succ_r.
    replace (2 * Pos.to_nat p)%nat with (Pos.to_nat p + Pos.to_nat p)%nat by lia.
    now rewrite Nat.iter_add.
  - rewrite !IH, Pos2Nat.inj_xO.
    replace (2 * Pos.to_nat p)%nat with (Pos.to_nat p + Pos.to_nat p)%nat by lia.
    now rewrite Nat.iter_add.
  - reflexivity.
Qed.

Lemma shr_1_spec (m : Z) (r s : bool) :
  0 <= m ->
  shr_1 (Build_shr_record m r s) = Build_shr_record (m / 2) (Z.odd m) (r || s).
Proof.
  intros H. destruct m as [|p|p]; [reflexivity | | lia].
  destruct p as [p|p|]; simpl shr_1.
  - f_equal. apply Z.div_unique with 1; lia.
  - f_equal. apply Z.div_unique with 0; lia.
  - reflexivity.
Qed.

(** After [k] steps: the quotient, the last bit shifted out, and whether any
    bit before it was set. *)
Lemma shr_iter (m : Z) (k : nat) :
  0 <= m ->
  Nat.iter (S k) shr_1 (Build_shr_record m false false)
  = Build_shr_record (m / 2 ^ Z.of_nat (S k))
      (Z.odd (m / 2 ^ Z.of_nat k))
      (negb (m mod 2 ^ Z.of_nat k =? 0)).
Proof.
  intros Hm. induction k as [|k IH].
  - change (Nat.iter 1 shr_1 (Build_shr_record m false false))
      with (shr_1 (Build_shr_record m false false)).
    rewrite shr_1_spec by exact Hm.
    change (2 ^ Z.of_nat 1) with 2. change (2 ^ Z.of_nat 0) with 1.
    now rewrite Z.div_1_r, Z.mod_1_r.
  - rewrite Nat.iter_succ, IH. rewrite shr_1_spec by (apply Z.div_pos; lia).
    assert (Hp : 0 < 2 ^ Z.of_nat k) by (apply Z.pow_pos_nonneg; lia).
    assert (E1 : 2 ^ Z.of_nat (S k) = 2 ^ Z.of_nat k * 2)
      by (rewrite Nat2Z.inj_succ, Z.pow_succ_r; lia).
    assert (E2 : 2 ^ Z.of_nat (S (S k)) = 2 ^ Z.of_nat (S k) * 2)
      by (rewrite (Nat2Z.inj_succ (S k)), Z.pow_succ_r; lia).
    f_equal.
    + rewrite E2, Z.div_div by lia. reflexivity.
    + rewrite E1.
      pose proof (Z.mod_pos_bound m (2 ^ Z.of_nat k) Hp) as B.
      pose proof (Z.div_mod m (2 ^ Z.of_nat k) ltac:(lia)) as D.
      pose proof (Z.div_mod (m / 2 ^ Z.of_nat k) 2 ltac:(lia)) as D2.
      pose proof (Zmod_odd (m / 2 ^ Z.of_nat k)) as O.
      assert (Hmod : m mod (2 ^ Z.of_nat k * 2)
                     = (m / 2 ^ Z.of_nat k) mod 2 * 2 ^ Z.of_nat k + m mod 2 ^ Z.of_nat k).
      { symmetry. apply Z.mod_unique with (m / 2 ^ Z.of_nat k / 2);
          [destruct (Z.odd (m / 2 ^ Z.of_nat k)); nia | nia]. }
      rewrite Hmod.
      destruct (Z.odd (m / 2 ^ Z.of_nat k)); rewrite O;
        destruct (Z.eqb_spec (m mod 2 ^ Z.of_nat k) 0) as [E0|E0]; cbn [orb negb];
        symmetry.
      * apply negb_true_iff, Z.eqb_neq. lia.
      * apply negb_true_iff, Z.eqb_neq. lia.
      * apply negb_false_iff, Z.eqb_eq. lia.
      * apply negb_true_iff, Z.eqb_neq. lia.
Qed.

(** ** Rounding to the nearest integer, ties to even *)

(** [x / 2^n] rounded to the nearest integer, ties to even. *)
Definition rne (x n : Z) : Z :=
  let q := x / 2 ^ n in
  match 2 * (x mod 2 ^ n) ?= 2 ^ n with
  | Lt => q
  | Eq => if Z.even q then q else q + 1
  | Gt => q + 1
  end.

Lemma rne_bracket (x n : Z) :
  0 <= n -> rne x n = x / 2 ^ n \/ rne x n = x / 2 ^ n + 1.
Proof.
  intros _. unfold rne. destruct (_ ?= _); [destruct (Z.even _) | |]; auto.
Qed.

Lemma rne_error (x n : Z) :
  0 <= n -> 2 * Z.abs (rne x n * 2 ^ n - x) <= 2 ^ n.
Proof.
  intros Hn. unfold rne.
  assert (Hp : 0 < 2 ^ n) by (apply Z.pow_pos_nonneg; lia).
  pose proof (Z.div_mod x (2 ^ n) ltac:(lia)) as D.
  pose proof (Z.mod_pos_bound x (2 ^ n) Hp) as B.
  destruct (Z.compare_spec (2 * (x mod 2 ^ n)) (2 ^ n)) as [E|E|E];
    [destruct (Z.even _) | |]; nia.
Qed.

Lemma rne_exact (x n : Z) : 0 <= n -> x mod 2 ^ n = 0 -> rne x n * 2 ^ n = x.
Proof.
  intros Hn H. unfold rne. rewrite H.
  assert (Hp : 0 < 2 ^ n) by (apply Z.pow_pos_nonneg; lia).
  pose proof (Z.div_mod x (2 ^ n) ltac:(lia)) as D.
  destruct (Z.compare_spec (2 * 0) (2 ^ n)) as [E|E|E]; nia.
Qed.

Lemma rne_mono (x y n : Z) : 0 <= n -> x <= y -> rne x n <= rne y n.
Proof.
  intros Hn Hxy.
  assert (Hp : 0 < 2 ^ n) by (apply Z.pow_pos_nonneg; lia).
  pose proof (Z.div_mod x (2 ^ n) ltac:(lia)) as Dx.
  pose proof (Z.mod_pos_bound x (2 ^ n) Hp) as Bx.
  pose proof (Z.div_mod y (2 ^ n) ltac:(lia)) as Dy.
  pose proof (Z.mod_pos_bound y (2 ^ n) Hp) as By.
  assert (Hq : x / 2 ^ n <= y / 2 ^ n) by (apply Z.div_le_mono; lia).
  destruct (Z.eq_dec (x / 2 ^ n) (y / 2 ^ n)) as [Eq|Ne].
  - unfold rne. rewrite <- Eq.
    assert (Hr : x mod 2 ^ n <= y mod 2 ^ n) by nia.
    destruct (Z.compare_spec (2 * (x mod 2 ^ n)) (2 ^ n)) as [E|E|E];
      destruct (Z.compare_spec (2 * (y mod 2 ^ n)) (2 ^ n)) as [E'|E'|E'];
      try destruct (Z.even (x / 2 ^ n)); lia.
  - destruct (rne_bracket x n Hn) as [-> | ->], (rne_bracket y n Hn) as [-> | ->]; lia.
Qed.

Lemma rne_scale (x n j : Z) : 0 <= n -> 0 <= j -> rne (x * 2 ^ j) (n + j) = rne x n.
Proof.
  intros Hn Hj. unfold rne.
  assert (Hpn : 0 < 2 ^ n) by (apply Z.pow_pos_nonneg; lia).
  assert (Hpj : 0 < 2 ^ j) by (apply Z.pow_pos_nonneg; lia).
  rewrite Z.pow_add_r by lia.
  rewrite Z.div_mul_cancel_r by lia.
  rewrite Zmult_mod_distr_r.
  replace (2 * (x mod 2 ^ n * 2 ^ j)) with (2 * (x mod 2 ^ n) * 2 ^ j) by ring.
  rewrite <- Zmult_compare_compat_r by lia. reflexivity.
Qed.

Lemma shr_rne (m e n : Z) :
  0 <= m -> 0 < n ->
  round_nearest_even
    (shr_m (fst (shr (Build_shr_record m false false) e n)))
    (loc_of_shr_record (fst (shr (Build_shr_record m false false) e n)))
  = rne m n
  /\ shr_m (fst (shr (Build_shr_record m false false) e n)) = m / 2 ^ n
  /\ snd (shr (Build_shr_record m false false) e n) = e + n.
Proof.
  intros Hm Hn. destruct n as [|p|p]; try lia. unfold shr. cbn [fst snd].
  rewrite iter_pos_nat.
  destruct (Pos2Nat.is_succ p) as (k & Hk). rewrite Hk, shr_iter by exact Hm.
  assert (Hp : Z.pos p = Z.of_nat (S k)) by lia.
  rewrite Hp. cbn [shr_m]. split; [|split; reflexivity].
  set (N := 2 ^ Z.of_nat k).
  assert (HN : 0 < N) by (apply Z.pow_pos_nonneg; lia).
  assert (E1 : 2 ^ Z.of_nat (S k) = N * 2)
    by (unfold N; rewrite Nat2Z.inj_succ, Z.pow_succ_r; lia).
  unfold rne. rewrite E1.
  pose proof (Z.mod_pos_bound m N HN) as B.
  pose proof (Z.div_mod m N ltac:(lia)) as D.
  pose proof (Z.div_mod (m / N) 2 ltac:(lia)) as D2.
  pose proof (Zmod_odd (m / N)) as O.
  assert (Hmod : m mod (N * 2) = (m / N) mod 2 * N + m mod N).
  { symmetry. apply Z.mod_unique with (m / N / 2);
      [destruct (Z.odd (m / N)); nia | nia]. }
  rewrite Hmod, O.
  destruct (Z.odd (m / N));
    destruct (Z.eqb_spec (m mod N) 0) as [E0|E0]; cbn [negb loc_of_shr_record round_nearest_even].
  - replace (2 * (1 * N + m mod N) ?= N * 2) with Eq by (symmetry; apply Z.compare_eq_iff; lia).
    reflexivity.
  - replace (2 * (1 * N + m mod N) ?= N * 2) with Gt by (symmetry; apply Z.compare_gt_iff; lia).
    reflexivity.
  - replace (2 * (0 * N + m mod N) ?= N * 2) with Lt by (symmetry; apply Z.compare_lt_iff; lia).
    reflexivity.
  - replace (2 * (0 * N + m mod N) ?= N * 2) with Lt by (symmetry; apply Z.compare_lt_iff; lia).
    reflexivity.
Qed.

(** ** Rounding scaled values to the binary64 grid

    Exact values are integers in units of [2^-fbits], fine enough for
    every binary64 number and every product of two.  [RNp x] is the
    nearest binary64 value to [x > 0], in the same units, without the
    overflow threshold [Omega]. *)

Definition fbits : Z := 2200.

Definition fexp64 (d : Z) : Z := Z.max (d - 53) (-1074).

Definition gexp (x : Z) : Z := Z.max (bits x - 53) (fbits - 1074).

Definition RNp (x : Z) : Z := rne x (gexp x) * 2 ^ gexp x.

Definition Omega : Z := 2 ^ (1024 + fbits).

Lemma fexp_eq (d : Z) : fexp prec emax d = fexp64 d.
Proof. reflexivity. Qed.

Lemma fbits_eq : fbits = 2200.
Proof. reflexivity. Qed.

Global Opaque fbits.

Lemma pow2_pos (k : Z) : 0 <= k -> 0 < 2 ^ k.
Proof. intros H. apply Z.pow_pos_nonneg; lia. Qed.

Lemma pow2_split (a b : Z) : 0 <= a -> 0 <= b -> 2 ^ (a + b) = 2 ^ a * 2 ^ b.
Proof. intros. apply Z.pow_add_r; lia. Qed.

Lemma pow2_le (a b : Z) : 0 <= a <= b -> 2 ^ a <= 2 ^ b.
Proof. intros H. apply Z.pow_le_mono_r; lia. Qed.

Lemma pow2_lt (a b : Z) : 0 <= a < b -> 2 ^ a < 2 ^ b.
Proof. intros H. apply Z.pow_lt_mono_r; lia. Qed.

Lemma gexp_nonneg (x : Z) : 0 <= gexp x.
Proof. unfold gexp. pose proof fbits_eq. lia. Qed.

Lemma RNp_scaled (M ex : Z) :
  0 < M -> 0 <= ex + fbits ->
  gexp (M * 2 ^ (ex + fbits)) = fexp64 (bits M + ex) + fbits
  /\ (ex <= fexp64 (bits M + ex) ->
      RNp (M * 2 ^ (ex + fbits))
      = rne M (fexp64 (bits M + ex) - ex) * 2 ^ (fexp64 (bits M + ex) + fbits))
  /\ (fexp64 (bits M + ex) <= ex ->
      RNp (M * 2 ^ (ex + fbits)) = M * 2 ^ (ex + fbits)).
Proof.
  intros HM He. pose proof fbits_eq as Hs.
  assert (Hg : gexp (M * 2 ^ (ex + fbits)) = fexp64 (bits M + ex) + fbits).
  { unfold gexp, fexp64. rewrite bits_mul_pow2 by lia. lia. }
  split; [exact Hg|]. unfold RNp. rewrite Hg.
  set (E := fexp64 (bits M + ex)).
  assert (HE : -1074 <= E) by (unfold E, fexp64; lia).
  split; intros H.
  - replace (E + fbits) with ((E - ex) + (ex + fbits)) at 1 by lia.
    rewrite rne_scale by lia. reflexivity.
  - apply rne_exact; [lia|].
    replace (ex + fbits) with ((ex - E) + (E + fbits)) by lia.
    rewrite pow2_split by lia. rewrite Z.mul_assoc. apply Z.mod_mul.
    pose proof (pow2_pos (E + fbits)). lia.
Qed.

Lemma shr_none (mrs : shr_record) (e n : Z) : n <= 0 -> shr mrs e n = (mrs, e).
Proof. intros H. destruct n; try lia; reflexivity. Qed.

Lemma Zdigits2_bits (m : Z) : 0 < m -> Zdigits2 m = bits m.
Proof. intros H. destruct m as [|p|p]; try lia. simpl. apply digits2_pos_log2. Qed.

Lemma round_aux_spec (sx : bool) (M : positive) (ex : Z) :
  - fbits <= ex -> ex <= fexp64 (bits (Z.pos M) + ex) ->
  match binary_round_aux prec emax sx (Z.pos M) ex loc_Exact with
  | S754_zero s => s = sx /\ RNp (Z.pos M * 2 ^ (ex + fbits)) = 0
  | S754_finite s m e =>
      s = sx /\ Z.pos m * 2 ^ (e + fbits) = RNp (Z.pos M * 2 ^ (ex + fbits))
      /\ -1074 <= e <= 971 /\ Z.pos m < 2 ^ 53
  | S754_infinity s => s = sx /\ Omega <= RNp (Z.pos M * 2 ^ (ex + fbits))
  | S754_nan => False
  end.
Proof.
  intros Hex Hn1. pose proof fbits_eq as Hs.
  destruct (RNp_scaled (Z.pos M) ex ltac:(lia) ltac:(lia)) as (Hg & HR1 & HR2).
  unfold binary_round_aux, shr_fexp. rewrite !fexp_eq.
  rewrite Zdigits2_bits by lia.
  set (d := bits (Z.pos M)) in *. set (E := fexp64 (d + ex)) in *.
  pose proof (bits_spec (Z.pos M) ltac:(lia)) as Hd. fold d in Hd.
  pose proof (bits_pos (Z.pos M) ltac:(lia)) as Hd0. fold d in Hd0.
  assert (HE : -1074 <= E /\ d + ex - 53 <= E) by (unfold E, fexp64; lia).
  cbn [shr_record_of_loc].
  destruct (Z.eq_dec E ex) as [Eeq|Ene].
  - (* already on the grid *)
    rewrite (shr_none _ ex (E - ex)) by lia.
    cbn [shr_m loc_of_shr_record round_nearest_even].
    rewrite Zdigits2_bits by lia. fold d. fold E. cbn [shr_record_of_loc].
    rewrite (shr_none _ ex (E - ex)) by lia. cbn [shr_m].
    change (emax - prec) with 971. rewrite (HR2 ltac:(lia)).
    destruct (Z.leb_spec ex 971) as [Hle|Hgt].
    + split; [reflexivity|]. split; [reflexivity|]. split; [lia|].
      pose proof (pow2_le d 53 ltac:(unfold E, fexp64 in Eeq; lia)). lia.
    + split; [reflexivity|].
      assert (d = 53) by (unfold E, fexp64 in Eeq; lia).
      assert (H52 : 2 ^ 52 <= Z.pos M) by (replace 52 with (d - 1) by lia; apply Hd).
      unfold Omega. replace (1024 + fbits) with (52 + (972 + fbits)) by lia.
      rewrite pow2_split by lia.
      pose proof (pow2_le (972 + fbits) (ex + fbits) ltac:(lia)).
      pose proof (pow2_pos (972 + fbits) ltac:(lia)). nia.
  - (* a proper right shift *)
    assert (Hn : 0 < E - ex) by lia.
    destruct (shr_rne (Z.pos M) ex (E - ex) ltac:(lia) Hn) as (Hrne & Hm1 & He1).
    destruct (shr (Build_shr_record (Z.pos M) false false) ex (E - ex)) as [mrs1 e1].
    cbn [fst snd] in Hrne, Hm1, He1. rewrite Hrne.
    replace e1 with E by lia. clear e1 He1.
    rewrite (HR1 ltac:(lia)).
    set (m2 := rne (Z.pos M) (E - ex)) in *.
    assert (Hpn : 0 < 2 ^ (E - ex)) by (apply pow2_pos; lia).
    assert (Hq0 : 0 <= Z.pos M / 2 ^ (E - ex)) by (apply Z.div_pos; lia).
    assert (Hq53 : Z.pos M / 2 ^ (E - ex) < 2 ^ 53).
    { apply Z.div_lt_upper_bound; [lia|]. rewrite <- pow2_split by lia.
      pose proof (pow2_le d (E - ex + 53) ltac:(lia)). lia. }
    assert (Hq52 : -1074 < E -> 2 ^ 52 <= Z.pos M / 2 ^ (E - ex)).
    { intros HEn. assert (E - ex = d - 53) by (unfold E, fexp64 in *; lia).
      apply Z.div_le_lower_bound; [lia|]. rewrite <- pow2_split by lia.
      replace (E - ex + 52) with (d - 1) by lia. apply Hd. }
    assert (Hm2 : m2 = Z.pos M / 2 ^ (E - ex) \/ m2 = Z.pos M / 2 ^ (E - ex) + 1)
      by (apply rne_bracket; lia).
    assert (Hm2b : 0 <= m2 <= 2 ^ 53) by lia.
    clearbody m2. clear Hrne Hm1 mrs1.
    rewrite fexp_eq. change (emax - prec) with 971.
    destruct m2 as [|p2|p2]; [| |lia].
    + cbn [Zdigits2]. rewrite shr_none by (unfold fexp64; lia). cbn [shr_m].
      split; [reflexivity | lia].
    + rewrite Zdigits2_bits by lia.
      destruct (Z.eq_dec (Z.pos p2) (2 ^ 53)) as [E53|N53].
      * (* the rounding carried into a new bit *)
        assert (Hb : bits (Z.pos p2) = 54) by (apply bits_unique; [lia | rewrite E53; simpl; lia]).
        rewrite Hb. replace (fexp64 (54 + E) - E) with 1 by (unfold fexp64; lia).
        destruct (shr_rne (Z.pos p2) E 1 ltac:(lia) ltac:(lia)) as (_ & Hm & He).
        destruct (shr (Build_shr_record (Z.pos p2) false false) E 1) as [mrs2 e2].
        cbn [fst snd] in Hm, He. rewrite Hm, He, E53.
        change (2 ^ 53 / 2 ^ 1) with (Z.pos (2 ^ 52)).
        assert (Hval : Z.pos (2 ^ 52) * 2 ^ (E + 1 + fbits) = 2 ^ 53 * 2 ^ (E + fbits)).
        { replace (E + 1 + fbits) with (1 + (E + fbits)) by lia.
          rewrite pow2_split by lia. change (2 ^ 53) with (Z.pos (2 ^ 52) * 2 ^ 1). ring. }
        destruct (Z.leb_spec (E + 1) 971) as [Hle|Hgt].
        -- split; [reflexivity|]. split; [exact Hval|]. split; [lia | reflexivity].
        -- split; [reflexivity|]. unfold Omega.
           replace (1024 + fbits) with (53 + (971 + fbits)) by lia.
           rewrite pow2_split by lia.
           pose proof (pow2_le (971 + fbits) (E + fbits) ltac:(lia)).
           pose proof (pow2_pos (971 + fbits) ltac:(lia)). nia.
      * assert (Hb : bits (Z.pos p2) <= 53).
        { assert (Hlt : Z.pos p2 < 2 ^ 53) by lia.
          pose proof (bits_spec (Z.pos p2) ltac:(lia)) as Hb.
          destruct (Z.le_gt_cases (bits (Z.pos p2)) 53) as [H|H]; [exact H|].
          pose proof (pow2_le 53 (bits (Z.pos p2) - 1) ltac:(lia)). lia. }
        rewrite shr_none by (unfold fexp64; lia). cbn [shr_m].
        destruct (Z.leb_spec E 971) as [Hle|Hgt].
        -- split; [reflexivity|]. split; [reflexivity|]. split; lia.
        -- split; [reflexivity|]. unfold Omega.
           replace (1024 + fbits) with (52 + (972 + fbits)) by lia.
           rewrite pow2_split by lia.
           pose proof (pow2_le (972 + fbits) (E + fbits) ltac:(lia)).
           pose proof (pow2_pos (972 + fbits) ltac:(lia)).
           pose proof (Hq52 ltac:(lia)). nia.
Qed.

Lemma iter_xO (m d : positive) : Z.pos (Pos.iter xO m d) = Z.pos m * 2 ^ Z.pos d.
Proof.
  induction d as [|d IH] using Pos.peano_ind.
  - simpl. lia.
  - rewrite Pos.iter_succ, Pos2Z.inj_xO, IH, Pos2Z.inj_succ, Z.pow_succ_r by lia. ring.
Qed.

Lemma shl_align_spec (mx : positive) (ex ex' : Z) :
  let (mz, ez) := shl_align mx ex ex' in
  ez = Z.min ex ex' /\ Z.pos mz = Z.pos mx * 2 ^ (ex - ez).
Proof.
  unfold shl_align. destruct (ex' - ex) as [|p|p] eqn:E.
  - split; [lia|]. rewrite Z.sub_diag. simpl. lia.
  - split; [lia|]. rewrite Z.sub_diag. simpl. lia.
  - split; [lia|]. rewrite iter_xO. f_equal. f_equal. lia.
Qed.

Lemma round_spec (sx : bool) (M : positive) (ex : Z) :
  - fbits <= ex ->
  match binary_round prec emax sx M ex with
  | S754_zero s => s = sx /\ RNp (Z.pos M * 2 ^ (ex + fbits)) = 0
  | S754_finite s m e =>
      s = sx /\ Z.pos m * 2 ^ (e + fbits) = RNp (Z.pos M * 2 ^ (ex + fbits))
      /\ -1074 <= e <= 971 /\ Z.pos m < 2 ^ 53
  | S754_infinity s => s = sx /\ Omega <= RNp (Z.pos M * 2 ^ (ex + fbits))
  | S754_nan => False
  end.
Proof.
  intros Hex. pose proof fbits_eq as Hs. unfold binary_round.
  rewrite fexp_eq, digits2_pos_log2. fold (bits (Z.pos M)).
  set (E := fexp64 (bits (Z.pos M) + ex)).
  pose proof (shl_align_spec M ex E) as A.
  destruct (shl_align M ex E) as [mz ez]. destruct A as [Hez Hmz].
  assert (HE : -1074 <= E) by (unfold E, fexp64; lia).
  assert (Hval : Z.pos mz * 2 ^ (ez + fbits) = Z.pos M * 2 ^ (ex + fbits)).
  { rewrite Hmz, <- Z.mul_assoc, <- pow2_split by lia. f_equal. f_equal. lia. }
  assert (Hbits : bits (Z.pos mz) + ez = bits (Z.pos M) + ex).
  { rewrite Hmz, bits_mul_pow2 by lia. lia. }
  rewrite <- Hval. apply round_aux_spec; [lia|].
  rewrite Hbits. fold E. lia.
Qed.

(** The signed rounding, and the value of a finite number in the same units. *)
Definition RN (x : Z) : Z :=
  match x with
  | 0 => 0
  | Z.pos _ => RNp x
  | Z.neg p => - RNp (Z.pos p)
  end.

Definition SFz (x : spec_float) : Z :=
  match x with
  | S754_finite s m e => cond_Zopp s (Z.pos m * 2 ^ (e + fbits))
  | _ => 0
  end.

Definition is_fin (x : spec_float) : bool :=
  match x with
  | S754_finite _ _ _ | S754_zero _ => true
  | _ => false
  end.

Lemma normalize_spec (m e : Z) (szero : bool) :
  - fbits <= e ->
  match binary_normalize prec emax m e szero with
  | S754_zero _ => RN (m * 2 ^ (e + fbits)) = 0
  | S754_finite s mm ee =>
      cond_Zopp s (Z.pos mm * 2 ^ (ee + fbits)) = RN (m * 2 ^ (e + fbits))
      /\ -1074 <= ee <= 971 /\ Z.pos mm < 2 ^ 53
  | S754_infinity s =>
      s = (m <? 0) /\ Omega <= Z.abs (RN (m * 2 ^ (e + fbits)))
  | S754_nan => False
  end.
Proof.
  intros He. pose proof fbits_eq as Hs.
  assert (Hp : 0 < 2 ^ (e + fbits)) by (apply pow2_pos; lia).
  unfold binary_normalize. destruct m as [|p|p].
  - reflexivity.
  - pose proof (round_spec false p e He) as R.
    assert (HX : exists q, Z.pos p * 2 ^ (e + fbits) = Z.pos q).
    { destruct (Z.pos p * 2 ^ (e + fbits)) as [|q|q] eqn:E; try lia. now exists q. }
    destruct HX as (q & HX). unfold RN. rewrite HX in *.
    destruct (binary_round prec emax false p e) as [s|s| |s mm ee].
    + tauto.
    + destruct R as [-> R]. split; [reflexivity|]. lia.
    + exact R.
    + destruct R as (-> & R & B). cbn [cond_Zopp]. tauto.
  - pose proof (round_spec true p e He) as R.
    assert (HX : exists q, Z.pos p * 2 ^ (e + fbits) = Z.pos q).
    { destruct (Z.pos p * 2 ^ (e + fbits)) as [|q|q] eqn:E; try lia. now exists q. }
    destruct HX as (q & HX).
    assert (HN : Z.neg p * 2 ^ (e + fbits) = Z.neg q).
    { change (Z.neg p) with (- Z.pos p). rewrite Z.mul_opp_l, HX. reflexivity. }
    unfold RN. rewrite HN. rewrite HX in R.
    destruct (binary_round prec emax true p e) as [s|s| |s mm ee].
    + lia.
    + destruct R as [-> R]. split; [reflexivity|]. lia.
    + exact R.
    + destruct R as (-> & R & B). cbn [cond_Zopp]. split; [lia | exact B].
Qed.

(** ** The rounding is monotone, exact on the grid, and within half a step *)

Lemma RNp_nonneg (x : Z) : 0 < x -> 0 <= RNp x.
Proof.
  intros Hx. unfold RNp. pose proof (gexp_nonneg x) as Hg.
  pose proof (pow2_pos (gexp x) Hg) as Hp.
  assert (0 <= x / 2 ^ gexp x) by (apply Z.div_pos; lia).
  destruct (rne_bracket x (gexp x) Hg) as [-> | ->]; nia.
Qed.

Lemma RNp_error (x : Z) : 0 < x -> 2 * Z.abs (RNp x - x) <= 2 ^ gexp x.
Proof. intros Hx. unfold RNp. apply rne_error. apply gexp_nonneg. Qed.

Lemma RNp_upper (x : Z) : 0 < x -> RNp x <= 2 ^ Z.max (bits x) (gexp x).
Proof.
  intros Hx. unfold RNp. pose proof (gexp_nonneg x) as Hg.
  set (E := gexp x) in *. pose proof (pow2_pos E Hg) as Hp.
  pose proof (bits_spec x Hx) as Hb. pose proof (bits_pos x Hx) as Hb0.
  assert (Hq : rne x E <= x / 2 ^ E + 1) by (destruct (rne_bracket x E Hg); lia).
  destruct (Z.le_gt_cases E (bits x)) as [Hle|Hgt].
  - rewrite Z.max_l by lia.
    assert (x / 2 ^ E < 2 ^ (bits x - E)).
    { apply Z.div_lt_upper_bound; [lia|]. rewrite <- pow2_split by lia.
      replace (E + (bits x - E)) with (bits x) by lia. lia. }
    replace (2 ^ bits x) with (2 ^ (bits x - E) * 2 ^ E)
      by (rewrite <- pow2_split by lia; f_equal; lia).
    nia.
  - rewrite Z.max_r by lia.
    assert (x / 2 ^ E = 0).
    { apply Z.div_small. pose proof (pow2_le (bits x) E ltac:(lia)). lia. }
    nia.
Qed.

Lemma RNp_lower (x : Z) :
  0 < x -> fbits - 1074 <= bits x - 53 -> 2 ^ (bits x - 1) <= RNp x.
Proof.
  intros Hx Hn. pose proof fbits_eq as Hs. unfold RNp.
  assert (HE : gexp x = bits x - 53) by (unfold gexp; lia). rewrite HE.
  pose proof (bits_spec x Hx) as Hb.
  assert (Hp : 0 < 2 ^ (bits x - 53)) by (apply pow2_pos; lia).
  assert (Hq : 2 ^ 52 <= x / 2 ^ (bits x - 53)).
  { apply Z.div_le_lower_bound; [lia|]. rewrite <- pow2_split by lia.
    replace (bits x - 53 + 52) with (bits x - 1) by lia. lia. }
  assert (Hr : x / 2 ^ (bits x - 53) <= rne x (bits x - 53))
    by (destruct (rne_bracket x (bits x - 53) ltac:(lia)); lia).
  replace (bits x - 1) with (52 + (bits x - 53)) by lia. rewrite pow2_split by lia. nia.
Qed.

Lemma RNp_mono (x y : Z) : 0 < x -> x <= y -> RNp x <= RNp y.
Proof.
  intros Hx Hxy. pose proof fbits_eq as Hs.
  pose proof (bits_le x y Hx Hxy) as Hb.
  pose proof (bits_pos x Hx) as Hbx.
  destruct (Z.eq_dec (gexp x) (gexp y)) as [E|N].
  - unfold RNp. rewrite <- E. pose proof (gexp_nonneg x) as Hg.
    pose proof (pow2_pos (gexp x) Hg).
    pose proof (rne_mono x y (gexp x) Hg Hxy). nia.
  - assert (Hlt : gexp x < gexp y /\ gexp y = bits y - 53 /\ bits x < bits y)
      by (unfold gexp in *; lia).
    destruct Hlt as (Hlt & Hy & Hbb).
    pose proof (RNp_upper x Hx) as U.
    pose proof (RNp_lower y ltac:(lia) ltac:(unfold gexp in *; lia)) as L.
    pose proof (pow2_le (Z.max (bits x) (gexp x)) (bits y - 1)
                  ltac:(pose proof (gexp_nonneg x); lia)).
    lia.
Qed.

Lemma RN_opp (x : Z) : RN (- x) = - RN x.
Proof. destruct x; simpl; lia. Qed.

Lemma RN_pos (x : Z) : 0 < x -> RN x = RNp x.
Proof. destruct x; simpl; lia. Qed.

Lemma RN_sign (x : Z) : (0 <= x -> 0 <= RN x) /\ (x <= 0 -> RN x <= 0).
Proof.
  destruct x as [|p|p]; simpl; split; intros; try lia.
  - apply RNp_nonneg. lia.
  - pose proof (RNp_nonneg (Z.pos p)). lia.
Qed.

Lemma RN_mono (x y : Z) : x <= y -> RN x <= RN y.
Proof.
  intros H. pose proof (RN_sign x) as [Sx1 Sx2]. pose proof (RN_sign y) as [Sy1 Sy2].
  destruct (Z_dec' 0 x) as [[Hx|Hx]|Hx], (Z_dec' 0 y) as [[Hy|Hy]|Hy]; try lia.
  - rewrite !RN_pos by lia. apply RNp_mono; lia.
  - replace x with (- (- x)) by lia. replace y with (- (- y)) by lia.
    rewrite !(RN_opp (- _)), !RN_pos by lia.
    pose proof (RNp_mono (- y) (- x) ltac:(lia) ltac:(lia)). lia.
Qed.

(** The rounding error of a value below [2^(j + fbits)], for [j] in the
    normal range, is at most half a unit in the last place of that range. *)
Lemma RN_error (x j : Z) :
  Z.abs x < 2 ^ (j + fbits) -> -1021 <= j ->
  2 * Z.abs (RN x - x) <= 2 ^ (j - 53 + fbits).
Proof.
  intros Hx Hj. pose proof fbits_eq as Hs.
  assert (Hp : forall v, 0 < v -> v < 2 ^ (j + fbits) ->
               2 * Z.abs (RNp v - v) <= 2 ^ (j - 53 + fbits)).
  { intros v Hv Hlt. pose proof (RNp_error v Hv) as Er.
    pose proof (bits_spec v Hv) as Hb.
    assert (bits v <= j + fbits).
    { destruct (Z.le_gt_cases (bits v) (j + fbits)) as [H|H]; [exact H|].
      pose proof (pow2_le (j + fbits) (bits v - 1) ltac:(lia)). lia. }
    pose proof (pow2_le (gexp v) (j - 53 + fbits)
                  ltac:(pose proof (gexp_nonneg v); unfold gexp in *; lia)). lia. }
  destruct x as [|p|p].
  - simpl. pose proof (pow2_pos (j - 53 + fbits) ltac:(lia)). lia.
  - rewrite RN_pos by lia. apply Hp; lia.
  - change (Z.neg p) with (- Z.pos p) in *. rewrite RN_opp, RN_pos by lia.
    pose proof (Hp (Z.pos p) ltac:(lia) ltac:(lia)). lia.
Qed.

(** A value with at most 53 significant bits above the smallest exponent is
    on the grid. *)
Lemma RN_exact (m e : Z) :
  Z.abs m < 2 ^ 53 -> -1074 <= e -> RN (m * 2 ^ (e + fbits)) = m * 2 ^ (e + fbits).
Proof.
  intros Hm He. pose proof fbits_eq as Hs.
  assert (Hp : forall v, 0 < v -> v < 2 ^ 53 ->
               RNp (v * 2 ^ (e + fbits)) = v * 2 ^ (e + fbits)).
  { intros v Hv Hlt.
    destruct (RNp_scaled v e Hv ltac:(lia)) as (_ & _ & H). apply H.
    pose proof (bits_spec v Hv) as Hb.
    assert (bits v <= 53).
    { destruct (Z.le_gt_cases (bits v) 53) as [H'|H']; [exact H'|].
      pose proof (pow2_le 53 (bits v - 1) ltac:(lia)). lia. }
    unfold fexp64. lia. }
  pose proof (pow2_pos (e + fbits) ltac:(lia)) as Hpe.
  destruct m as [|p|p].
  - reflexivity.
  - rewrite RN_pos by nia. apply Hp; lia.
  - change (Z.neg p) with (- Z.pos p) in *. rewrite Z.mul_opp_l, RN_opp, RN_pos by nia.
    rewrite Hp by lia. reflexivity.
Qed.

(** ** Valid numbers and their order *)

Lemma valid_finite (s : bool) (m : positive) (e : Z) :
  valid_binary (S754_finite s m e) = true ->
  fexp64 (bits (Z.pos m) + e) = e /\ -1074 <= e <= 971 /\ Z.pos m < 2 ^ 53
  /\ (-1074 < e -> 2 ^ 52 <= Z.pos m).
Proof.
  unfold SpecFloat.valid_binary, bounded, canonical_mantissa. rewrite fexp_eq, digits2_pos_log2.
  fold (bits (Z.pos m)). change (emax - prec) with 971.
  intros H. apply andb_true_iff in H as [H1 H2]. apply Z.eqb_eq in H1. apply Z.leb_le in H2.
  pose proof (bits_spec (Z.pos m) ltac:(lia)) as Hb.
  split; [exact H1|]. split; [unfold fexp64 in H1; lia|]. split.
  - pose proof (pow2_le (bits (Z.pos m)) 53 ltac:(unfold fexp64 in H1; pose proof (bits_pos (Z.pos m)); lia)).
    lia.
  - intros He. assert (bits (Z.pos m) = 53) by (unfold fexp64 in H1; lia).
    replace 52 with (bits (Z.pos m) - 1) by lia. apply Hb.
Qed.

(** The rank of a number that is not NaN: its value, and [Omega] for the
    infinities. *)
Definition ext (x : spec_float) : Z :=
  match x with
  | S754_infinity s => cond_Zopp s Omega
  | _ => SFz x
  end.

Definition clamp (v : Z) : Z := Z.max (- Omega) (Z.min Omega v).

Lemma Omega_pos : 0 < Omega.
Proof. unfold Omega. apply pow2_pos. pose proof fbits_eq. lia. Qed.

Lemma SFz_bound (x : spec_float) : valid_binary x = true -> Z.abs (SFz x) < Omega.
Proof.
  intros Hv. pose proof Omega_pos. pose proof fbits_eq as Hs.
  destruct x as [s|s| |s m e]; cbn [SFz]; try lia.
  apply valid_finite in Hv as (_ & He & Hm & _).
  assert (Z.pos m * 2 ^ (e + fbits) < Omega).
  { unfold Omega. replace (1024 + fbits) with (53 + (971 + fbits)) by lia.
    rewrite (pow2_split 53 (971 + fbits)) by lia.
    pose proof (pow2_le (e + fbits) (971 + fbits) ltac:(lia)).
    pose proof (pow2_pos (e + fbits) ltac:(lia)). nia. }
  pose proof (pow2_pos (e + fbits) ltac:(lia)).
  destruct s; cbn [cond_Zopp]; nia.
Qed.

Lemma SFz_pos (s : bool) (m : positive) (e : Z) :
  -1074 <= e -> 0 < Z.pos m * 2 ^ (e + fbits).
Proof. intros He. pose proof fbits_eq. pose proof (pow2_pos (e + fbits) ltac:(lia)). nia. Qed.

Lemma canonical_lt (m1 m2 : positive) (e1 e2 : Z) :
  valid_binary (S754_finite false m1 e1) = true -> valid_binary (S754_finite false m2 e2) = true ->
  e1 < e2 -> Z.pos m1 * 2 ^ (e1 + fbits) < Z.pos m2 * 2 ^ (e2 + fbits).
Proof.
  intros H1 H2 He. pose proof fbits_eq as Hs.
  apply valid_finite in H1 as (_ & B1 & M1 & _). apply valid_finite in H2 as (_ & B2 & _ & N2).
  specialize (N2 ltac:(lia)).
  pose proof (pow2_pos (e1 + fbits) ltac:(lia)).
  pose proof (pow2_le (e1 + 1 + fbits) (e2 + fbits) ltac:(lia)).
  replace (e1 + 1 + fbits) with (1 + (e1 + fbits)) in * by lia.
  rewrite pow2_split in * by lia. change (2 ^ 1) with 2 in *.
  change (2 ^ 53) with (2 * 2 ^ 52) in M1. nia.
Qed.

Lemma compare_cont_eq (m1 m2 : positive) :
  Pos.compare_cont Eq m1 m2 = (Z.pos m1 ?= Z.pos m2).
Proof. reflexivity. Qed.

Lemma valid_sign (s s' : bool) (m : positive) (e : Z) :
  valid_binary (S754_finite s m e) = valid_binary (S754_finite s' m e).
Proof. reflexivity. Qed.

Ltac solve_compare :=
  f_equal; symmetry;
  first [ apply Z.compare_eq_iff; lia
        | apply Z.compare_lt_iff; lia
        | apply Z.compare_gt_iff; lia ].

Lemma compare_ext (x y : spec_float) :
  valid_binary x = true -> valid_binary y = true -> x <> S754_nan -> y <> S754_nan ->
  SFcompare x y = Some (ext x ?= ext y).
Proof.
  intros Vx Vy Nx Ny. pose proof Omega_pos as HO. pose proof fbits_eq as Hs.
  pose proof (SFz_bound x Vx) as Bx. pose proof (SFz_bound y Vy) as By.
  destruct x as [sx|sx| |sx mx ex], y as [sy|sy| |sy my ey]; try congruence;
    cbn [SFcompare ext SFz] in *.
  - reflexivity.
  - destruct sy; cbn [cond_Zopp]; solve_compare.
  - assert (P := SFz_pos sy my ey ltac:(apply valid_finite in Vy; lia)).
    destruct sy; cbn [cond_Zopp]; solve_compare.
  - destruct sx; cbn [cond_Zopp]; solve_compare.
  - destruct sx, sy; cbn [cond_Zopp]; solve_compare.
  - destruct sx; cbn [cond_Zopp] in *; solve_compare.
  - assert (P := SFz_pos sx mx ex ltac:(apply valid_finite in Vx; lia)).
    destruct sx; cbn [cond_Zopp]; solve_compare.
  - destruct sy; cbn [cond_Zopp] in *; solve_compare.
  - assert (Px := SFz_pos sx mx ex ltac:(apply valid_finite in Vx; lia)).
    assert (Py := SFz_pos sy my ey ltac:(apply valid_finite in Vy; lia)).
    rewrite (valid_sign sx false) in Vx. rewrite (valid_sign sy false) in Vy.
    pose proof (canonical_lt mx my ex ey Vx Vy) as L1.
    pose proof (canonical_lt my mx ey ex Vy Vx) as L2.
    assert (Heq : ex = ey ->
              (Z.pos mx ?= Z.pos my)
              = (Z.pos mx * 2 ^ (ex + fbits) ?= Z.pos my * 2 ^ (ey + fbits))).
    { intros ->. apply Zmult_compare_compat_r. apply Z.lt_gt.
      apply pow2_pos. apply valid_finite in Vy. lia. }
    rewrite compare_cont_eq.
    destruct sx, sy; cbn [cond_Zopp]; try solve_compare.
    + rewrite Z.compare_opp.
      destruct (Z.compare_spec ex ey) as [E|E|E].
      * rewrite (Heq E). f_equal. symmetry. apply Z.compare_antisym.
      * specialize (L1 E). solve_compare.
      * specialize (L2 E). solve_compare.
    + destruct (Z.compare_spec ex ey) as [E|E|E].
      * now rewrite (Heq E).
      * specialize (L1 E). solve_compare.
      * specialize (L2 E). solve_compare.
Qed.

(** ** Subtraction and multiplication round the exact result *)

Lemma clamp_id (v : Z) : Z.abs v < Omega -> clamp v = v.
Proof. unfold clamp. lia. Qed.

Lemma RN_valid (x : spec_float) : valid_binary x = true -> RN (SFz x) = SFz x.
Proof.
  intros Hv. destruct x as [s|s| |s m e]; try reflexivity. cbn [SFz].
  apply valid_finite in Hv as (_ & He & Hm & _).
  destruct s; cbn [cond_Zopp].
  - rewrite <- Z.mul_opp_l. apply RN_exact; lia.
  - apply RN_exact; lia.
Qed.

Lemma normalize_ext (m e : Z) (szero : bool) :
  - fbits <= e ->
  binary_normalize prec emax m e szero <> S754_nan
  /\ ext (binary_normalize prec emax m e szero) = clamp (RN (m * 2 ^ (e + fbits))).
Proof.
  intros He. pose proof (normalize_spec m e szero He) as N.
  pose proof Omega_pos as HO. pose proof fbits_eq as Hs.
  pose proof (pow2_pos (e + fbits) ltac:(lia)) as Hp.
  pose proof (RN_sign (m * 2 ^ (e + fbits))) as [S1 S2].
  destruct (binary_normalize prec emax m e szero) as [s|s| |s mm ee]; cbn [ext SFz].
  - split; [discriminate|]. rewrite N. symmetry. apply clamp_id. lia.
  - destruct N as [-> N]. split; [discriminate|]. unfold clamp.
    destruct (Z.ltb_spec m 0) as [Hm|Hm]; cbn [cond_Zopp].
    + specialize (S2 ltac:(nia)). lia.
    + specialize (S1 ltac:(nia)). lia.
  - contradiction.
  - destruct N as (N & Be & Bm). split; [discriminate|]. rewrite N. symmetry.
    apply clamp_id. rewrite <- N.
    assert (Z.pos mm * 2 ^ (ee + fbits) < Omega).
    { unfold Omega. replace (1024 + fbits) with (53 + (971 + fbits)) by lia.
      rewrite (pow2_split 53 (971 + fbits)) by lia.
      pose proof (pow2_le (ee + fbits) (971 + fbits) ltac:(lia)).
      pose proof (pow2_pos (ee + fbits) ltac:(lia)). nia. }
    pose proof (pow2_pos (ee + fbits) ltac:(lia)).
    destruct s; cbn [cond_Zopp]; nia.
Qed.

Lemma aligned_value (s : bool) (m : positive) (e ez : Z) :
  ez <= e -> - fbits <= ez ->
  cond_Zopp s (Z.pos (fst (shl_align m e ez))) * 2 ^ (ez + fbits)
  = cond_Zopp s (Z.pos m * 2 ^ (e + fbits)).
Proof.
  intros H1 H2. pose proof (shl_align_spec m e ez) as A.
  destruct (shl_align m e ez) as [mz ez']. destruct A as [A1 A2]. cbn [fst].
  rewrite A2. replace ez' with ez by lia.
  replace (e + fbits) with ((e - ez) + (ez + fbits)) by lia.
  rewrite (pow2_split (e - ez)) by lia.
  destruct s; cbn [cond_Zopp]; ring.
Qed.

Lemma SFsub_ext (x y : spec_float) :
  valid_binary x = true -> valid_binary y = true -> is_fin x = true -> is_fin y = true ->
  SFsub prec emax x y <> S754_nan
  /\ ext (SFsub prec emax x y) = clamp (RN (SFz x - SFz y)).
Proof.
  intros Vx Vy Fx Fy.
  destruct x as [sx|sx| |sx mx ex], y as [sy|sy| |sy my ey]; try discriminate Fx;
    try discriminate Fy; clear Fx Fy;
    pose proof Omega_pos as HO; pose proof fbits_eq as Hs;
    pose proof (SFz_bound _ Vx) as Bx; pose proof (SFz_bound _ Vy) as By;
    pose proof (RN_valid _ Vx) as Rx; pose proof (RN_valid _ Vy) as Ry.
  - split; [destruct sx, sy; discriminate|].
    assert (E : ext (SFsub prec emax (S754_zero sx) (S754_zero sy)) = 0)
      by (destruct sx, sy; reflexivity).
    rewrite E. cbn [SFz]. symmetry. apply clamp_id. simpl. lia.
  - split; [discriminate|]. cbn [SFsub ext SFz] in *.
    replace (0 - cond_Zopp sy (Z.pos my * 2 ^ (ey + fbits)))
      with (- cond_Zopp sy (Z.pos my * 2 ^ (ey + fbits))) by lia.
    rewrite RN_opp, Ry. rewrite clamp_id by lia. destruct sy; cbn [negb cond_Zopp]; lia.
  - split; [discriminate|]. cbn [SFsub ext SFz] in *.
    rewrite Z.sub_0_r, Rx. now rewrite clamp_id.
  - cbn [SFsub].
    pose proof (valid_finite _ _ _ Vx) as (_ & Ex & _). pose proof (valid_finite _ _ _ Vy) as (_ & Ey & _).
    destruct (normalize_ext
                (cond_Zopp sx (Z.pos (fst (shl_align mx ex (Z.min ex ey))))
                 - cond_Zopp sy (Z.pos (fst (shl_align my ey (Z.min ex ey)))))
                (Z.min ex ey) false ltac:(lia)) as [N1 N2].
    split; [exact N1|]. rewrite N2. f_equal. f_equal.
    rewrite Z.mul_sub_distr_r, !aligned_value by lia. reflexivity.
Qed.

Lemma SFmul_ext (x y : spec_float) :
  valid_binary x = true -> valid_binary y = true -> is_fin x = true -> is_fin y = true ->
  SFmul prec emax x y <> S754_nan
  /\ exists v, v * 2 ^ fbits = SFz x * SFz y
              /\ ext (SFmul prec emax x y) = clamp (RN v).
Proof.
  intros Vx Vy Fx Fy.
  assert (Hzero : clamp (RN 0) = 0).
  { change (RN 0) with 0. apply clamp_id. pose proof Omega_pos. lia. }
  destruct x as [sx|sx| |sx mx ex], y as [sy|sy| |sy my ey]; try discriminate Fx;
    try discriminate Fy; clear Fx Fy;
    cbn [SFmul];
    try (split; [discriminate|]; exists 0; cbn [SFz ext]; split; [ring | now rewrite Hzero]).
  pose proof Omega_pos as HO. pose proof fbits_eq as Hs.
  pose proof (valid_finite _ _ _ Vx) as (Cx & Ex & Mx & Nx).
  pose proof (valid_finite _ _ _ Vy) as (Cy & Ey & My & Ny).
  pose proof (bits_spec (Z.pos mx) ltac:(lia)) as Bx.
  pose proof (bits_spec (Z.pos my) ltac:(lia)) as By.
  pose proof (bits_pos (Z.pos mx) ltac:(lia)) as Px.
  pose proof (bits_pos (Z.pos my) ltac:(lia)) as Py.
  (* the product has at least [bx + by - 1] bits *)
  assert (Hb : bits (Z.pos mx) + bits (Z.pos my) - 1 <= bits (Z.pos (mx * my))).
  { rewrite Pos2Z.inj_mul.
    pose proof (bits_spec (Z.pos mx * Z.pos my) ltac:(lia)) as Bp.
    destruct (Z.le_gt_cases (bits (Z.pos mx) + bits (Z.pos my) - 1)
                (bits (Z.pos mx * Z.pos my))) as [H|H]; [exact H|].
    pose proof (pow2_le (bits (Z.pos mx * Z.pos my))
                  (bits (Z.pos mx) + bits (Z.pos my) - 2)
                  ltac:(pose proof (bits_pos (Z.pos mx * Z.pos my) ltac:(lia)); lia)) as Hle.
    replace (bits (Z.pos mx) + bits (Z.pos my) - 2)
      with ((bits (Z.pos mx) - 1) + (bits (Z.pos my) - 1)) in Hle by lia.
    rewrite pow2_split in Hle by lia.
    assert (2 ^ (bits (Z.pos mx) - 1) * 2 ^ (bits (Z.pos my) - 1) <= Z.pos mx * Z.pos my)
      by (apply Z.mul_le_mono_nonneg; try apply Z.lt_le_incl, pow2_pos; lia).
    lia. }
  assert (Hpre : ex + ey <= fexp64 (bits (Z.pos (mx * my)) + (ex + ey))).
  { unfold fexp64 in *. lia. }
  pose proof (round_aux_spec (xorb sx sy) (mx * my) (ex + ey) ltac:(lia) Hpre) as R.
  set (X := Z.pos (mx * my) * 2 ^ (ex + ey + fbits)) in *.
  assert (HX : 0 < X).
  { unfold X. pose proof (pow2_pos (ex + ey + fbits) ltac:(lia)). nia. }
  assert (Hprod : cond_Zopp (xorb sx sy) X * 2 ^ fbits
                  = cond_Zopp sx (Z.pos mx * 2 ^ (ex + fbits))
                    * cond_Zopp sy (Z.pos my * 2 ^ (ey + fbits))).
  { unfold X. rewrite Pos2Z.inj_mul.
    replace (ex + ey + fbits) with ((ex + fbits) + (ey + fbits) - fbits) by lia.
    assert (E : 2 ^ (ex + fbits + (ey + fbits) - fbits) * 2 ^ fbits
                = 2 ^ (ex + fbits) * 2 ^ (ey + fbits)).
    { rewrite <- !pow2_split by lia. f_equal. lia. }
    assert (E' : Z.pos mx * Z.pos my * 2 ^ (ex + fbits + (ey + fbits) - fbits) * 2 ^ fbits
                 = Z.pos mx * 2 ^ (ex + fbits) * (Z.pos my * 2 ^ (ey + fbits)))
      by (rewrite <- Z.mul_assoc, E; ring).
    destruct sx, sy; cbn [xorb cond_Zopp]; lia. }
  assert (HRN : RN (cond_Zopp (xorb sx sy) X) = cond_Zopp (xorb sx sy) (RNp X)).
  { destruct (xorb sx sy); cbn [cond_Zopp]; [rewrite RN_opp|]; now rewrite RN_pos. }
  pose proof (RNp_nonneg X HX) as HR0.
  destruct (binary_round_aux prec emax (xorb sx sy) (Z.pos (mx * my)) (ex + ey) loc_Exact)
    as [s|s| |s mm ee].
  - destruct R as [-> R]. split; [discriminate|].
    exists (cond_Zopp (xorb sx sy) X). split; [exact Hprod|].
    rewrite HRN, R. cbn [ext SFz]. destruct (xorb sx sy); symmetry; apply clamp_id; simpl; lia.
  - destruct R as [-> R]. split; [discriminate|].
    exists (cond_Zopp (xorb sx sy) X). split; [exact Hprod|].
    rewrite HRN. cbn [ext]. unfold clamp. destruct (xorb sx sy); cbn [cond_Zopp]; lia.
  - contradiction.
  - destruct R as (-> & R & Be & Bm). split; [discriminate|].
    exists (cond_Zopp (xorb sx sy) X). split; [exact Hprod|].
    rewrite HRN, <- R. cbn [ext SFz]. symmetry. apply clamp_id.
    assert (Z.pos mm * 2 ^ (ee + fbits) < Omega).
    { unfold Omega. replace (1024 + fbits) with (53 + (971 + fbits)) by lia.
      rewrite (pow2_split 53 (971 + fbits)) by lia.
      pose proof (pow2_le (ee + fbits) (971 + fbits) ltac:(lia)).
      pose proof (pow2_pos (ee + fbits) ltac:(lia)).
      apply Z.le_lt_trans with (Z.pos mm * 2 ^ (971 + fbits));
        [apply Z.mul_le_mono_nonneg_l; lia | apply Z.mul_lt_mono_pos_r; lia]. }
    assert (0 < Z.pos mm * 2 ^ (ee + fbits))
      by (apply Z.mul_pos_pos; [lia | apply pow2_pos; lia]).
    destruct (xorb sx sy); cbn [cond_Zopp]; lia.
Qed.


(** ** Primitive floats through their specification

    [val f] is the value of [f] in units of [2^-fbits]; the infinities
    stand at [Omega] and [- Omega]. *)

Definition val (f : float) : Z := ext (Prim2SF f).

Definition finite (f : float) : Prop := is_fin (Prim2SF f) = true.

Definition notnan (f : float) : Prop := Prim2SF f <> S754_nan.

Lemma finite_notnan (f : float) : finite f -> notnan f.
Proof. unfold finite, notnan. intros H E. rewrite E in H. discriminate H. Qed.

Lemma val_finite (f : float) : finite f -> val f = SFz (Prim2SF f) /\ Z.abs (val f) < Omega.
Proof.
  unfold finite, val. intros H. pose proof (SFz_bound _ (Prim2SF_valid f)) as B.
  destruct (Prim2SF f); try discriminate H; cbn [ext SFz] in *; split; auto.
Qed.

Lemma val_range (f : float) : Z.abs (val f) <= Omega.
Proof.
  unfold val. pose proof (SFz_bound _ (Prim2SF_valid f)) as B. pose proof Omega_pos.
  destruct (Prim2SF f) as [s|s| |s m e]; cbn [ext SFz cond_Zopp] in *; try lia.
  destruct s; cbn [cond_Zopp]; lia.
Qed.

Lemma classify (f : float) :
  notnan f ->
  finite f \/ (Prim2SF f = S754_infinity false /\ val f = Omega)
  \/ (Prim2SF f = S754_infinity true /\ val f = - Omega).
Proof.
  unfold notnan, finite, val. intros H.
  destruct (Prim2SF f) as [s|[|]| |s m e]; auto; congruence.
Qed.

Lemma bounded_finite (f : float) : notnan f -> Z.abs (val f) < Omega -> finite f.
Proof.
  intros H B. pose proof Omega_pos.
  destruct (classify f H) as [F|[[_ E]|[_ E]]]; [exact F | lia | lia].
Qed.

(** *** Comparisons *)

Lemma ltb_val (x y : float) :
  notnan x -> notnan y -> (x <? y)%float = (val x <? val y).
Proof.
  intros Hx Hy. rewrite ltb_spec. unfold SFltb.
  rewrite compare_ext by (auto using Prim2SF_valid).
  unfold Z.ltb, val. destruct (_ ?= _); reflexivity.
Qed.

Lemma leb_val (x y : float) :
  notnan x -> notnan y -> (x <=? y)%float = (val x <=? val y).
Proof.
  intros Hx Hy. rewrite leb_spec. unfold SFleb.
  rewrite compare_ext by (auto using Prim2SF_valid).
  unfold Z.leb, val. destruct (_ ?= _); reflexivity.
Qed.

Lemma ltb_true (x y : float) :
  (x <? y)%float = true -> notnan x /\ notnan y /\ val x < val y.
Proof.
  intros H.
  assert (Hx : notnan x).
  { intros E. rewrite ltb_spec, E in H. discriminate H. }
  assert (Hy : notnan y).
  { intros E. rewrite ltb_spec, E in H. destruct (Prim2SF x); discriminate H. }
  rewrite ltb_val in H by assumption. apply Z.ltb_lt in H. auto.
Qed.

Lemma leb_true (x y : float) :
  (x <=? y)%float = true -> notnan x /\ notnan y /\ val x <= val y.
Proof.
  intros H.
  assert (Hx : notnan x).
  { intros E. rewrite leb_spec, E in H. discriminate H. }
  assert (Hy : notnan y).
  { intros E. rewrite leb_spec, E in H. destruct (Prim2SF x); discriminate H. }
  rewrite leb_val in H by assumption. apply Z.leb_le in H. auto.
Qed.

Lemma abs_val (x : float) :
  notnan (abs x) -> notnan x /\ val (abs x) = Z.abs (val x).
Proof.
  unfold notnan, val. rewrite abs_spec. intros H. pose proof Omega_pos.
  destruct (Prim2SF x) as [s|s| |s m e] eqn:E; cbn [SFabs ext SFz cond_Zopp] in *;
    try (split; [discriminate | ]); try congruence.
  - reflexivity.
  - destruct s; cbn [cond_Zopp]; lia.
  - pose proof (valid_finite s m e) as V. rewrite <- E in V.
    destruct (V (Prim2SF_valid x)) as (_ & Be & _).
    pose proof (SFz_pos s m e ltac:(lia)).
    destruct s; cbn [cond_Zopp]; lia.
Qed.

(** *** Subtraction and multiplication *)

Lemma sub_val (x y : float) :
  finite x -> finite y ->
  notnan (x - y) /\ val (x - y) = clamp (RN (val x - val y)).
Proof.
  intros Fx Fy. destruct (val_finite x Fx) as [Ex _], (val_finite y Fy) as [Ey _].
  unfold notnan. rewrite Ex, Ey. unfold val. rewrite sub_spec.
  apply SFsub_ext; auto using Prim2SF_valid.
Qed.

Lemma mul_val (x y : float) :
  finite x -> finite y ->
  notnan (x * y)
  /\ exists v, v * 2 ^ fbits = val x * val y /\ val (x * y) = clamp (RN v).
Proof.
  intros Fx Fy. destruct (val_finite x Fx) as [Ex _], (val_finite y Fy) as [Ey _].
  unfold notnan. rewrite Ex, Ey. unfold val. rewrite mul_spec.
  apply SFmul_ext; auto using Prim2SF_valid.
Qed.

Lemma sub_infinity_r (x y : float) (s : bool) :
  finite x -> Prim2SF y = S754_infinity s -> Prim2SF (x - y) = S754_infinity (negb s).
Proof.
  unfold finite. intros Fx Ey. rewrite sub_spec, Ey.
  destruct (Prim2SF x); try discriminate Fx; reflexivity.
Qed.

Lemma sub_infinity_l (x y : float) (s : bool) :
  Prim2SF x = S754_infinity s -> finite y -> Prim2SF (x - y) = S754_infinity s.
Proof.
  unfold finite. intros Ex Fy. rewrite sub_spec, Ex.
  destruct (Prim2SF y); try discriminate Fy; reflexivity.
Qed.

Lemma clamp_mono (u v : Z) : u <= v -> clamp u <= clamp v.
Proof. unfold clamp. lia. Qed.

Lemma clamp_range (v : Z) : Z.abs (clamp v) <= Omega.
Proof. unfold clamp. pose proof Omega_pos. lia. Qed.

(** Subtraction is antitone in its second argument, also when that
    argument is infinite. *)
Lemma sub_mono_r (a y1 y2 : float) :
  finite a -> notnan y1 -> notnan y2 -> val y1 <= val y2 ->
  notnan (a - y1) /\ notnan (a - y2) /\ val (a - y2) <= val (a - y1).
Proof.
  intros Fa H1 H2 Hle. pose proof Omega_pos as HO.
  assert (Inf : forall y s, Prim2SF y = S754_infinity s ->
                notnan (a - y) /\ val (a - y) = cond_Zopp (negb s) Omega).
  { intros y s E. unfold notnan, val. rewrite (sub_infinity_r a y s Fa E).
    split; [discriminate | reflexivity]. }
  pose proof (val_range (a - y1)) as R1. pose proof (val_range (a - y2)) as R2.
  destruct (classify y1 H1) as [F1|[[E1 V1]|[E1 V1]]];
    destruct (classify y2 H2) as [F2|[[E2 V2]|[E2 V2]]];
    try (destruct (val_finite y1 F1) as [_ B1]);
    try (destruct (val_finite y2 F2) as [_ B2]);
    try lia;
    try (destruct (sub_val a y1 Fa F1) as [N1 S1]);
    try (destruct (sub_val a y2 Fa F2) as [N2 S2]);
    try (destruct (Inf y1 _ E1) as [N1 S1]; cbn [negb cond_Zopp] in S1);
    try (destruct (Inf y2 _ E2) as [N2 S2]; cbn [negb cond_Zopp] in S2);
    (split; [exact N1 | split; [exact N2 | ]]); try lia.
  rewrite S1, S2. apply clamp_mono. apply RN_mono. lia.
Qed.

(** The same when the first argument may be infinite and the others are
    finite. *)
Lemma sub_mono_r_any (a y1 y2 : float) :
  notnan a -> finite y1 -> finite y2 -> val y1 <= val y2 ->
  notnan (a - y1) /\ notnan (a - y2) /\ val (a - y2) <= val (a - y1).
Proof.
  intros Ha F1 F2 Hle.
  destruct (classify a Ha) as [Fa|[[Ea Va]|[Ea Va]]].
  - apply sub_mono_r; auto using finite_notnan.
  - unfold notnan, val. rewrite (sub_infinity_l a y1 _ Ea F1), (sub_infinity_l a y2 _ Ea F2).
    repeat split; try discriminate; try lia.
  - unfold notnan, val. rewrite (sub_infinity_l a y1 _ Ea F1), (sub_infinity_l a y2 _ Ea F2).
    repeat split; try discriminate; try lia.
Qed.

(** A finite minuend and any subtrahend that is not NaN give a result
    that is not NaN. *)
Lemma sub_notnan (x y : float) : finite x -> notnan y -> notnan (x - y).
Proof.
  intros Fx Hy. destruct (classify y Hy) as [Fy|[[E _]|[E _]]].
  - apply (sub_val x y Fx Fy).
  - unfold notnan. rewrite (sub_infinity_r x y _ Fx E). discriminate.
  - unfold notnan. rewrite (sub_infinity_r x y _ Fx E). discriminate.
Qed.

(** *** Values on the grid of [2^-60]

    The constants of the formula and the bounds used below are multiples
    of [2^-60]; [units f] is the value of such an [f] in that unit, and
    [ulp60] is the unit itself, so that the arithmetic on values stays
    linear. *)

Definition ulp60 : Z := 2 ^ (fbits - 60).

Definition units (f : float) : Z :=
  match Prim2SF f with
  | S754_finite s m e => cond_Zopp s (Z.pos m * 2 ^ (e + 60))
  | _ => 0
  end.

Definition fine (f : float) : bool :=
  match Prim2SF f with
  | S754_finite _ _ e => -60 <=? e
  | S754_zero _ => true
  | _ => false
  end.

Lemma ulp60_pos : 0 < ulp60.
Proof. unfold ulp60. pose proof fbits_eq. apply pow2_pos. lia. Qed.

Lemma pow2_ulp60 (k : Z) : -60 <= k -> 2 ^ (k + fbits) = 2 ^ (k + 60) * ulp60.
Proof.
  intros H. unfold ulp60. pose proof fbits_eq. rewrite <- pow2_split by lia. f_equal. lia.
Qed.

Lemma one_ulp60 : 2 ^ fbits = 2 ^ 60 * ulp60.
Proof. apply (pow2_ulp60 0). lia. Qed.

Lemma Omega_ulp60 : 2 ^ 200 * ulp60 < Omega.
Proof.
  unfold Omega. rewrite (pow2_ulp60 1024) by lia. pose proof ulp60_pos.
  apply Z.mul_lt_mono_pos_r; [assumption | apply pow2_lt; lia].
Qed.

Lemma val_units (f : float) : fine f = true -> finite f /\ val f = units f * ulp60.
Proof.
  unfold fine, finite, val, units.
  destruct (Prim2SF f) as [s|s| |s m e]; try discriminate; intros H; cbn [is_fin ext SFz].
  - split; [reflexivity | lia].
  - apply Z.leb_le in H. split; [reflexivity|]. rewrite pow2_ulp60 by lia.
    destruct s; cbn [cond_Zopp]; lia.
Qed.

(** The value and the finiteness of a literal. *)
Ltac float_const f F V :=
  pose proof (val_units f eq_refl) as [F V];
  let k := eval vm_compute in (units f) in change (units f) with k in V.

Lemma RN_exact_units (m k : Z) :
  Z.abs m < 2 ^ 53 -> 0 <= k -> RN (m * 2 ^ k * ulp60) = m * 2 ^ k * ulp60.
Proof.
  intros Hm Hk. pose proof (RN_exact m (k - 60) Hm ltac:(lia)) as E.
  rewrite pow2_ulp60 in E by lia. replace (k - 60 + 60) with k in E by lia.
  rewrite <- Z.mul_assoc. exact E.
Qed.

(** [K * ulp60] is a binary64 value when [K] is at most 53 bits above a
    power of two. *)
Lemma RN_grid (K k : Z) :
  0 <= k -> K mod 2 ^ k = 0 -> Z.abs (K / 2 ^ k) < 2 ^ 53 -> RN (K * ulp60) = K * ulp60.
Proof.
  intros Hk Hm Hb. pose proof (pow2_pos k Hk).
  assert (E : K = K / 2 ^ k * 2 ^ k).
  { pose proof (Z.div_mod K (2 ^ k) ltac:(lia)). lia. }
  rewrite E at 1 2. apply RN_exact_units; assumption.
Qed.

Lemma RN_le_grid (x K k : Z) :
  0 <= k -> K mod 2 ^ k = 0 -> Z.abs (K / 2 ^ k) < 2 ^ 53 ->
  x <= K * ulp60 -> RN x <= K * ulp60.
Proof. intros Hk Hm Hb H. rewrite <- (RN_grid K k) by assumption. now apply RN_mono. Qed.

Lemma RN_ge_grid (x K k : Z) :
  0 <= k -> K mod 2 ^ k = 0 -> Z.abs (K / 2 ^ k) < 2 ^ 53 ->
  K * ulp60 <= x -> K * ulp60 <= RN x.
Proof. intros Hk Hm Hb H. rewrite <- (RN_grid K k) by assumption. now apply RN_mono. Qed.

Lemma RN_error_units (x j : Z) :
  53 <= j -> Z.abs x < 2 ^ j * ulp60 -> 2 * Z.abs (RN x - x) <= 2 ^ (j - 53) * ulp60.
Proof.
  intros Hj Hx. pose proof (RN_error x (j - 60)) as E.
  rewrite pow2_ulp60 in E by lia. replace (j - 60 + 60) with j in E by lia.
  specialize (E Hx ltac:(lia)).
  replace (j - 60 - 53 + fbits) with (j - 113 + fbits) in E by lia.
  rewrite pow2_ulp60 in E by lia. replace (j - 113 + 60) with (j - 53) in E by lia.
  exact E.
Qed.

(** Multiplication by a constant on the grid. *)
Lemma mul_units_l (c y : float) :
  fine c = true -> finite y ->
  notnan (c * y)
  /\ exists v, v * 2 ^ 60 = units c * val y /\ val (c * y) = clamp (RN v).
Proof.
  intros Hc Fy. destruct (val_units c Hc) as [Fc Vc].
  destruct (mul_val c y Fc Fy) as (N & v & Hv & E).
  split; [exact N|]. exists v. split; [|exact E].
  rewrite Vc, one_ulp60 in Hv. pose proof ulp60_pos.
  apply Z.mul_reg_r with ulp60; lia.
Qed.

Lemma mul_units_r (x c : float) :
  finite x -> fine c = true ->
  notnan (x * c)
  /\ exists v, v * 2 ^ 60 = val x * units c /\ val (x * c) = clamp (RN v).
Proof.
  intros Fx Hc. destruct (val_units c Hc) as [Fc Vc].
  destruct (mul_val x c Fx Fc) as (N & v & Hv & E).
  split; [exact N|]. exists v. split; [|exact E].
  rewrite Vc, one_ulp60 in Hv. pose proof ulp60_pos.
  apply Z.mul_reg_r with ulp60; lia.
Qed.

Lemma mul_infinity_r (c y : float) (s : bool) :
  fine c = true -> 0 < units c -> Prim2SF y = S754_infinity s ->
  Prim2SF (c * y) = S754_infinity s.
Proof.
  unfold fine, units. intros Hc Hp Ey. rewrite mul_spec, Ey.
  destruct (Prim2SF c) as [sc|sc| |sc m e]; try discriminate Hc; try lia.
  destruct sc; cbn [cond_Zopp] in Hp; [lia | reflexivity].
Qed.

(** Multiplication by a positive constant is monotone, also at the
    infinities. *)
Lemma mul_mono_l (c x y : float) :
  fine c = true -> 0 < units c -> notnan x -> notnan y -> val x <= val y ->
  notnan (c * x) /\ notnan (c * y) /\ val (c * x) <= val (c * y).
Proof.
  intros Hc Hp Hx Hy Hle. pose proof Omega_pos as HO.
  assert (Inf : forall z s, Prim2SF z = S754_infinity s ->
                notnan (c * z) /\ val (c * z) = cond_Zopp s Omega).
  { intros z s E. unfold notnan, val. rewrite (mul_infinity_r c z s Hc Hp E).
    split; [discriminate | reflexivity]. }
  pose proof (val_range (c * x)) as R1. pose proof (val_range (c * y)) as R2.
  destruct (classify x Hx) as [F1|[[E1 V1]|[E1 V1]]];
    destruct (classify y Hy) as [F2|[[E2 V2]|[E2 V2]]];
    try (destruct (val_finite x F1) as [_ B1]);
    try (destruct (val_finite y F2) as [_ B2]);
    try lia;
    try (destruct (mul_units_l c x Hc F1) as (N1 & v1 & P1 & S1));
    try (destruct (mul_units_l c y Hc F2) as (N2 & v2 & P2 & S2));
    try (destruct (Inf x _ E1) as [N1 S1]; cbn [cond_Zopp] in S1);
    try (destruct (Inf y _ E2) as [N2 S2]; cbn [cond_Zopp] in S2);
    (split; [exact N1 | split; [exact N2 | ]]); try lia.
  rewrite S1, S2. apply clamp_mono. apply RN_mono.
  assert (units c * val x <= units c * val y) by (apply Z.mul_le_mono_nonneg_l; lia).
  lia.
Qed.

(** A subtraction whose exact result is below [2^54] in magnitude is
    finite and off by at most one. *)
Lemma sub_near (x y : float) :
  finite x -> finite y -> Z.abs (val x - val y) < 2 ^ 114 * ulp60 ->
  finite (x - y) /\ Z.abs (val (x - y) - (val x - val y)) <= 2 ^ 60 * ulp60.
Proof.
  intros Fx Fy Hb. destruct (sub_val x y Fx Fy) as [N E].
  pose proof (RN_error_units (val x - val y) 114 ltac:(lia) Hb) as Er.
  change (2 ^ (114 - 53)) with (2 * 2 ^ 60) in Er.
  pose proof Omega_ulp60 as HO. pose proof ulp60_pos as Hu.
  assert (Hc : clamp (RN (val x - val y)) = RN (val x - val y)).
  { apply clamp_id. lia. }
  rewrite Hc in E. split; [|lia].
  apply bounded_finite; [exact N | lia].
Qed.

(** A finite value below one is at most [1 - 2^-53]. *)
Lemma below_one (f : float) :
  finite f -> val f < 2 ^ 60 * ulp60 -> val f <= (2 ^ 53 - 1) * 2 ^ 7 * ulp60.
Proof.
  intros F H. destruct (val_finite f F) as [E _]. rewrite E in *. clear E.
  pose proof (Prim2SF_valid f) as V. pose proof ulp60_pos as Hu. pose proof fbits_eq as Hf.
  destruct (Prim2SF f) as [s|s| |s m e]; try discriminate F; cbn [SFz] in *; try lia.
  destruct (valid_finite _ _ _ V) as (_ & Be & Bm & _).
  pose proof (pow2_pos (e + fbits) ltac:(lia)) as Hp.
  assert (Hv : 0 < Z.pos m * 2 ^ (e + fbits)) by (apply Z.mul_pos_pos; lia).
  destruct s; cbn [cond_Zopp] in *; [lia|].
  pose proof (pow2_ulp60 (-53) ltac:(lia)) as EQ. change (2 ^ (-53 + 60)) with (2 ^ 7) in EQ.
  pose proof (pow2_pos (-53 + fbits) ltac:(lia)) as HQ.
  rewrite <- Z.mul_assoc, <- EQ.
  replace (2 ^ 60 * ulp60) with (2 ^ 53 * 2 ^ (-53 + fbits)) in H
    by (rewrite EQ; change (2 ^ 60) with (2 ^ 53 * 2 ^ 7); ring).
  destruct (Z.le_gt_cases (-53) e) as [He|He].
  - replace (e + fbits) with ((e + 53) + (-53 + fbits)) in * by lia.
    rewrite (pow2_split (e + 53) (-53 + fbits)) in * by lia.
    rewrite Z.mul_assoc in *.
    apply Z.mul_lt_mono_pos_r in H; [|exact HQ].
    apply Z.mul_le_mono_nonneg_r; lia.
  - pose proof (pow2_le (e + fbits) (-53 + fbits) ltac:(lia)).
    apply Z.mul_le_mono_nonneg; lia.
Qed.

(** ** The height formula in binary64 *)

Lemma val_infinity : val infinity = Omega.
Proof. reflexivity. Qed.

(** [Number.isFinite], written with the comparisons of the floats. *)
Lemma isFinite_finite (s : float) : (abs s <? infinity)%float = true -> finite s.
Proof.
  intros H. apply ltb_true in H as (Na & _ & Hlt). apply abs_val in Na as [Ns Ea].
  rewrite Ea, val_infinity in Hlt. now apply bounded_finite.
Qed.

(** [7.6 - 8.3 * s] for a scale of magnitude at most [2^50]. *)
Lemma base_bounded (s : float) :
  (abs s <=? 1125899906842624)%float = true ->
  finite (7.6 - 8.3 * s)%float
  /\ Z.abs (val (7.6 - 8.3 * s)%float) <= 5 * 2 ^ 111 * ulp60.
Proof.
  intros H. apply leb_true in H as (Na & _ & Hle). apply abs_val in Na as [Ns Ea].
  rewrite Ea in Hle. float_const 1125899906842624%float F50 V50. rewrite V50 in Hle.
  pose proof Omega_ulp60 as HO. pose proof ulp60_pos as Hu.
  assert (Fs : finite s) by (apply bounded_finite; [exact Ns | lia]).
  destruct (mul_units_l 8.3 s eq_refl Fs) as (Nb & v & Hv & Eb).
  let k := eval vm_compute in (units 8.3) in change (units 8.3) with k in Hv.
  assert (Hup : RN v <= 9 * 2 ^ 110 * ulp60)
    by (apply (RN_le_grid v (9 * 2 ^ 110) 110); [lia | reflexivity | reflexivity | lia]).
  assert (Hlo : - (9 * 2 ^ 110) * ulp60 <= RN v)
    by (apply (RN_ge_grid v (- (9 * 2 ^ 110)) 110); [lia | reflexivity | reflexivity | lia]).
  rewrite clamp_id in Eb by lia.
  assert (Fb : finite (8.3 * s)%float) by (apply bounded_finite; [exact Nb | lia]).
  float_const 7.6%float F76 V76.
  destruct (sub_val 7.6 (8.3 * s)%float F76 Fb) as [Nd Ed].
  set (x := val 7.6%float - val (8.3 * s)%float) in *.
  assert (Hup' : RN x <= 5 * 2 ^ 111 * ulp60)
    by (apply (RN_le_grid x (5 * 2 ^ 111) 111); [lia | reflexivity | reflexivity | lia]).
  assert (Hlo' : - (5 * 2 ^ 111) * ulp60 <= RN x)
    by (apply (RN_ge_grid x (- (5 * 2 ^ 111)) 111); [lia | reflexivity | reflexivity | lia]).
  rewrite clamp_id in Ed by lia.
  split; [apply bounded_finite; [exact Nd | lia] | lia].
Qed.

(** [7.6 - 8.3 * s] is never NaN for a finite scale. *)
Lemma base_notnan (s : float) : finite s -> notnan (7.6 - 8.3 * s)%float.
Proof.
  intros Fs. destruct (mul_units_l 8.3 s eq_refl Fs) as (Nb & _).
  apply sub_notnan; [apply (val_units 7.6%float eq_refl) | exact Nb].
Qed.

(** The two bounds of the band, [a - 3 * 2.0] and [a - 3 * -2.0]. *)
Lemma band_ordered (a : float) :
  notnan a -> (a - 3 * 2.0 <=? a - 3 * -2.0)%float = true.
Proof.
  intros Ha. float_const (3 * 2.0)%float Fp Vp. float_const (3 * -2.0)%float Fm Vm.
  pose proof ulp60_pos as Hu.
  destruct (sub_mono_r_any a (3 * -2.0)%float (3 * 2.0)%float Ha Fm Fp ltac:(lia))
    as (N1 & N2 & Hle).
  rewrite leb_val by assumption. now apply Z.leb_le.
Qed.

Lemma band_strict (a : float) :
  finite a -> Z.abs (val a) <= 5 * 2 ^ 111 * ulp60 ->
  (a - 3 * 2.0 <? a - 3 * -2.0)%float = true.
Proof.
  intros Fa Ba. float_const (3 * 2.0)%float Fp Vp. float_const (3 * -2.0)%float Fm Vm.
  pose proof ulp60_pos as Hu.
  destruct (sub_near a (3 * 2.0)%float Fa Fp ltac:(lia)) as [F1 E1].
  destruct (sub_near a (3 * -2.0)%float Fa Fm ltac:(lia)) as [F2 E2].
  rewrite ltb_val by (now apply finite_notnan). apply Z.ltb_lt. lia.
Qed.

(** No clamping: a height beyond [2.0] gives a value at or beyond the
    bound, strictly beyond it from [3.0] on. *)
Lemma above_band (a h : float) :
  finite a -> (2 <? h)%float = true -> (a - 3 * h <=? a - 3 * 2.0)%float = true.
Proof.
  intros Fa H. apply ltb_true in H as (N2 & Nh & Hlt).
  destruct (mul_mono_l 3 2 h eq_refl eq_refl N2 Nh ltac:(lia)) as (M1 & M2 & Hm).
  destruct (sub_mono_r a (3 * 2)%float (3 * h)%float Fa M1 M2 Hm) as (S1 & S2 & Hs).
  rewrite leb_val by assumption. now apply Z.leb_le.
Qed.

Lemma below_band (a h : float) :
  finite a -> (h <? -2)%float = true -> (a - 3 * -2.0 <=? a - 3 * h)%float = true.
Proof.
  intros Fa H. apply ltb_true in H as (Nh & N2 & Hlt).
  destruct (mul_mono_l 3 h (-2) eq_refl eq_refl Nh N2 ltac:(lia)) as (M1 & M2 & Hm).
  destruct (sub_mono_r a (3 * h)%float (3 * -2)%float Fa M1 M2 Hm) as (S1 & S2 & Hs).
  rewrite leb_val by assumption. now apply Z.leb_le.
Qed.

Lemma above_band_strict (a h : float) :
  finite a -> Z.abs (val a) <= 5 * 2 ^ 111 * ulp60 ->
  (3 <=? h)%float = true -> (a - 3 * h <? a - 3 * 2.0)%float = true.
Proof.
  intros Fa Ba H. apply leb_true in H as (N3 & Nh & Hle).
  destruct (mul_mono_l 3 3 h eq_refl eq_refl N3 Nh Hle) as (M1 & M2 & Hm).
  destruct (sub_mono_r a (3 * 3)%float (3 * h)%float Fa M1 M2 Hm) as (S1 & S2 & Hs).
  float_const (3 * 2.0)%float Fp Vp. float_const (3 * 3)%float Fq Vq.
  pose proof ulp60_pos as Hu.
  destruct (sub_near a (3 * 2.0)%float Fa Fp ltac:(lia)) as [F1 E1].
  destruct (sub_near a (3 * 3)%float Fa Fq ltac:(lia)) as [F2 E2].
  rewrite ltb_val by (auto using finite_notnan). apply Z.ltb_lt. lia.
Qed.

Lemma below_band_strict (a h : float) :
  finite a -> Z.abs (val a) <= 5 * 2 ^ 111 * ulp60 ->
  (h <=? -3)%float = true -> (a - 3 * -2.0 <? a - 3 * h)%float = true.
Proof.
  intros Fa Ba H. apply leb_true in H as (Nh & N3 & Hle).
  destruct (mul_mono_l 3 h (-3) eq_refl eq_refl Nh N3 Hle) as (M1 & M2 & Hm).
  destruct (sub_mono_r a (3 * h)%float (3 * -3)%float Fa M1 M2 Hm) as (S1 & S2 & Hs).
  float_const (3 * -2.0)%float Fp Vp. float_const (3 * -3)%float Fq Vq.
  pose proof ulp60_pos as Hu.
  destruct (sub_near a (3 * -2.0)%float Fa Fp ltac:(lia)) as [F1 E1].
  destruct (sub_near a (3 * -3)%float Fa Fq ltac:(lia)) as [F2 E2].
  rewrite ltb_val by (auto using finite_notnan). apply Z.ltb_lt. lia.
Qed.

(** The simulated height [random * 4.0 - 2.0] for [0 <= random < 1]. *)
Lemma random_height_range (r : float) :
  (0 <=? r)%float = true -> (r <? 1)%float = true ->
  (-2 <=? r * 4.0 - 2.0)%float = true /\ (r * 4.0 - 2.0 <? 2)%float = true.
Proof.
  intros H0 H1. apply leb_true in H0 as (N0 & Nr & Hge). apply ltb_true in H1 as (_ & N1 & Hlt).
  float_const 0%float F0 V0. float_const 1%float F1 V1. rewrite V0 in Hge. rewrite V1 in Hlt.
  pose proof Omega_ulp60 as HO. pose proof ulp60_pos as Hu.
  assert (Fr : finite r) by (apply bounded_finite; [exact Nr | lia]).
  pose proof (below_one r Fr Hlt) as Hr.
  destruct (mul_units_r r 4.0 Fr eq_refl) as (Nm & v & Hv & Em).
  let k := eval vm_compute in (units 4.0) in change (units 4.0) with k in Hv.
  assert (Hup : RN v <= (2 ^ 53 - 1) * 2 ^ 9 * ulp60)
    by (apply (RN_le_grid v ((2 ^ 53 - 1) * 2 ^ 9) 9); [lia | reflexivity | reflexivity | lia]).
  assert (Hlo : 0 * ulp60 <= RN v)
    by (apply (RN_ge_grid v 0 0); [lia | reflexivity | reflexivity | lia]).
  rewrite clamp_id in Em by lia.
  assert (Fm : finite (r * 4.0)%float) by (apply bounded_finite; [exact Nm | lia]).
  float_const 2.0%float F2 V2.
  destruct (sub_val (r * 4.0)%float 2.0 Fm F2) as [Nd Ed].
  set (x := val (r * 4.0)%float - val 2.0%float) in *.
  assert (Hup' : RN x <= (2 ^ 52 - 1) * 2 ^ 9 * ulp60)
    by (apply (RN_le_grid x ((2 ^ 52 - 1) * 2 ^ 9) 9); [lia | reflexivity | reflexivity | lia]).
  assert (Hlo' : - 2 ^ 61 * ulp60 <= RN x)
    by (apply (RN_ge_grid x (- 2 ^ 61) 61); [lia | reflexivity | reflexivity | lia]).
  rewrite clamp_id in Ed by lia.
  float_const (-2)%float Fn Vn.
  split.
  - rewrite leb_val by (auto using finite_notnan). apply Z.leb_le. lia.
  - rewrite ltb_val by (auto using finite_notnan). apply Z.ltb_lt. lia.
Qed.

(** ** The formula of the result record (lines 847-849) *)

Local Open Scope float_scope.

Section FormulaClaims.

Variable Math_pow : float -> float -> float.

(** A successful run has decoded the block and extracted both fields, and
    its record is filled from them. *)
Lemma success_shape (rawData : jsstring) (w : World) (r : CalculationResult) :
  fst (decodeAndCalculate Math_pow rawData w) = Success r ->
  exists text h s,
    atob (candidateBlock rawData) = Some text
    /\ extractHeight text = inl h
    /\ extractScale Math_pow text = inl s
    /\ r = mkResult (7.6 - 8.3 * s - 3 * h) (7.6 - 8.3 * s - 3 * 2.0)
                    (7.6 - 8.3 * s - 3 * -2.0) s (clock w) [] (mkRawFields h s).
Proof.
  rewrite decodeAndCalculate_unfold.
  destruct (indexOf rawData startMarker =? -1)%Z; [discriminate|]. cbv zeta.
  destruct (atob (candidateBlock rawData)) as [text|]; [|discriminate].
  destruct (extractHeight text) as [h|k] eqn:Eh; [|discriminate].
  destruct (extractScale Math_pow text) as [s|k] eqn:Es; [|discriminate].
  cbn [fst]. intros E. injection E as <-. now exists text, h, s.
Qed.

(** C1 (amended): a successful run returns
    [current = 7.6 - 8.3*s - 3*h], [shortest = 7.6 - 8.3*s - 3*(-2.0)] and
    [tallest = 7.6 - 8.3*s - 3*2.0] for the extracted height [h] and scale
    [s], in binary64; [shortest] and [tallest] are the same for two runs
    with the same scale.  No clamping is applied: for a scale of magnitude
    at most 2^50 (the literal 1125899906842624), a height above 2.0 gives
    [current <= tallest] and a height below -2.0 gives
    [shortest <= current], strictly from 3.0 and -3.0 on.  (The
    inequalities are not strict in general: the subtractions round.) *)
Theorem formula_without_clamp (rawData : jsstring) (w : World) (r : CalculationResult) :
  fst (decodeAndCalculate Math_pow rawData w) = Success r ->
  let h := height_raw (json r) in
  let s := scale_raw (json r) in
  (exists text,
      atob (candidateBlock rawData) = Some text
      /\ extractHeight text = inl h /\ extractScale Math_pow text = inl s)
  /\ scale r = s
  /\ current r = 7.6 - 8.3 * s - 3 * h
  /\ shortest r = 7.6 - 8.3 * s - 3 * -2.0
  /\ tallest r = 7.6 - 8.3 * s - 3 * 2.0
  /\ (forall rawData' w' r',
        fst (decodeAndCalculate Math_pow rawData' w') = Success r' ->
        scale r' = scale r -> shortest r' = shortest r /\ tallest r' = tallest r)
  /\ ((abs s <=? 1125899906842624) = true ->
      ((2 <? h) = true -> (current r <=? tallest r) = true)
      /\ ((h <? -2) = true -> (shortest r <=? current r) = true)
      /\ ((3 <=? h) = true -> (current r <? tallest r) = true)
      /\ ((h <=? -3) = true -> (shortest r <? current r) = true)).
Proof.
  intros H. destruct (success_shape _ _ _ H) as (text & h & s & Ha & Eh & Es & ->).
  cbn [height_raw scale_raw json scale current shortest tallest]. cbv zeta.
  split; [now exists text|]. do 4 (split; [reflexivity|]). split.
  - intros rawData' w' r' H' E.
    destruct (success_shape _ _ _ H') as (text' & h' & s' & _ & _ & _ & ->).
    cbn [scale shortest tallest] in *. now rewrite E.
  - intros Hs. destruct (base_bounded s Hs) as [Fa Ba]. repeat split.
    + now apply above_band.
    + now apply below_band.
    + now apply above_band_strict.
    + now apply below_band_strict.
Qed.

(** C4 (amended): in a successful result [shortest] and [tallest] are
    [7.6 - 8.3*s - 3*(-2.0)] and [7.6 - 8.3*s - 3*2.0]; for every finite
    scale [tallest <= shortest], and [tallest < shortest] strictly when the
    scale has magnitude at most 2^50 (the literal 1125899906842624). *)
Theorem shortest_above_tallest (rawData : jsstring) (w : World) (r : CalculationResult) :
  fst (decodeAndCalculate Math_pow rawData w) = Success r ->
  shortest r = 7.6 - 8.3 * scale r - 3 * -2.0
  /\ tallest r = 7.6 - 8.3 * scale r - 3 * 2.0
  /\ ((abs (scale r) <? infinity) = true -> (tallest r <=? shortest r) = true)
  /\ ((abs (scale r) <=? 1125899906842624) = true -> (tallest r <? shortest r) = true).
Proof.
  intros H. destruct (success_shape _ _ _ H) as (text & h & s & _ & _ & _ & ->).
  cbn [scale shortest tallest]. do 2 (split; [reflexivity|]). split.
  - intros Hs. apply band_ordered, base_notnan, isFinite_finite, Hs.
  - intros Hs. destruct (base_bounded s Hs) as [Fa Ba]. now apply band_strict.
Qed.

End FormulaClaims.

(** *** Concrete runs *)

Definition tall_plaintext : jsstring := quoted "'body':{'height: 3','scale':0.5}".

Definition tall_payload : jsstring := btoa tall_plaintext.

Definition large_scale_plaintext : jsstring :=
  quoted "'body':{'height: 3','scale':100000000000000000.0}".

Definition large_scale_payload : jsstring := btoa large_scale_plaintext.

Lemma formula_without_clamp_witness :
  exists r,
    fst (decodeAndCalculate Math_pow_ref tall_payload world0) = Success r
    /\ height_raw (json r) = 3
    /\ scale_raw (json r) = 0.5
    /\ current r = 7.6 - 8.3 * 0.5 - 3 * 3
    /\ (current r <? tallest r) = true.
Proof.
  destruct (fst (decodeAndCalculate Math_pow_ref tall_payload world0)) as [r|k] eqn:E;
    [|vm_compute in E; discriminate E].
  exists r. split; [reflexivity|].
  destruct (formula_without_clamp Math_pow_ref tall_payload world0 r E)
    as (_ & _ & Hc & _ & _ & _ & Hb).
  vm_compute in E. injection E as <-.
  split; [reflexivity|]. split; [reflexivity|]. split; [exact Hc|].
  apply Hb; reflexivity.
Defined.

(** C1 as stated fails: with the height 3 and the scale 1e17 the run
    succeeds and [current], [tallest] and [shortest] are the same double,
    so a height outside [-2.0, 2.0] gave a value inside the band. *)
Lemma current_inside_band_at_large_scale :
  exists r,
    fst (decodeAndCalculate Math_pow_ref large_scale_payload world0) = Success r
    /\ height_raw (json r) = 3
    /\ scale_raw (json r) = 100000000000000000
    /\ (2 <? height_raw (json r)) = true
    /\ current r = 7.6 - 8.3 * 100000000000000000 - 3 * 3
    /\ current r = tallest r
    /\ current r = shortest r
    /\ (tallest r <=? current r) = true
    /\ (current r <=? shortest r) = true.
Proof. eexists. split; [vm_compute; reflexivity|]. repeat split; vm_compute; reflexivity. Qed.

Lemma shortest_above_tallest_witness :
  exists r,
    fst (decodeAndCalculate Math_pow_ref tall_payload world0) = Success r
    /\ (abs (scale r) <=? 1125899906842624) = true
    /\ (tallest r <? shortest r) = true.
Proof.
  destruct (fst (decodeAndCalculate Math_pow_ref tall_payload world0)) as [r|k] eqn:E;
    [|vm_compute in E; discriminate E].
  exists r. split; [reflexivity|].
  destruct (shortest_above_tallest Math_pow_ref tall_payload world0 r E) as (_ & _ & _ & Hb).
  vm_compute in E. injection E as <-.
  split; [reflexivity|]. apply Hb; reflexivity.
Defined.

(** C4 as stated fails: the scale 1e17 is finite, the run succeeds, and
    [shortest] and [tallest] are the same double. *)
Lemma shortest_equals_tallest_at_large_scale :
  exists r,
    fst (decodeAndCalculate Math_pow_ref large_scale_payload world0) = Success r
    /\ scale r = 100000000000000000
    /\ (abs (scale r) <? infinity) = true
    /\ shortest r = 7.6 - 8.3 * 100000000000000000 - 3 * -2.0
    /\ tallest r = 7.6 - 8.3 * 100000000000000000 - 3 * 2.0
    /\ shortest r = tallest r
    /\ (tallest r <? shortest r) = false.
Proof. eexists. split; [vm_compute; reflexivity|]. repeat split; vm_compute; reflexivity. Qed.

(** ** The potion simulator *)

Section SimulatorClaims.

Variable translations : string -> option string.

(** C9: without a prior result [handlePotionDrink] raises the alert
    [t('sim_error_no_calc')], switches to the measure tab and leaves the
    simulated result, the notice and the counter as they were.  With a
    prior result of scale [s] it computes the height
    [h = random * 4.0 - 2.0] from the value [random] of [Math.random()],
    which lies in [-2.0, 2.0) when [0 <= random < 1], stores
    [7.6 - 8.3*s - 3*h] and adds one to the counter; the stored result and
    the notice depend on the prior result and on [random] only, not on the
    rest of the state. *)
Theorem potion_drink_needs_result (random : float) (st : AppState) :
  let st' := handlePotionDrink translations random st in
  (lastResult st = None ->
   alerts st' = alerts st ++ [t translations "sim_error_no_calc"]
   /\ activeTab st' = TabMeasure
   /\ simResult st' = simResult st
   /\ simExtremeNotice st' = simExtremeNotice st
   /\ potionCount st' = potionCount st
   /\ lastResult st' = None)
  /\ (forall last, lastResult st = Some last ->
      let h := random * 4.0 - 2.0 in
      simResult st' = Some (7.6 - 8.3 * scale last - 3 * h)
      /\ potionCount st' = potionCount st + 1
      /\ alerts st' = alerts st
      /\ activeTab st' = activeTab st
      /\ lastResult st' = Some last
      /\ ((0 <=? random) = true -> (random <? 1) = true ->
          (-2 <=? h) = true /\ (h <? 2) = true)
      /\ (forall st2, lastResult st2 = Some last ->
          simResult (handlePotionDrink translations random st2) = simResult st'
          /\ simExtremeNotice (handlePotionDrink translations random st2)
             = simExtremeNotice st')).
Proof.
  cbv zeta. unfold handlePotionDrink. split.
  - intros E. rewrite E. cbn. repeat split; reflexivity.
  - intros last E. rewrite E. cbn [simResult potionCount alerts activeTab lastResult].
    do 5 (split; [reflexivity|]). split.
    + apply random_height_range.
    + intros st2 E2. rewrite E2. split; reflexivity.
Qed.

End SimulatorClaims.

Definition sim_last : CalculationResult :=
  mkResult 3.45 (-2.55) 9.45 0.5 1700000000000%Z [] (mkRawFields 0 0.5).

Definition sim_state (last : option CalculationResult) : AppState :=
  mkApp TabSim last 0 None EmptyString [].

Lemma potion_drink_needs_result_witness :
  alerts (handlePotionDrink (fun _ => None) 0.25 (sim_state None))
  = ["sim_error_no_calc"%string]
  /\ simResult (handlePotionDrink (fun _ => None) 0.25 (sim_state None)) = None
  /\ simResult (handlePotionDrink (fun _ => None) 0.25 (sim_state (Some sim_last)))
     = Some (7.6 - 8.3 * 0.5 - 3 * (0.25 * 4.0 - 2.0))
  /\ potionCount (handlePotionDrink (fun _ => None) 0.25 (sim_state (Some sim_last))) = 1
  /\ (-2 <=? 0.25 * 4.0 - 2.0) = true
  /\ (0.25 * 4.0 - 2.0 <? 2) = true.
Proof.
  destruct (potion_drink_needs_result (fun _ => None) 0.25 (sim_state None)) as [H1 _].
  destruct (H1 eq_refl) as (Ha & _ & Hr & _).
  destruct (potion_drink_needs_result (fun _ => None) 0.25 (sim_state (Some sim_last)))
    as [_ H2].
  destruct (H2 sim_last eq_refl) as (Hs & Hc & _ & _ & _ & Hrange & _).
  destruct (Hrange eq_refl eq_refl) as [Hlo Hhi].
  split; [exact Ha|]. split; [exact Hr|]. split; [exact Hs|]. split; [exact Hc|].
  split; [exact Hlo | exact Hhi].
Defined.

(** The lower end of the range is reached when [Math.random()] returns 0,
    where the notice for an extremely short result is set; just below 1 the
    height is the largest double below 2.0. *)
Example potion_drink_range_ends :
  (0 * 4.0 - 2.0 =? -2) = true
  /\ simExtremeNotice (handlePotionDrink (fun _ => None) 0 (sim_state (Some sim_last)))
     = "sim_extreme_short"%string
  /\ (0.99999999999999989 * 4.0 - 2.0 =? 1.9999999999999996) = true
  /\ simExtremeNotice
       (handlePotionDrink (fun _ => None) 0.99999999999999989 (sim_state (Some sim_last)))
     = "sim_extreme_tall"%string.
Proof. repeat split; reflexivity. Qed.

Local Close Scope float_scope.

(** * Well-formed payloads: the base64 stages undo the standard encodings *)

(** ** Definitions *)

(** The base64 encoding without the padding. *)
Fixpoint btoa_unpadded (s : jsstring) : jsstring :=
  match s with
  | x :: y :: z :: s' =>
      let n := Z.lor (Z.lor (Z.shiftl (code x) 16) (Z.shiftl (code y) 8)) (code z) in
      b64_char (Z.shiftr n 18) :: b64_char (Z.land (Z.shiftr n 12) 63)
        :: b64_char (Z.land (Z.shiftr n 6) 63) :: b64_char (Z.land n 63) :: btoa_unpadded s'
  | [x; y] =>
      let n := Z.shiftl (Z.lor (Z.shiftl (code x) 8) (code y)) 2 in
      [b64_char (Z.shiftr n 12); b64_char (Z.land (Z.shiftr n 6) 63); b64_char (Z.land n 63)]
  | [x] =>
      let n := Z.shiftl (code x) 4 in
      [b64_char (Z.shiftr n 6); b64_char (Z.land n 63)]
  | [] => []
  end.

Definition standard_to_url (c : ascii) : ascii :=
  if Ascii.eqb c "+" then "-"%char
  else if Ascii.eqb c "/" then "_"%char
  else c.

(** The URL-safe encoding of RFC 4648, section 5, without padding: the
    form the normaliser of lines 795-799 is written for. *)
Definition base64url (s : jsstring) : jsstring := map standard_to_url (btoa_unpadded s).

(** The key that every payload of the application starts with, [Qbody Q]
    with [Q] the double quote; its encoding is the anchor. *)
Definition bodyKey : jsstring := dquote :: lit "body" ++ [dquote].

(** What the pipeline does once the plaintext is known: lines 802-864. *)
Definition derive (Math_pow : float -> float -> float) (plaintext : jsstring) (now : Z)
  : Output :=
  match extractHeight plaintext with
  | inr k => Failure k
  | inl height =>
      match extractScale Math_pow plaintext with
      | inr k => Failure k
      | inl scale =>
          Success (mkResult (7.6 - 8.3 * scale - 3 * height)%float
                            (7.6 - 8.3 * scale - 3 * 2.0)%float
                            (7.6 - 8.3 * scale - 3 * -2.0)%float
                            scale now [] (mkRawFields height scale))
      end
  end.

(** ** Bytes and sextets *)

Lemma triple_ind {A} (P : list A -> Prop) :
  P [] -> (forall x, P [x]) -> (forall x y, P [x; y]) ->
  (forall x y z s, P s -> P (x :: y :: z :: s)) ->
  forall s, P s.
Proof.
  intros H0 H1 H2 H3 s.
  assert (H : P s /\ (forall a, P (a :: s)) /\ (forall a b, P (a :: b :: s))).
  { induction s as [|c s (IH0 & IH1 & IH2)]; [now auto|].
    split; [apply IH1|]. split; [intros a; apply IH2|]. intros a b. now apply H3. }
  apply H.
Qed.

Lemma code_range (c : ascii) : 0 <= code c < 256.
Proof.
  unfold code. pose proof (N_ascii_bounded c). lia.
Qed.

Lemma chr_code (c : ascii) : chr (code c) = c.
Proof. unfold chr, code. rewrite N2Z.id. apply ascii_N_embedding. Qed.

Lemma code_chr (n : Z) : 0 <= n < 256 -> code (chr n) = n.
Proof. intros H. unfold chr, code. rewrite N_ascii_embedding by lia. lia. Qed.

Lemma lor_shiftl_add (a b k : Z) :
  0 <= k -> 0 <= b < 2 ^ k -> Z.lor (Z.shiftl a k) b = a * 2 ^ k + b.
Proof.
  intros Hk Hb. rewrite <- Z.shiftl_mul_pow2 by lia.
  rewrite <- Z.add_lor_land.
  assert (E : Z.land (Z.shiftl a k) b = 0).
  { apply Z.bits_inj'. intros n Hn. rewrite Z.land_spec, Z.bits_0.
    destruct (Z.lt_ge_cases n k) as [H|H].
    - rewrite Z.shiftl_spec_low by lia. reflexivity.
    - rewrite <- (Z.mod_small b (2 ^ k)) by lia.
      rewrite Z.mod_pow2_bits_high by lia. apply andb_false_r. }
  rewrite E. lia.
Qed.

Lemma sextet_cases (P : Z -> Prop) :
  (forall n : nat, (n < 64)%nat -> P (Z.of_nat n)) -> forall v, 0 <= v < 64 -> P v.
Proof. intros H v Hv. rewrite <- (Z2Nat.id v) by lia. apply H. lia. Qed.

Lemma b64_value_char (v : Z) : 0 <= v < 64 -> b64_value (b64_char v) = Some v.
Proof.
  revert v. apply sextet_cases. intros n Hn.
  do 64 (destruct n as [|n]; [reflexivity|]). lia.
Qed.

Lemma b64_char_plain (v : Z) :
  0 <= v < 64 ->
  is_ascii_whitespace (b64_char v) = false
  /\ Ascii.eqb (b64_char v) "=" = false
  /\ url_to_standard (standard_to_url (b64_char v)) = b64_char v
  /\ url_to_standard (b64_char v) = b64_char v.
Proof.
  revert v. apply sextet_cases. intros n Hn.
  do 64 (destruct n as [|n]; [repeat split; reflexivity|]). lia.
Qed.

Lemma land_63 (n : Z) : Z.land n 63 = n mod 64.
Proof. change 63 with (Z.ones 6). now rewrite Z.land_ones by lia. Qed.

Lemma land_255 (n : Z) : Z.land n 255 = n mod 256.
Proof. change 255 with (Z.ones 8). now rewrite Z.land_ones by lia. Qed.

Lemma pack3 (a b c : Z) :
  0 <= b < 256 -> 0 <= c < 256 ->
  Z.lor (Z.lor (Z.shiftl a 16) (Z.shiftl b 8)) c = a * 65536 + b * 256 + c.
Proof.
  intros Hb Hc. change 16 with (8 + 8). rewrite <- Z.shiftl_shiftl by lia.
  rewrite <- Z.shiftl_lor. rewrite (lor_shiftl_add a b 8) by (simpl; lia).
  rewrite lor_shiftl_add by (simpl; lia). change (2 ^ 8) with 256. lia.
Qed.

Lemma pack4 (a b c d : Z) :
  0 <= b < 64 -> 0 <= c < 64 -> 0 <= d < 64 ->
  Z.lor (Z.lor (Z.shiftl a 18) (Z.shiftl b 12)) (Z.lor (Z.shiftl c 6) d)
  = a * 262144 + b * 4096 + c * 64 + d.
Proof.
  intros Hb Hc Hd. change 18 with (6 + 12). rewrite <- Z.shiftl_shiftl by lia.
  rewrite <- Z.shiftl_lor. rewrite (lor_shiftl_add a b 6) by (simpl; lia).
  rewrite (lor_shiftl_add c d 6) by (simpl; lia).
  rewrite lor_shiftl_add by (simpl; lia). change (2 ^ 6) with 64. change (2 ^ 12) with 4096. lia.
Qed.

Lemma pack3_sextets (a b c : Z) :
  0 <= b < 64 -> 0 <= c < 64 ->
  Z.lor (Z.lor (Z.shiftl a 12) (Z.shiftl b 6)) c = a * 4096 + b * 64 + c.
Proof.
  intros Hb Hc. change 12 with (6 + 6). rewrite <- Z.shiftl_shiftl by lia.
  rewrite <- Z.shiftl_lor. rewrite (lor_shiftl_add a b 6) by (simpl; lia).
  rewrite lor_shiftl_add by (simpl; lia). change (2 ^ 6) with 64. lia.
Qed.

(** Three bytes make four sextets, which decode to the three bytes. *)
Lemma triple_round_trip (x y z : ascii) :
  let n := Z.lor (Z.lor (Z.shiftl (code x) 16) (Z.shiftl (code y) 8)) (code z) in
  let a := Z.shiftr n 18 in
  let b := Z.land (Z.shiftr n 12) 63 in
  let c := Z.land (Z.shiftr n 6) 63 in
  let d := Z.land n 63 in
  let m := Z.lor (Z.lor (Z.shiftl a 18) (Z.shiftl b 12)) (Z.lor (Z.shiftl c 6) d) in
  (0 <= a < 64 /\ 0 <= b < 64 /\ 0 <= c < 64 /\ 0 <= d < 64)
  /\ chr (Z.shiftr m 16) = x /\ chr (Z.land (Z.shiftr m 8) 255) = y /\ chr (Z.land m 255) = z.
Proof.
  intros n a b c d m.
  pose proof (code_range x) as Hx. pose proof (code_range y) as Hy.
  pose proof (code_range z) as Hz.
  assert (En : n = code x * 65536 + code y * 256 + code z) by (apply pack3; lia).
  assert (Ea : a = n / 262144) by (unfold a; now rewrite Z.shiftr_div_pow2 by lia).
  assert (Eb : b = (n / 4096) mod 64) by (unfold b; now rewrite land_63, Z.shiftr_div_pow2 by lia).
  assert (Ec : c = (n / 64) mod 64) by (unfold c; now rewrite land_63, Z.shiftr_div_pow2 by lia).
  assert (Ed : d = n mod 64) by (unfold d; now rewrite land_63).
  assert (R : 0 <= a < 64 /\ 0 <= b < 64 /\ 0 <= c < 64 /\ 0 <= d < 64).
  { rewrite Ea, Eb, Ec, Ed. repeat split; Z.div_mod_to_equations; lia. }
  split; [exact R|]. destruct R as (Ra & Rb & Rc & Rd).
  assert (Em : m = n).
  { unfold m. rewrite pack4 by lia. rewrite Ea, Eb, Ec, Ed. Z.div_mod_to_equations. lia. }
  rewrite Em, land_255, land_255, !Z.shiftr_div_pow2 by lia.
  change (2 ^ 16) with 65536. change (2 ^ 8) with 256.
  replace (n / 65536) with (code x) by (Z.div_mod_to_equations; lia).
  replace ((n / 256) mod 256) with (code y) by (Z.div_mod_to_equations; lia).
  replace (n mod 256) with (code z) by (Z.div_mod_to_equations; lia).
  rewrite (chr_code x), (chr_code y), (chr_code z). repeat split; reflexivity.
Qed.

(** Two bytes make three sextets. *)
Lemma pair_round_trip (x y : ascii) :
  let n := Z.shiftl (Z.lor (Z.shiftl (code x) 8) (code y)) 2 in
  let a := Z.shiftr n 12 in
  let b := Z.land (Z.shiftr n 6) 63 in
  let c := Z.land n 63 in
  let m := Z.shiftr (Z.lor (Z.lor (Z.shiftl a 12) (Z.shiftl b 6)) c) 2 in
  (0 <= a < 64 /\ 0 <= b < 64 /\ 0 <= c < 64)
  /\ chr (Z.shiftr m 8) = x /\ chr (Z.land m 255) = y.
Proof.
  intros n a b c m.
  pose proof (code_range x) as Hx. pose proof (code_range y) as Hy.
  assert (En : n = (code x * 256 + code y) * 4).
  { unfold n. rewrite Z.shiftl_mul_pow2, lor_shiftl_add by (simpl; lia).
    change (2 ^ 8) with 256. change (2 ^ 2) with 4. lia. }
  assert (Ea : a = n / 4096) by (unfold a; now rewrite Z.shiftr_div_pow2 by lia).
  assert (Eb : b = (n / 64) mod 64) by (unfold b; now rewrite land_63, Z.shiftr_div_pow2 by lia).
  assert (Ec : c = n mod 64) by (unfold c; now rewrite land_63).
  assert (R : 0 <= a < 64 /\ 0 <= b < 64 /\ 0 <= c < 64).
  { rewrite Ea, Eb, Ec. repeat split; Z.div_mod_to_equations; lia. }
  split; [exact R|]. destruct R as (Ra & Rb & Rc).
  assert (Em : m = code x * 256 + code y).
  { unfold m. rewrite pack3_sextets by lia. rewrite Z.shiftr_div_pow2 by lia.
    change (2 ^ 2) with 4. rewrite Ea, Eb, Ec. Z.div_mod_to_equations. lia. }
  rewrite Em, land_255, Z.shiftr_div_pow2 by lia. change (2 ^ 8) with 256.
  replace ((code x * 256 + code y) / 256) with (code x) by (Z.div_mod_to_equations; lia).
  replace ((code x * 256 + code y) mod 256) with (code y) by (Z.div_mod_to_equations; lia).
  rewrite (chr_code x), (chr_code y). split; reflexivity.
Qed.

(** One byte makes two sextets. *)
Lemma single_round_trip (x : ascii) :
  let n := Z.shiftl (code x) 4 in
  let a := Z.shiftr n 6 in
  let b := Z.land n 63 in
  (0 <= a < 64 /\ 0 <= b < 64)
  /\ chr (Z.shiftr (Z.lor (Z.shiftl a 6) b) 4) = x.
Proof.
  intros n a b. pose proof (code_range x) as Hx.
  assert (En : n = code x * 16).
  { unfold n. rewrite Z.shiftl_mul_pow2 by lia. reflexivity. }
  assert (Ea : a = n / 64) by (unfold a; now rewrite Z.shiftr_div_pow2 by lia).
  assert (Eb : b = n mod 64) by (unfold b; now rewrite land_63).
  assert (R : 0 <= a < 64 /\ 0 <= b < 64).
  { rewrite Ea, Eb. split; Z.div_mod_to_equations; lia. }
  split; [exact R|]. destruct R as (Ra & Rb).
  rewrite lor_shiftl_add by (simpl; lia). rewrite Z.shiftr_div_pow2 by lia.
  change (2 ^ 6) with 64. change (2 ^ 4) with 16.
  replace ((a * 64 + b) / 16) with (code x)
    by (rewrite Ea, Eb; Z.div_mod_to_equations; lia).
  apply chr_code.
Qed.

(** ** The encodings, character by character *)

(** The padding the normaliser adds to a block of length [len]. *)
Definition padding_for (len : Z) : jsstring :=
  if len mod 4 =? 0 then [] else repeat_char "=" (4 - len mod 4).

Definition in_alphabet (c : ascii) : Prop := exists v, 0 <= v < 64 /\ c = b64_char v.

Lemma jslength_cons4 (a b c d : ascii) (u : jsstring) :
  jslength (a :: b :: c :: d :: u) = jslength u + 4.
Proof. unfold jslength. cbn [List.length]. lia. Qed.

Lemma btoa_unpadded_alphabet (s : jsstring) : Forall in_alphabet (btoa_unpadded s).
Proof.
  induction s as [| x | x y | x y z s IH] using triple_ind.
  - constructor.
  - destruct (single_round_trip x) as [(Ra & Rb) _].
    cbn [btoa_unpadded]. repeat constructor; eexists; (split; [|reflexivity]); assumption.
  - destruct (pair_round_trip x y) as [(Ra & Rb & Rc) _].
    cbn [btoa_unpadded]. repeat constructor; eexists; (split; [|reflexivity]); assumption.
  - destruct (triple_round_trip x y z) as [(Ra & Rb & Rc & Rd) _].
    cbn [btoa_unpadded]. repeat (constructor; [eexists; (split; [|reflexivity]); assumption|]).
    exact IH.
Qed.

Lemma btoa_unpadded_length (s : jsstring) : jslength (btoa_unpadded s) mod 4 <> 1.
Proof.
  induction s as [| x | x y | x y z s IH] using triple_ind;
    try (cbn; discriminate).
  cbn [btoa_unpadded]. rewrite jslength_cons4.
  replace ((jslength (btoa_unpadded s) + 4) mod 4) with (jslength (btoa_unpadded s) mod 4)
    by (Z.div_mod_to_equations; lia).
  exact IH.
Qed.

(** [btoa] is the unpadded encoding followed by the normaliser's padding. *)
Lemma btoa_padding (s : jsstring) :
  btoa s = btoa_unpadded s ++ padding_for (jslength (btoa_unpadded s)).
Proof.
  induction s as [| x | x y | x y z s IH] using triple_ind; try reflexivity.
  cbn [btoa btoa_unpadded]. rewrite IH at 1. unfold padding_for.
  rewrite jslength_cons4.
  replace ((jslength (btoa_unpadded s) + 4) mod 4) with (jslength (btoa_unpadded s) mod 4)
    by (Z.div_mod_to_equations; lia).
  reflexivity.
Qed.

Lemma btoa_unpadded_sextets (s : jsstring) :
  exists l, sextets (btoa_unpadded s) = Some l /\ decode_sextets l = s.
Proof.
  induction s as [| x | x y | x y z s IH] using triple_ind.
  - exists []. split; reflexivity.
  - destruct (single_round_trip x) as [(Ra & Rb) E].
    cbn [btoa_unpadded sextets]. rewrite !b64_value_char by assumption.
    eexists. split; [reflexivity|]. cbn [decode_sextets]. now rewrite E.
  - destruct (pair_round_trip x y) as [(Ra & Rb & Rc) (E1 & E2)].
    cbn [btoa_unpadded sextets]. rewrite !b64_value_char by assumption.
    eexists. split; [reflexivity|]. cbn [decode_sextets]. now rewrite E1, E2.
  - destruct (triple_round_trip x y z) as [(Ra & Rb & Rc & Rd) (E1 & E2 & E3)].
    destruct IH as (l & Hl & Hd).
    cbn [btoa_unpadded sextets]. rewrite !b64_value_char by assumption. rewrite Hl.
    eexists. split; [reflexivity|]. cbn [decode_sextets]. now rewrite E1, E2, E3, Hd.
Qed.

Lemma alphabet_not_whitespace (u : jsstring) :
  Forall in_alphabet u -> filter (fun c => negb (is_ascii_whitespace c)) u = u.
Proof.
  induction 1 as [|c u (v & Hv & ->) _ IH]; [reflexivity|].
  cbn [filter]. destruct (b64_char_plain v Hv) as (-> & _). cbn [negb]. now rewrite IH.
Qed.

Lemma alphabet_url_round_trip (u : jsstring) :
  Forall in_alphabet u -> map url_to_standard (map standard_to_url u) = u.
Proof.
  induction 1 as [|c u (v & Hv & ->) _ IH]; [reflexivity|].
  cbn [map]. destruct (b64_char_plain v Hv) as (_ & _ & -> & _). now rewrite IH.
Qed.

Lemma alphabet_last (u : jsstring) (c : ascii) (r : jsstring) :
  Forall in_alphabet u -> rev u = c :: r -> Ascii.eqb c "=" = false.
Proof.
  intros H E. assert (Hin : In c u) by (apply in_rev; rewrite E; now left).
  rewrite Forall_forall in H. destruct (H c Hin) as (v & Hv & ->).
  apply (b64_char_plain v Hv).
Qed.

Lemma strip_padding_padded (u : jsstring) :
  Forall in_alphabet u -> jslength u mod 4 <> 1 ->
  strip_padding (u ++ padding_for (jslength u)) = u.
Proof.
  intros Ha Hl. unfold padding_for, strip_padding.
  assert (Hm : 0 <= jslength u mod 4 < 4) by (apply Z.mod_pos_bound; lia).
  destruct (jslength u mod 4 =? 0) eqn:E0.
  - rewrite app_nil_r. destruct (rev u) as [|a r] eqn:Er; [reflexivity|].
    now rewrite (alphabet_last u a r Ha Er).
  - apply Z.eqb_neq in E0.
    assert (Hc : jslength u mod 4 = 2 \/ jslength u mod 4 = 3) by lia.
    destruct Hc as [-> | ->].
    + change (repeat_char "=" (4 - 2)) with ["="%char; "="%char].
      rewrite rev_app_distr. cbn [rev app]. cbn [Ascii.eqb Bool.eqb]. apply rev_involutive.
    + change (repeat_char "=" (4 - 3)) with ["="%char].
      rewrite rev_app_distr. cbn [rev app]. cbn [Ascii.eqb Bool.eqb].
      destruct (rev u) as [|b r'] eqn:Er.
      * apply (f_equal (@rev ascii)) in Er. rewrite rev_involutive in Er. now rewrite Er.
      * rewrite (alphabet_last u b r' Ha Er). rewrite <- Er. apply rev_involutive.
Qed.

Lemma padding_for_cases (len : Z) :
  padding_for len = [] \/ padding_for len = ["="%char] \/ padding_for len = ["="%char; "="%char]
  \/ padding_for len = ["="%char; "="%char; "="%char].
Proof.
  unfold padding_for. assert (Hm : 0 <= len mod 4 < 4) by (apply Z.mod_pos_bound; lia).
  destruct (len mod 4 =? 0) eqn:E; [now left|]. apply Z.eqb_neq in E.
  assert (Hc : len mod 4 = 1 \/ len mod 4 = 2 \/ len mod 4 = 3) by lia.
  destruct Hc as [-> | [-> | ->]]; auto.
Qed.

Lemma padded_length (u : jsstring) : jslength (u ++ padding_for (jslength u)) mod 4 = 0.
Proof.
  rewrite jslength_app. unfold padding_for.
  assert (Hm : 0 <= jslength u mod 4 < 4) by (apply Z.mod_pos_bound; lia).
  destruct (jslength u mod 4 =? 0) eqn:E.
  - apply Z.eqb_eq in E. change (jslength []) with 0. now rewrite Z.add_0_r.
  - apply Z.eqb_neq in E. rewrite jslength_repeat_char by lia.
    Z.div_mod_to_equations. lia.
Qed.

Lemma btoa_length (s : jsstring) : jslength (btoa s) mod 4 = 0.
Proof. rewrite btoa_padding. apply padded_length. Qed.

Lemma btoa_not_whitespace (s : jsstring) :
  filter (fun c => negb (is_ascii_whitespace c)) (btoa s) = btoa s.
Proof.
  rewrite btoa_padding, filter_app.
  rewrite (alphabet_not_whitespace _ (btoa_unpadded_alphabet s)). f_equal.
  destruct (padding_for_cases (jslength (btoa_unpadded s))) as [-> | [-> | [-> | ->]]];
    reflexivity.
Qed.

Lemma atob_of_btoa (s : jsstring) : atob (btoa s) = Some s.
Proof.
  unfold atob. rewrite btoa_not_whitespace, btoa_length. cbn [Z.eqb].
  rewrite btoa_padding.
  rewrite (strip_padding_padded _ (btoa_unpadded_alphabet s) (btoa_unpadded_length s)).
  pose proof (btoa_unpadded_length s) as Hl. apply Z.eqb_neq in Hl. rewrite Hl.
  destruct (btoa_unpadded_sextets s) as (l & -> & ->). reflexivity.
Qed.

Lemma url_to_standard_alphabet (u : jsstring) :
  Forall in_alphabet u -> map url_to_standard u = u.
Proof.
  induction 1 as [|c u (v & Hv & ->) _ IH]; [reflexivity|].
  cbn [map]. destruct (b64_char_plain v Hv) as (_ & _ & _ & ->). now rewrite IH.
Qed.

Lemma url_to_standard_btoa (s : jsstring) : map url_to_standard (btoa s) = btoa s.
Proof.
  rewrite btoa_padding, map_app.
  rewrite (url_to_standard_alphabet _ (btoa_unpadded_alphabet s)). f_equal.
  destruct (padding_for_cases (jslength (btoa_unpadded s))) as [-> | [-> | [-> | ->]]];
    reflexivity.
Qed.

Lemma normalize_of_encoding (s : jsstring) :
  normalize (base64url s) = btoa s /\ normalize (btoa s) = btoa s.
Proof.
  split.
  - rewrite normalize_shape. unfold base64url. rewrite jslength_map.
    rewrite (alphabet_url_round_trip _ (btoa_unpadded_alphabet s)).
    symmetry. apply btoa_padding.
  - rewrite normalize_shape, url_to_standard_btoa, btoa_length. cbn [Z.eqb].
    apply app_nil_r.
Qed.

(** X1: [atob] undoes [btoa]: decoding the standard encoding of a byte
    string succeeds and gives the bytes back. *)
Theorem atob_btoa (s : jsstring) : atob (btoa s) = Some s.
Proof. exact (atob_of_btoa s). Qed.

(** X2: the normaliser maps the URL-safe unpadded encoding to the standard
    padded one, and leaves the standard padded one as it is. *)
Theorem normalize_base64url (s : jsstring) :
  normalize (base64url s) = btoa s /\ normalize (btoa s) = btoa s.
Proof. exact (normalize_of_encoding s). Qed.

Lemma indexOf_startsWith (s needle : jsstring) :
  startsWith needle s = true -> indexOf s needle = 0.
Proof. unfold indexOf. intros H. destruct s; cbn [indexOf_from]; now rewrite H. Qed.

Section WellFormedPayloads.

Variable Math_pow : float -> float -> float.

(** The outcome and the host calls of a run whose block decodes to
    [plaintext]. *)
Definition decoded_run (block plaintext : jsstring) (w : World) : Output * World :=
  let w1 := emit (EvAtob block) w in
  match derive Math_pow plaintext (clock w) with
  | Success r => (Success r, emit EvDateNow w1)
  | Failure k => (Failure k, w1)
  end.

Lemma run_on_block (rawData plaintext : jsstring) (w : World) :
  indexOf rawData startMarker <> -1 ->
  atob (candidateBlock rawData) = Some plaintext ->
  decodeAndCalculate Math_pow rawData w = decoded_run (candidateBlock rawData) plaintext w.
Proof.
  intros Hi Ha. rewrite decodeAndCalculate_unfold. apply Z.eqb_neq in Hi. rewrite Hi.
  cbv zeta. rewrite Ha. unfold decoded_run, derive.
  destruct (extractHeight plaintext) as [h|k]; [|reflexivity].
  destruct (extractScale Math_pow plaintext) as [s|k]; reflexivity.
Qed.

(** X3: when the text from the anchor on is the standard or the URL-safe
    unpadded encoding of a plaintext, the run hands the standard encoding to
    [atob] and its outcome is that of the extraction stages on the
    plaintext, whatever precedes the anchor. *)
Theorem encoded_payload_is_decoded (rawData plaintext : jsstring) (w : World) :
  indexOf rawData startMarker <> -1 ->
  substring_from rawData (indexOf rawData startMarker) = btoa plaintext
  \/ substring_from rawData (indexOf rawData startMarker) = base64url plaintext ->
  decodeAndCalculate Math_pow rawData w = decoded_run (btoa plaintext) plaintext w.
Proof.
  intros Hi Hs.
  assert (Hb : candidateBlock rawData = btoa plaintext).
  { unfold candidateBlock. destruct Hs as [-> | ->]; apply normalize_of_encoding. }
  rewrite (run_on_block rawData plaintext w Hi); rewrite Hb; [reflexivity | apply atob_of_btoa].
Qed.

(** X4: the text before the first anchor has no influence: the run is the run
    on the text from the anchor on. *)
Theorem prefix_is_ignored (rawData : jsstring) (w : World) :
  decodeAndCalculate Math_pow rawData w =
  if indexOf rawData startMarker =? -1 then (Failure AnchorNotFound, w)
  else decodeAndCalculate Math_pow (substring_from rawData (indexOf rawData startMarker)) w.
Proof.
  destruct (indexOf rawData startMarker =? -1) eqn:E.
  - rewrite decodeAndCalculate_unfold, E. reflexivity.
  - apply Z.eqb_neq in E.
    destruct (indexOf_present rawData startMarker _ eq_refl E) as (_ & (post & Hp) & _).
    assert (H0 : indexOf (substring_from rawData (indexOf rawData startMarker)) startMarker = 0).
    { apply indexOf_startsWith, startsWith_iff. now exists post. }
    rewrite !decodeAndCalculate_unfold. apply Z.eqb_neq in E. rewrite E, H0. cbn [Z.eqb].
    unfold candidateBlock. rewrite H0. reflexivity.
Qed.

End WellFormedPayloads.

(** Every plaintext that starts with the key [Qbody Q] has encodings that
    start with the anchor. *)
Lemma bodyKey_anchor (rest : jsstring) :
  indexOf (btoa (bodyKey ++ rest)) startMarker = 0
  /\ indexOf (base64url (bodyKey ++ rest)) startMarker = 0.
Proof.
  split; apply indexOf_startsWith, startsWith_iff.
  - exists (btoa rest). reflexivity.
  - exists (base64url rest). reflexivity.
Qed.

(** ** C5: the two sample fields in any plaintext *)

Definition height_field : jsstring := quoted "'height: 0.1234'".

Definition scale_field : jsstring := quoted "'scale':1.5e-1".

(** The letters of [key], in any case, occur nowhere in [s]: the pattern
    [/key/i] has no match in [s]. *)
Definition no_key (key : string) (s : jsstring) : Prop :=
  forall pre mk area, s = pre ++ mk ++ area -> ~ same_letters mk (lit key).

Lemma no_key_by_search (key : string) (s : jsstring) :
  js_match s (word_i key) = None <-> no_key key s.
Proof.
  pose proof (key_search key s) as K. split.
  - intros H. rewrite H in K. exact K.
  - intros H. destruct (js_match s (word_i key)) as [m|]; [|reflexivity].
    destruct K as (pre & area & (E & S & _) & _). contradiction (H _ _ _ E S).
Qed.

Lemma same_letters_in (mk l : jsstring) (q : ascii) :
  same_letters mk l -> In q mk -> exists c, In c l /\ upcase q = upcase c.
Proof.
  unfold same_letters. intros H Hin. apply (in_map upcase) in Hin. rewrite H in Hin.
  apply in_map_iff in Hin as (c & Hc & Hin). exists c. auto.
Qed.

(** A character that is no letter of the key stops every occurrence: after
    a text without the key, an occurrence starts behind that character. *)
Lemma boundary_blocks (key : string) (a tail pre mk area : jsstring) (q : ascii) :
  no_key key a ->
  (forall c, In c (lit key) -> upcase q <> upcase c) ->
  a ++ q :: tail = pre ++ mk ++ area -> same_letters mk (lit key) ->
  (List.length a < List.length pre)%nat.
Proof.
  intros Hno Hq E S.
  assert (Hin : ~ In q mk).
  { intros Hin. destruct (same_letters_in _ _ _ S Hin) as (c & Hc & Hu).
    exact (Hq c Hc Hu). }
  destruct (Nat.lt_ge_cases (List.length a) (List.length pre)) as [Hlt|Hge]; [exact Hlt|].
  exfalso. apply app_eq_app in E as (l & [[Ea El] | [Ep El]]).
  - symmetry in El. apply app_eq_app in El as (l2 & [[E1 E2] | [E1 E2]]).
    + subst l. apply (Hno pre mk l2); [|exact S]. exact Ea.
    + destruct l2 as [|x l2].
      * rewrite app_nil_r in E1. subst l. apply (Hno pre mk []); [|exact S].
        now rewrite app_nil_r.
      * injection E2 as <- _. apply Hin. rewrite E1. apply in_or_app. right. now left.
  - assert (l = []).
    { apply (f_equal (@List.length ascii)) in Ep. rewrite length_app in Ep.
      destruct l; [reflexivity | cbn [List.length] in Ep; lia]. }
    subst l. cbn [app] in El. destruct mk as [|x mk].
    + apply (Hno a [] []); [now rewrite app_nil_r | exact S].
    + injection El as <- _. apply Hin. now left.
Qed.

Lemma height_field_marker (a b : jsstring) :
  no_key "eigh" a ->
  first_marker "eigh" (a ++ height_field ++ b) (a ++ quoted "'h") (lit "eigh")
    (quoted "t: 0.1234'" ++ b).
Proof.
  intros Hno. split; [now rewrite <- app_assoc|]. split; [reflexivity|].
  intros pre' mk' area' E HS.
  assert (Hb : (List.length a < List.length pre')%nat).
  { apply (boundary_blocks "eigh" a (tl height_field ++ b) pre' mk' area' dquote Hno);
      [|exact E | exact HS].
    intros c [<-|[<-|[<-|[<-|[]]]]]; discriminate. }
  rewrite length_app. change (List.length (quoted "'h")) with 2%nat.
  destruct (Nat.eq_dec (List.length pre') (S (List.length a))) as [Heq|]; [|lia].
  exfalso.
  change (a ++ height_field ++ b)
    with (a ++ [dquote] ++ "h"%char :: tl (tl height_field) ++ b) in E.
  rewrite app_assoc in E. apply app_eq_length in E as [_ E];
    [|rewrite length_app; cbn [List.length]; lia].
  pose proof (same_letters_length _ _ HS) as L.
  destruct mk' as [|x mk']; [discriminate L|]. injection E as <- _.
  unfold same_letters in HS. discriminate HS.
Qed.

Lemma scale_field_marker (c d : jsstring) :
  no_key "scale" c ->
  first_marker "scale" (c ++ scale_field ++ d) (c ++ [dquote]) (lit "scale")
    (quoted "':1.5e-1" ++ d).
Proof.
  intros Hno. split; [now rewrite <- app_assoc|]. split; [reflexivity|].
  intros pre' mk' area' E HS.
  assert (Hb : (List.length c < List.length pre')%nat).
  { apply (boundary_blocks "scale" c (tl scale_field ++ d) pre' mk' area' dquote Hno);
      [|exact E | exact HS].
    intros x [<-|[<-|[<-|[<-|[<-|[]]]]]]; discriminate. }
  rewrite length_app. cbn [List.length]. lia.
Qed.

(** The height pattern on the text after the marker of the height field:
    the closing quote ends the number, so what follows plays no part. *)
Lemma height_field_value (b : jsstring) :
  js_match (quoted "t: 0.1234'" ++ b) re_height_value
  = Some (mkMatch 3 (lit "0.1234") [(1%nat, lit "0.1234")]).
Proof. vm_compute. reflexivity. Qed.

Local Open Scope float_scope.

Section SampleFields.

Variable Math_pow : float -> float -> float.

(** The scientific pattern on the text after the marker of the scale
    field: it matches at once, and its exponent ends where the field ends
    unless a digit follows. *)
Lemma scale_field_pattern (d : jsstring) :
  starts_with is_digit d = false ->
  js_match (quoted "':1.5e-1" ++ d) re_scientific
  = Some (mkMatch 0 (quoted "':1.5e-1") [(2%nat, lit "-1"); (1%nat, lit "1.5")]).
Proof.
  intros H. destruct d as [|c d]; [vm_compute; reflexivity|].
  cbn [starts_with] in H.
  destruct c as [[] [] [] [] [] [] [] []]; try discriminate H; vm_compute; reflexivity.
Qed.

Lemma scale_field_value (d : jsstring) :
  starts_with is_digit d = false ->
  scaleTiers Math_pow (quoted "':1.5e-1" ++ d) = inl (1.5 * Math_pow 10 (-1)).
Proof.
  intros H. unfold scaleTiers. rewrite (scale_field_pattern d H). cbv zeta.
  replace (parseFloat (capture (mkMatch 0 (quoted "':1.5e-1")
                                  [(2%nat, lit "-1"); (1%nat, lit "1.5")]) 1)) with 1.5
    by (vm_compute; reflexivity).
  replace (parseInt (capture (mkMatch 0 (quoted "':1.5e-1")
                                [(2%nat, lit "-1"); (1%nat, lit "1.5")]) 2)) with (-1)
    by (vm_compute; reflexivity).
  reflexivity.
Qed.

(** C5 (amended): take any payload whose text from the anchor on is the
    standard or the URL-safe encoding of a plaintext, and any plaintext
    that holds the field [Qheight: 0.1234Q] with no [eigh] before it and
    the field [QscaleQ:1.5e-1] with no [scale] before it and no digit right
    after it (Q is the double quote).  Then the block decodes to the
    plaintext, the height is 0.1234, the scale is [1.5 * Math.pow(10, -1)],
    and the run succeeds with [current = 7.6 - 8.3 * scale - 3 * 0.1234] and
    the clock as its timestamp.  When [Math.pow(10, -1)] is 0.1 the scale is
    0.15000000000000002, not the double nearest 0.15, and [current] is the
    double nearest 5.9848. *)
Theorem sample_fields_result (rawData plaintext a b c d : jsstring) (w : World) :
  indexOf rawData startMarker <> (-1)%Z ->
  substring_from rawData (indexOf rawData startMarker) = btoa plaintext
  \/ substring_from rawData (indexOf rawData startMarker) = base64url plaintext ->
  plaintext = a ++ height_field ++ b -> no_key "eigh" a ->
  plaintext = c ++ scale_field ++ d -> no_key "scale" c ->
  starts_with is_digit d = false ->
  atob (candidateBlock rawData) = Some plaintext
  /\ extractHeight plaintext = inl 0.1234
  /\ extractScale Math_pow plaintext = inl (1.5 * Math_pow 10 (-1))
  /\ exists r,
       fst (decodeAndCalculate Math_pow rawData w) = Success r
       /\ height_raw (json r) = 0.1234
       /\ scale_raw (json r) = 1.5 * Math_pow 10 (-1)
       /\ scale r = 1.5 * Math_pow 10 (-1)
       /\ current r = 7.6 - 8.3 * (1.5 * Math_pow 10 (-1)) - 3 * 0.1234
       /\ timestamp r = clock w
       /\ (Math_pow 10 (-1) = 0.1 ->
           scale r = 0.15000000000000002 /\ current r = 5.9848).
Proof.
  intros Hi Hs Eh Nh Es Ns Hd.
  assert (Hb : candidateBlock rawData = btoa plaintext).
  { unfold candidateBlock. destruct Hs as [-> | ->]; apply normalize_of_encoding. }
  assert (Ha : atob (candidateBlock rawData) = Some plaintext)
    by (rewrite Hb; apply atob_of_btoa).
  assert (Hh : extractHeight plaintext = inl 0.1234).
  { rewrite Eh, (extractHeight_at_marker _ _ _ _ (height_field_marker a b Nh)).
    rewrite height_field_value. vm_compute. reflexivity. }
  assert (Hsc : extractScale Math_pow plaintext = inl (1.5 * Math_pow 10 (-1))).
  { rewrite Es, (extractScale_at_marker Math_pow _ _ _ _ (scale_field_marker c d Ns)).
    now apply scale_field_value. }
  split; [exact Ha|]. split; [exact Hh|]. split; [exact Hsc|].
  rewrite (run_on_block Math_pow rawData plaintext w Hi Ha).
  unfold decoded_run, derive. rewrite Hh, Hsc. eexists. split; [reflexivity|].
  cbn [height_raw scale_raw json scale current timestamp].
  do 5 (split; [reflexivity|]).
  intros ->. split; reflexivity.
Qed.

End SampleFields.

(** A plaintext with other fields around the two, in a URL. *)
Definition neighbours_plaintext : jsstring :=
  quoted "'body':{'name':'x','height: 0.1234','wing':7,'scale':1.5e-1,'weight':70}".

Definition neighbours_input : jsstring :=
  lit "https://sky.example/?d=" ++ base64url neighbours_plaintext.

Lemma sample_fields_result_witness :
  (exists r,
      fst (decodeAndCalculate Math_pow_ref sample_payload world0) = Success r
      /\ height_raw (json r) = 0.1234
      /\ scale r = 0.15000000000000002
      /\ current r = 5.9848
      /\ timestamp r = clock world0)
  /\ (exists r,
      fst (decodeAndCalculate Math_pow_ref neighbours_input world0) = Success r
      /\ height_raw (json r) = 0.1234
      /\ scale r = 0.15000000000000002
      /\ current r = 5.9848
      /\ timestamp r = clock world0).
Proof.
  assert (Hpow : Math_pow_ref 10 (-1) = 0.1) by (vm_compute; reflexivity).
  split.
  - destruct (sample_fields_result Math_pow_ref sample_payload sample_plaintext
                (quoted "'body':{") (quoted ",'scale':1.5e-1}")
                (quoted "'body':{'height: 0.1234',") (lit "}") world0)
      as (_ & _ & _ & r & Hr & Hh & _ & _ & _ & Ht & Hv).
    + vm_compute. discriminate.
    + left. vm_compute. reflexivity.
    + reflexivity.
    + apply no_key_by_search. vm_compute. reflexivity.
    + reflexivity.
    + apply no_key_by_search. vm_compute. reflexivity.
    + reflexivity.
    + destruct (Hv Hpow) as [Hs Hc]. exists r. repeat split; assumption.
  - destruct (sample_fields_result Math_pow_ref neighbours_input neighbours_plaintext
                (quoted "'body':{'name':'x',") (quoted ",'wing':7,'scale':1.5e-1,'weight':70}")
                (quoted "'body':{'name':'x','height: 0.1234','wing':7,")
                (quoted ",'weight':70}") world0)
      as (_ & _ & _ & r & Hr & Hh & _ & _ & _ & Ht & Hv).
    + vm_compute. discriminate.
    + right. vm_compute. reflexivity.
    + reflexivity.
    + apply no_key_by_search. vm_compute. reflexivity.
    + reflexivity.
    + apply no_key_by_search. vm_compute. reflexivity.
    + reflexivity.
    + destruct (Hv Hpow) as [Hs Hc]. exists r. repeat split; assumption.
Defined.

(** The side conditions are needed.  With [eigh] before the height field
    the height is read there; with a digit after the scale field the
    exponent goes on. *)
Example sample_fields_side_conditions (Math_pow : float -> float -> float) :
  extractHeight (quoted "'body':{'weight':70,'height: 0.1234','scale':1.5e-1}") = inl 70
  /\ extractScale Math_pow (quoted "'body':{'height: 0.1234','scale':1.5e-12}")
     = inl (1.5 * Math_pow 10 (-12)).
Proof. split; vm_compute; reflexivity. Qed.

Local Close Scope float_scope.


(** * The result bar: [getHeightPercentage] (lines 328-332) *)

(** ** Definitions *)

Local Open Scope float_scope.

(** [ToBoolean] of a number: false for [+0], [-0] and [NaN]. *)
Definition truthy (x : float) : bool := negb ((x =? 0) || is_nan x).

Definition is_pos_zero (x : float) : bool :=
  match Prim2SF x with S754_zero false => true | _ => false end.

Definition is_neg_zero (x : float) : bool :=
  match Prim2SF x with S754_zero true => true | _ => false end.

(** [Math.max]: starting from [-Infinity], each argument in turn returns
    [NaN] when it is [NaN], replaces a highest [-0] when it is [+0], and
    replaces a smaller highest. *)
Fixpoint max_loop (highest : float) (numbers : list float) : float :=
  match numbers with
  | [] => highest
  | number :: rest =>
      if is_nan number then nan
      else
        let highest := if is_pos_zero number && is_neg_zero highest then 0 else highest in
        let highest := if highest <? number then number else highest in
        max_loop highest rest
  end.

Definition Math_max (a b : float) : float := max_loop neg_infinity [a; b].

(** [Math.min], the mirror image, starting from [+Infinity]. *)
Fixpoint min_loop (lowest : float) (numbers : list float) : float :=
  match numbers with
  | [] => lowest
  | number :: rest =>
      if is_nan number then nan
      else
        let lowest := if is_neg_zero number && is_pos_zero lowest then (-0) else lowest in
        let lowest := if number <? lowest then number else lowest in
        min_loop lowest rest
  end.

Definition Math_min (a b : float) : float := min_loop infinity [a; b].

Definition getHeightPercentage (current min max : float) : float :=
  if negb (truthy min) || negb (truthy max) then 50
  else
    let pct := ((current - min) / (max - min)) * 100 in
    Math_min (Math_max pct 0) 100.

Local Close Scope float_scope.

(** ** Division never invents a NaN *)

Lemma shr_1_nonneg (mrs : shr_record) : 0 <= shr_m mrs -> 0 <= shr_m (shr_1 mrs).
Proof.
  destruct mrs as [m r s]. cbn [shr_m]. intros H.
  destruct m as [|p|p]; [cbn; lia | destruct p; cbn; lia | lia].
Qed.

Lemma shr_nonneg (mrs : shr_record) (e n : Z) :
  0 <= shr_m mrs -> 0 <= shr_m (fst (shr mrs e n)).
Proof.
  intros H. unfold shr. destruct n as [|p|p]; cbn [fst]; try assumption.
  rewrite iter_pos_nat. induction (Pos.to_nat p) as [|k IH]; [assumption|].
  cbn [Nat.iter nat_rect]. now apply shr_1_nonneg.
Qed.

Lemma shr_fexp_nonneg (m e : Z) (l : location) :
  0 <= m -> 0 <= shr_m (fst (shr_fexp prec emax m e l)).
Proof.
  intros H. unfold shr_fexp. apply shr_nonneg.
  destruct l as [|[| |]]; exact H.
Qed.

Lemma round_nearest_even_nonneg (m : Z) (l : location) :
  0 <= m -> 0 <= round_nearest_even m l.
Proof.
  intros H. unfold round_nearest_even.
  destruct l as [|[| |]]; try lia. destruct (Z.even m); lia.
Qed.

Lemma binary_round_aux_notnan (s : bool) (m e : Z) (l : location) :
  0 <= m -> binary_round_aux prec emax s m e l <> S754_nan.
Proof.
  intros H. unfold binary_round_aux.
  pose proof (shr_fexp_nonneg m e l H) as H1.
  destruct (shr_fexp prec emax m e l) as [mrs' e']. cbn [fst] in H1.
  pose proof (shr_fexp_nonneg _ e' loc_Exact
                (round_nearest_even_nonneg _ (loc_of_shr_record mrs') H1)) as H2.
  destruct (shr_fexp prec emax _ e' loc_Exact) as [mrs'' e'']. cbn [fst] in H2.
  destruct (shr_m mrs'') as [|p|p]; [discriminate | | lia].
  destruct (e'' <=? emax - prec); discriminate.
Qed.

Lemma SFdiv_notnan (x y : spec_float) :
  x <> S754_nan -> is_fin y = true -> SFz y <> 0 -> SFdiv prec emax x y <> S754_nan.
Proof.
  intros Hx Fy Hy.
  destruct y as [sy|sy| |sy my ey]; try discriminate Fy; [now cbn in Hy|].
  destruct x as [sx|sx| |sx mx ex]; cbn [SFdiv]; try discriminate; [congruence|].
  unfold SFdiv_core_binary.
  set (m' := match _ - _ - _ with 0 => Z.pos mx | Z.pos _ => _ | Z.neg _ => 0 end).
  assert (Hm : 0 <= m').
  { unfold m'. destruct (_ - _ - _) as [|p|p]; [lia | | lia].
    apply Z.shiftl_nonneg. lia. }
  pose proof (Z.div_pos m' (Z.pos my) Hm ltac:(lia)) as Hq.
  unfold Z.div in Hq. destruct (Z.div_eucl m' (Z.pos my)) as [q r]. cbn [fst] in Hq.
  now apply binary_round_aux_notnan.
Qed.

(** ** NaN, zero and the comparisons *)

Lemma is_nan_false (x : float) : is_nan x = false <-> notnan x.
Proof.
  unfold is_nan, notnan. rewrite eqb_spec. unfold SFeqb. split.
  - intros H E. rewrite E in H. discriminate H.
  - intros H. rewrite compare_ext by (auto using Prim2SF_valid).
    now rewrite Z.compare_refl.
Qed.

Lemma is_nan_true (x : float) : is_nan x = true <-> Prim2SF x = S754_nan.
Proof.
  split.
  - intros H. destruct (Prim2SF x) eqn:E; try reflexivity;
      assert (N : notnan x) by (unfold notnan; rewrite E; discriminate);
      apply is_nan_false in N; congruence.
  - intros E. unfold is_nan. rewrite eqb_spec, E. reflexivity.
Qed.

Lemma eqb_val (x y : float) :
  notnan x -> notnan y -> (x =? y)%float = (val x =? val y).
Proof.
  intros Hx Hy. rewrite eqb_spec. unfold SFeqb.
  rewrite compare_ext by (auto using Prim2SF_valid).
  unfold val. rewrite Z.eqb_compare. reflexivity.
Qed.

Lemma truthy_spec (x : float) : truthy x = true <-> notnan x /\ val x <> 0.
Proof.
  unfold truthy. rewrite negb_true_iff, orb_false_iff, is_nan_false. split.
  - intros [E N]. split; [exact N|]. rewrite eqb_val in E by (try exact N; discriminate).
    apply Z.eqb_neq in E. exact E.
  - intros [N E]. split; [|exact N]. rewrite eqb_val by (try exact N; discriminate).
    now apply Z.eqb_neq.
Qed.

Lemma zero_val (x : float) (s : bool) : Prim2SF x = S754_zero s -> notnan x /\ val x = 0.
Proof. unfold notnan, val. intros ->. split; [discriminate | reflexivity]. Qed.

Lemma val_zero_is_zero (x : float) :
  notnan x -> val x = 0 -> exists s, Prim2SF x = S754_zero s.
Proof.
  unfold notnan, val. intros N E. pose proof Omega_pos as HO.
  pose proof (Prim2SF_valid x) as V.
  destruct (Prim2SF x) as [s|s| |s m e]; [now exists s | | congruence |].
  - destruct s; cbn [ext cond_Zopp] in E; lia.
  - destruct (valid_finite _ _ _ V) as (_ & Be & _).
    pose proof (SFz_pos s m e ltac:(lia)).
    destruct s; cbn [ext SFz cond_Zopp] in E; lia.
Qed.

(** ** Division and multiplication keep a number a number *)

Lemma div_notnan (x y : float) : notnan x -> finite y -> val y <> 0 -> notnan (x / y).
Proof.
  intros Hx Fy Hy. unfold notnan. rewrite div_spec.
  destruct (val_finite y Fy) as [E _]. rewrite E in Hy.
  apply SFdiv_notnan; assumption.
Qed.

Lemma mul_infinity_l (x c : float) (s : bool) :
  Prim2SF x = S754_infinity s -> fine c = true -> 0 < units c ->
  Prim2SF (x * c) = S754_infinity s.
Proof.
  unfold fine, units. intros Ex Hc Hp. rewrite mul_spec, Ex.
  destruct (Prim2SF c) as [sc|sc| |sc m e]; try discriminate Hc; try lia.
  destruct sc; cbn [cond_Zopp] in Hp; [lia|]. cbn. now destruct s.
Qed.

Lemma mul_notnan_r (x c : float) :
  notnan x -> fine c = true -> 0 < units c -> notnan (x * c).
Proof.
  intros Hx Hc Hp. destruct (classify x Hx) as [Fx|[[E _]|[E _]]].
  - apply (mul_units_r x c Fx Hc).
  - unfold notnan. rewrite (mul_infinity_l x c _ E Hc Hp). discriminate.
  - unfold notnan. rewrite (mul_infinity_l x c _ E Hc Hp). discriminate.
Qed.

Lemma sub_notnan_l (x y : float) : notnan x -> finite y -> notnan (x - y).
Proof.
  intros Hx Fy. destruct (classify x Hx) as [Fx|[[E _]|[E _]]].
  - apply (sub_val x y Fx Fy).
  - unfold notnan. rewrite (sub_infinity_l x y _ E Fy). discriminate.
  - unfold notnan. rewrite (sub_infinity_l x y _ E Fy). discriminate.
Qed.

(** ** [Math.max(pct, 0)] and [Math.min(m, 100)] *)

Lemma Math_max_nan (b : float) : Math_max nan b = nan.
Proof. reflexivity. Qed.

Lemma Math_min_nan (b : float) : Math_min nan b = nan.
Proof. reflexivity. Qed.

Lemma Math_max_zero (pct : float) :
  notnan pct ->
  notnan (Math_max pct 0) /\ val (Math_max pct 0) = Z.max (val pct) 0.
Proof.
  intros N. pose proof N as Nn. apply is_nan_false in Nn.
  pose proof (val_range pct) as R.
  assert (N0 : notnan 0%float) by discriminate.
  assert (Ninf : notnan neg_infinity) by discriminate.
  unfold Math_max, max_loop. rewrite Nn.
  change (is_neg_zero neg_infinity) with false. rewrite andb_false_r.
  change (is_nan 0) with false. change (is_pos_zero 0) with true. cbn [andb].
  (* the highest after the first argument *)
  set (h := if (neg_infinity <? pct)%float then pct else neg_infinity).
  assert (Hh : notnan h /\ val h = val pct).
  { unfold h. rewrite ltb_val by assumption. destruct (val neg_infinity <? val pct) eqn:E.
    - now split.
    - apply Z.ltb_ge in E. change (val neg_infinity) with (- Omega) in *.
      split; [exact Ninf | lia]. }
  destruct Hh as [Nh Vh]. rewrite <- Vh.
  destruct (is_neg_zero h) eqn:Z.
  - change (0 <? 0)%float with false. cbn iota. split; [exact N0|].
    unfold is_neg_zero in Z. destruct (Prim2SF h) as [[|]| | |] eqn:E; try discriminate Z.
    destruct (zero_val h _ E) as [_ ->]. reflexivity.
  - rewrite ltb_val by assumption. change (val 0%float) with 0.
    destruct (val h <? 0) eqn:E.
    + apply Z.ltb_lt in E. split; [exact N0|]. change (val 0%float) with 0. lia.
    + apply Z.ltb_ge in E. split; [exact Nh | lia].
Qed.

Lemma Math_min_hundred (m : float) :
  notnan m ->
  notnan (Math_min m 100) /\ val (Math_min m 100) = Z.min (val m) (val 100%float).
Proof.
  intros N. pose proof N as Nn. apply is_nan_false in Nn.
  pose proof (val_range m) as R.
  assert (N100 : notnan 100%float) by discriminate.
  assert (Ninf : notnan infinity) by discriminate.
  unfold Math_min, min_loop. rewrite Nn.
  change (is_pos_zero infinity) with false. rewrite andb_false_r.
  change (is_nan 100) with false. change (is_neg_zero 100) with false. cbn [andb].
  set (l := if (m <? infinity)%float then m else infinity).
  assert (Hl : notnan l /\ val l = val m).
  { unfold l. rewrite ltb_val by assumption. destruct (val m <? val infinity) eqn:E.
    - now split.
    - apply Z.ltb_ge in E. rewrite val_infinity in *. split; [exact Ninf | lia]. }
  destruct Hl as [Nl Vl]. rewrite <- Vl.
  rewrite ltb_val by assumption.
  destruct (val 100%float <? val l) eqn:E.
  - apply Z.ltb_lt in E. split; [exact N100 | lia].
  - apply Z.ltb_ge in E. split; [exact Nl | lia].
Qed.

(** ** The percentage is a NaN or lies between 0 and 100 *)

Local Open Scope float_scope.

Lemma clamp_percentage (pct : float) :
  notnan pct ->
  (0 <=? Math_min (Math_max pct 0) 100) = true
  /\ (Math_min (Math_max pct 0) 100 <=? 100) = true.
Proof.
  intros N. destruct (Math_max_zero pct N) as [N1 V1].
  destruct (Math_min_hundred _ N1) as [N2 V2]. rewrite V1 in V2.
  float_const 100 F100 V100. rewrite V100 in V2. pose proof ulp60_pos as Hu.
  split; rewrite leb_val by (try exact N2; discriminate); apply Z.leb_le.
  - change (val 0) with 0%Z. lia.
  - rewrite V100. lia.
Qed.

Lemma percentage_cases (current min max : float) :
  let r := getHeightPercentage current min max in
  let pct := (current - min) / (max - min) * 100 in
  (truthy min && truthy max = false -> r = 50)
  /\ (truthy min && truthy max = true -> is_nan pct = true -> is_nan r = true)
  /\ (truthy min && truthy max = true -> is_nan pct = false ->
      (0 <=? r) = true /\ (r <=? 100) = true)
  /\ (is_nan r = true \/ ((0 <=? r) = true /\ (r <=? 100) = true)).
Proof.
  cbv zeta. unfold getHeightPercentage. rewrite <- negb_andb.
  destruct (truthy min && truthy max).
  - cbn [negb]. split; [discriminate|].
    destruct (is_nan ((current - min) / (max - min) * 100)) eqn:E.
    + apply is_nan_true in E.
      assert (En : (current - min) / (max - min) * 100 = nan).
      { apply Prim2SF_inj. rewrite E. reflexivity. }
      rewrite En, Math_max_nan, Math_min_nan.
      split; [reflexivity|]. split; [discriminate|]. now left.
    + apply is_nan_false in E. pose proof (clamp_percentage _ E) as H.
      split; [discriminate|]. split; [intros _ _; exact H|]. now right.
  - cbn [negb]. split; [reflexivity|]. split; [discriminate|]. split; [discriminate|].
    right. split; reflexivity.
Qed.

(** X5: [getHeightPercentage] returns 50 for a bound that is [0] or [NaN];
    otherwise it returns [NaN], exactly when the quotient
    [(current - min) / (max - min) * 100] is [NaN], or a number between 0
    and 100. *)
Theorem percentage_in_range (current min max : float) :
  let r := getHeightPercentage current min max in
  let pct := (current - min) / (max - min) * 100 in
  (truthy min && truthy max = false -> r = 50)
  /\ (truthy min && truthy max = true -> is_nan pct = true -> is_nan r = true)
  /\ (truthy min && truthy max = true -> is_nan pct = false ->
      (0 <=? r) = true /\ (r <=? 100) = true)
  /\ (is_nan r = true \/ ((0 <=? r) = true /\ (r <=? 100) = true)).
Proof. exact (percentage_cases current min max). Qed.

(** X6: when [current], [min] and [max] are one and the same number, not zero,
    the quotient is [0 / 0] (or [NaN / NaN]) and the result is [NaN]. *)
Theorem percentage_of_collapsed_band (m : float) :
  truthy m = true -> is_nan (getHeightPercentage m m m) = true.
Proof.
  intros T. unfold getHeightPercentage. rewrite T. cbn [negb orb].
  apply truthy_spec in T as [N V].
  assert (E : Prim2SF ((m - m) / (m - m)) = S754_nan).
  { rewrite div_spec. destruct (classify m N) as [F|[[E _]|[E _]]].
    - destruct (sub_val m m F F) as [Ns Vs]. rewrite Z.sub_diag in Vs.
      change (RN 0) with 0%Z in Vs. rewrite clamp_id in Vs by (pose proof Omega_pos; lia).
      destruct (val_zero_is_zero _ Ns Vs) as [s ->]. reflexivity.
    - rewrite sub_spec, E. reflexivity.
    - rewrite sub_spec, E. reflexivity. }
  assert (En : (m - m) / (m - m) * 100 = nan).
  { apply Prim2SF_inj. rewrite mul_spec, E. reflexivity. }
  rewrite En. reflexivity.
Qed.

(** The two bounds of a result differ: [max - min] is a negative number. *)
Lemma band_width (a : float) :
  finite a -> (Z.abs (val a) <= 5 * 2 ^ 111 * ulp60)%Z ->
  finite (a - 3 * -2.0)
  /\ finite (a - 3 * 2.0 - (a - 3 * -2.0))
  /\ (val (a - 3 * 2.0 - (a - 3 * -2.0)) < 0)%Z.
Proof.
  intros Fa Ba. float_const (3 * 2.0) Fp Vp. float_const (3 * -2.0) Fm Vm.
  pose proof ulp60_pos as Hu.
  destruct (sub_near a (3 * 2.0) Fa Fp ltac:(lia)) as [F1 E1].
  destruct (sub_near a (3 * -2.0) Fa Fm ltac:(lia)) as [F2 E2].
  destruct (sub_near _ _ F1 F2 ltac:(lia)) as [F3 E3].
  split; [exact F2|]. split; [exact F3 | lia].
Qed.

Section Bar.

Variable Math_pow : float -> float -> float.

(** X7: the bar of a result: for a scale of magnitude at most 2^50 and a
    height that is a number, the quotient is a number and the percentage
    lies between 0 and 100; it is the fallback 50 when one of the two
    bounds is zero, and the clamped quotient otherwise. *)
Theorem percentage_of_result (rawData : jsstring) (w : World) (r : CalculationResult) :
  fst (decodeAndCalculate Math_pow rawData w) = Success r ->
  (abs (scale r) <=? 1125899906842624) = true ->
  is_nan (height_raw (json r)) = false ->
  let p := getHeightPercentage (current r) (shortest r) (tallest r) in
  let pct := (current r - shortest r) / (tallest r - shortest r) * 100 in
  (0 <=? p) = true /\ (p <=? 100) = true
  /\ is_nan pct = false
  /\ p = (if (shortest r =? 0) || (tallest r =? 0)
          then 50 else Math_min (Math_max pct 0) 100).
Proof.
  intros H Hs Hh. destruct (success_shape _ _ _ _ H) as (text & h & s & _ & _ & _ & ->).
  cbn [scale height_raw json current shortest tallest] in *. cbv zeta.
  destruct (base_bounded s Hs) as [Fa Ba].
  destruct (band_width _ Fa Ba) as (F2 & F3 & V3).
  assert (N1 : is_nan (7.6 - 8.3 * s - 3 * 2.0) = false).
  { apply is_nan_false, sub_notnan; [exact Fa|]. unfold notnan. discriminate. }
  assert (N2 : is_nan (7.6 - 8.3 * s - 3 * -2.0) = false)
    by (apply is_nan_false, finite_notnan, F2).
  assert (Np : notnan ((7.6 - 8.3 * s - 3 * h - (7.6 - 8.3 * s - 3 * -2.0))
                       / (7.6 - 8.3 * s - 3 * 2.0 - (7.6 - 8.3 * s - 3 * -2.0)) * 100)).
  { apply is_nan_false in Hh.
    destruct (mul_mono_l 3 h h eq_refl eq_refl Hh Hh ltac:(lia)) as (Nm & _).
    apply mul_notnan_r; [|reflexivity|reflexivity].
    apply div_notnan; [| exact F3 | lia].
    apply sub_notnan_l; [|exact F2]. apply sub_notnan; assumption. }
  assert (Ep : getHeightPercentage (7.6 - 8.3 * s - 3 * h) (7.6 - 8.3 * s - 3 * -2.0)
                 (7.6 - 8.3 * s - 3 * 2.0)
               = if (7.6 - 8.3 * s - 3 * -2.0 =? 0) || (7.6 - 8.3 * s - 3 * 2.0 =? 0)
                 then 50
                 else Math_min
                        (Math_max ((7.6 - 8.3 * s - 3 * h - (7.6 - 8.3 * s - 3 * -2.0))
                                   / (7.6 - 8.3 * s - 3 * 2.0 - (7.6 - 8.3 * s - 3 * -2.0))
                                   * 100) 0) 100).
  { unfold getHeightPercentage, truthy. rewrite N1, N2, !orb_false_r, !negb_involutive.
    reflexivity. }
  rewrite Ep.
  assert (Hr : forall b : bool,
             (0 <=? (if b then 50 else Math_min (Math_max _ 0) 100)) = true
             /\ ((if b then 50 else Math_min (Math_max _ 0) 100) <=? 100) = true)
    by (intros [|]; [split; reflexivity | exact (clamp_percentage _ Np)]).
  split; [apply Hr|]. split; [apply Hr|]. split; [now apply is_nan_false | reflexivity].
Qed.

End Bar.

(** A result with a bound that is zero: the height 1 and the scale
    0.19277108433734935 give [tallest = 0]. *)
Definition zero_bound_plaintext : jsstring :=
  quoted "'body':{'height':1,'scale':0.19277108433734935}".

Definition zero_bound_payload : jsstring := btoa zero_bound_plaintext.

Lemma percentage_of_result_witness :
  (exists r,
      fst (decodeAndCalculate Math_pow_ref tall_payload world0) = Success r
      /\ (0 <=? getHeightPercentage (current r) (shortest r) (tallest r)) = true
      /\ (getHeightPercentage (current r) (shortest r) (tallest r) <=? 100) = true
      /\ getHeightPercentage (current r) (shortest r) (tallest r) = 100)
  /\ (exists r,
      fst (decodeAndCalculate Math_pow_ref zero_bound_payload world0) = Success r
      /\ tallest r = 0
      /\ getHeightPercentage (current r) (shortest r) (tallest r) = 50
      /\ Math_min (Math_max ((current r - shortest r) / (tallest r - shortest r) * 100) 0) 100
         = 75).
Proof.
  split.
  - destruct (fst (decodeAndCalculate Math_pow_ref tall_payload world0)) as [r|k] eqn:E;
      [|vm_compute in E; discriminate E].
    exists r. split; [reflexivity|].
    destruct (percentage_of_result Math_pow_ref tall_payload world0 r E) as (H0 & H1 & _ & Hp);
      [vm_compute in E; injection E as <-; reflexivity ..|].
    split; [exact H0|]. split; [exact H1|].
    rewrite Hp. vm_compute in E. injection E as <-. vm_compute. reflexivity.
  - destruct (fst (decodeAndCalculate Math_pow_ref zero_bound_payload world0)) as [r|k] eqn:E;
      [|vm_compute in E; discriminate E].
    exists r. split; [reflexivity|].
    destruct (percentage_of_result Math_pow_ref zero_bound_payload world0 r E)
      as (_ & _ & _ & Hp);
      [vm_compute in E; injection E as <-; reflexivity ..|].
    rewrite Hp. vm_compute in E. injection E as <-.
    repeat split; vm_compute; reflexivity.
Defined.

Lemma percentage_of_collapsed_band_witness :
  exists r,
    fst (decodeAndCalculate Math_pow_ref large_scale_payload world0) = Success r
    /\ shortest r = current r /\ tallest r = current r
    /\ is_nan (getHeightPercentage (current r) (current r) (current r)) = true.
Proof.
  destruct (fst (decodeAndCalculate Math_pow_ref large_scale_payload world0)) as [r|k] eqn:E;
    [|vm_compute in E; discriminate E].
  exists r. vm_compute in E. injection E as <-.
  split; [reflexivity|]. split; [reflexivity|]. split; [reflexivity|].
  apply percentage_of_collapsed_band. reflexivity.
Defined.

Local Close Scope float_scope.

(** * The measure, history and simulator handlers together

    ** Definitions

    The component state that [handleCalculate] (lines 184-215),
    [handleDeleteHistory] (312-316), [handleHistoryNote] (318-326) and
    the inline handlers of the measure and history tabs read and write.
    The simulator's part of the state is the [AppState] of
    [handlePotionDrink].

    A result is an object: [setLastResult(result)] and
    [[result, ...prev]] store the same reference, and
    [newHistory[index].note = ...] writes through it.  [objects] holds the
    result objects by address, [history] holds addresses, and [lastResultAt]
    is the address of the object whose value [lastResult app] shows. *)

Inductive StatusType := StatusError | StatusSuccess | StatusNormal.

Record Status := mkStatus { text : string; type : StatusType }.

Inductive Dialog :=
| Confirm (message : string)
| Prompt (message : string) (default : jsstring).

Record Page := mkPage {
  app : AppState;
  lastResultAt : option nat;
  objects : list CalculationResult;
  inputVal : jsstring;
  history : list nat;
  status : Status;
  isLoading : bool;
  dialogs : list Dialog
}.

(** *** State setters *)

Definition setApp (a : AppState) (p : Page) : Page :=
  mkPage a (lastResultAt p) (objects p) (inputVal p) (history p) (status p) (isLoading p)
    (dialogs p).

(** [setLastResult]: [None] is [null], [Some (at, r)] the object at [at]. *)
Definition setLastResult (r : option (nat * CalculationResult)) (p : Page) : Page :=
  let a := app p in
  mkPage (mkApp (activeTab a) (option_map snd r) (potionCount a) (simResult a)
            (simExtremeNotice a) (alerts a))
    (option_map fst r) (objects p) (inputVal p) (history p) (status p) (isLoading p)
    (dialogs p).

Definition setObjects (o : list CalculationResult) (p : Page) : Page :=
  mkPage (app p) (lastResultAt p) o (inputVal p) (history p) (status p) (isLoading p)
    (dialogs p).

Definition setInputVal (v : jsstring) (p : Page) : Page :=
  mkPage (app p) (lastResultAt p) (objects p) v (history p) (status p) (isLoading p)
    (dialogs p).

Definition setHistory (h : list nat) (p : Page) : Page :=
  mkPage (app p) (lastResultAt p) (objects p) (inputVal p) h (status p) (isLoading p)
    (dialogs p).

Definition setStatus (s : Status) (p : Page) : Page :=
  mkPage (app p) (lastResultAt p) (objects p) (inputVal p) (history p) s (isLoading p)
    (dialogs p).

Definition setIsLoading (b : bool) (p : Page) : Page :=
  mkPage (app p) (lastResultAt p) (objects p) (inputVal p) (history p) (status p) b
    (dialogs p).

Definition openDialog (d : Dialog) (p : Page) : Page :=
  mkPage (app p) (lastResultAt p) (objects p) (inputVal p) (history p) (status p)
    (isLoading p) (dialogs p ++ [d]).

(** [setActiveTab], the tab buttons of lines 395 and 583. *)
Definition setActiveTab (tab : Tab) (p : Page) : Page :=
  let a := app p in
  setApp (mkApp tab (lastResult a) (potionCount a) (simResult a) (simExtremeNotice a)
            (alerts a)) p.

(** [setPotionCount(0); setSimResult(null); setSimExtremeNotice('')] *)
Definition resetSimulator (p : Page) : Page :=
  let a := app p in
  setApp (mkApp (activeTab a) (lastResult a) 0%float None EmptyString (alerts a)) p.

(** *** [String.prototype.trim]

    The white space and line terminators among the code units below 256:
    TAB, LF, VT, FF, CR, SP and NBSP. *)

Definition is_white_space (c : ascii) : bool :=
  let n := code c in
  ((9 <=? n) && (n <=? 13)) || (n =? 32) || (n =? 160).

Fixpoint trimStart (s : jsstring) : jsstring :=
  match s with
  | c :: s' => if is_white_space c then trimStart s' else s
  | [] => []
  end.

Definition trimEnd (s : jsstring) : jsstring := rev (trimStart (rev s)).

Definition trim (s : jsstring) : jsstring := trimEnd (trimStart s).

(** *** Arrays *)

(** [a[i]]: [undefined], here [None], outside the array. *)
Definition at_index {A} (a : list A) (i : Z) : option A :=
  if i <? 0 then None else nth_error a (Z.to_nat i).

(** [a.filter((x, i) => keep(x, i))], from position [i] on. *)
Fixpoint filter_index {A} (keep : A -> Z -> bool) (i : Z) (a : list A) : list A :=
  match a with
  | [] => []
  | x :: a' =>
      if keep x i then x :: filter_index keep (i + 1) a' else filter_index keep (i + 1) a'
  end.

(** The object at [at] gets the note [n]. *)
Fixpoint write_note (o : list CalculationResult) (at_ : nat) (n : jsstring)
  : list CalculationResult :=
  match o, at_ with
  | [], _ => []
  | r :: o', O =>
      mkResult (current r) (tallest r) (shortest r) (scale r) (timestamp r) n (json r) :: o'
  | r :: o', S k => r :: write_note o' k n
  end.

Section Handlers.

Variable translations : string -> option string.

Variable Math_pow : float -> float -> float.

(** Lines 184-215, up to the call of [setTimeout]: the new state, and the
    argument [rawData] of the callback when one is scheduled. *)
Definition handleCalculate (p : Page) : Page * option jsstring :=
  let p := setLastResult None p in
  let p := setIsLoading true p in
  let p := setStatus (mkStatus (t translations "status_calculating") StatusNormal) p in
  let rawData := trim (inputVal p) in
  match rawData with
  | [] =>
      let p := setStatus (mkStatus (t translations "status_error_empty") StatusError) p in
      (setIsLoading false p, None)
  | _ :: _ => (p, Some rawData)
  end.

(** Lines 196-214: the callback, run 600 ms later on the state of that
    moment.  [res.error] is [translations['status_error_general']]; when
    that is missing or empty the test of line 198 fails and the failure
    object is stored as if it were a result, which this state cannot hold:
    [None]. *)
Definition calculateTimeout (rawData : jsstring) (p : Page) (w : World)
  : option (Page * World) :=
  let (res, w') := decodeAndCalculate Math_pow rawData w in
  match res with
  | Failure _ =>
      match translations "status_error_general" with
      | Some (String c m) =>
          let p := setStatus (mkStatus (String c m) StatusError) p in
          Some (setIsLoading false p, w')
      | _ => None
      end
  | Success result =>
      let at_ := List.length (objects p) in
      let p := setObjects (objects p ++ [result]) p in
      let p := setLastResult (Some (at_, result)) p in
      let p := setStatus (mkStatus (t translations "status_success") StatusSuccess) p in
      let p :=
        setHistory
          (let newHistory := at_ :: history p in
           if (20 <? List.length newHistory)%nat then removelast newHistory else newHistory)
          p in
      let p := resetSimulator p in
      Some (setIsLoading false p, w')
  end.

(** Line 495: the button that starts over. *)
Definition remeasure (p : Page) : Page := setInputVal [] (setLastResult None p).

(** Line 643: [confirm(...) && setHistory([])], with the user's answer. *)
Definition clearHistory (answer : bool) (p : Page) : Page :=
  let p := openDialog (Confirm (t translations "confirm_clear_history")) p in
  if answer then setHistory [] p else p.

(** Lines 312-316, with the user's answer to [confirm]. *)
Definition handleDeleteHistory (index : Z) (answer : bool) (p : Page) : Page :=
  let p := openDialog (Confirm (t translations "confirm_delete_item")) p in
  if answer then setHistory (filter_index (fun _ i => negb (i =? index)) 0 (history p)) p
  else p.

(** Lines 318-326, with the user's answer to [prompt] ([None] is [null]).
    Reading [.note] of [history[index]] throws when there is no such entry:
    [None]. *)
Definition handleHistoryNote (index : Z) (answer : option jsstring) (p : Page)
  : option Page :=
  match at_index (history p) index with
  | None => None
  | Some at_ =>
      match nth_error (objects p) at_ with
      | None => None
      | Some entry =>
          let currentNote := note entry in
          let p :=
            openDialog (Prompt (t translations "history_note_placeholder") currentNote) p in
          match answer with
          | None => Some p
          | Some newNote =>
              let newHistory := history p in
              let p := setObjects (write_note (objects p) at_ (trim newNote)) p in
              let p :=
                match lastResultAt p with
                | Some l =>
                    if (l =? at_)%nat
                    then setLastResult
                           (option_map (fun r => (l, r)) (nth_error (objects p) l)) p
                    else p
                | None => p
                end in
              Some (setHistory newHistory p)
          end
      end
  end.

(** [handlePotionDrink] on the page. *)
Definition drinkPotion (random : float) (p : Page) : Page :=
  setApp (handlePotionDrink translations random (app p)) p.

End Handlers.

(** ** [trim] *)

Lemma trimStart_spec (s : jsstring) :
  exists pre, s = pre ++ trimStart s /\ forallb is_white_space pre = true.
Proof.
  induction s as [|c s (pre & E & H)]; [now exists []|].
  cbn [trimStart]. destruct (is_white_space c) eqn:W.
  - exists (c :: pre). split; [simpl; now rewrite <- E | simpl; now rewrite W, H].
  - now exists [].
Qed.

Lemma trimStart_head (s : jsstring) (c : ascii) (r : jsstring) :
  trimStart s = c :: r -> is_white_space c = false.
Proof.
  induction s as [|a s IH]; [discriminate|]. cbn [trimStart].
  destruct (is_white_space a) eqn:W; [exact IH|]. intros E. injection E as <- _. exact W.
Qed.

Lemma trimStart_nil (s : jsstring) :
  trimStart s = [] <-> forallb is_white_space s = true.
Proof.
  induction s as [|a s IH]; [easy|]. cbn [trimStart forallb].
  destruct (is_white_space a); cbn [andb]; [exact IH | easy].
Qed.

Lemma forallb_rev {A} (f : A -> bool) (l : list A) : forallb f (rev l) = forallb f l.
Proof.
  induction l as [|a l IH]; [reflexivity|].
  cbn [rev forallb]. rewrite forallb_app, IH. cbn [forallb]. destruct (f a), (forallb f l); reflexivity.
Qed.

(** [trim] removes a prefix and a suffix of white space, and what it
    leaves neither starts nor ends with white space. *)
Lemma trim_spec (s : jsstring) :
  (exists pre post,
      s = pre ++ trim s ++ post
      /\ forallb is_white_space pre = true /\ forallb is_white_space post = true)
  /\ (trim s = [] <-> forallb is_white_space s = true)
  /\ (forall c r, trim s = c :: r -> is_white_space c = false)
  /\ (forall c r, trim s = r ++ [c] -> is_white_space c = false).
Proof.
  unfold trim, trimEnd. destruct (trimStart_spec s) as (pre & Es & Hpre).
  remember (trimStart s) as u eqn:Hu.
  destruct (trimStart_spec (rev u)) as (post & Er & Hpost).
  remember (trimStart (rev u)) as v eqn:Hv.
  assert (Eu : u = rev v ++ rev post).
  { rewrite <- rev_app_distr, <- Er. symmetry. apply rev_involutive. }
  split; [|split; [|split]].
  - exists pre, (rev post). rewrite <- Eu. split; [exact Es|]. split; [exact Hpre|].
    now rewrite forallb_rev.
  - split.
    + intros E. rewrite E in Eu. simpl in Eu.
      rewrite Es, forallb_app, Hpre, Eu, forallb_rev, Hpost. reflexivity.
    + intros H. rewrite Es, forallb_app in H. apply andb_true_iff in H as [_ H].
      assert (Ev : v = []).
      { rewrite Hv. apply trimStart_nil. rewrite forallb_rev. exact H. }
      now rewrite Ev.
  - intros c r E. rewrite E in Eu. simpl in Eu. rewrite Eu in Hu.
    symmetry in Hu. apply (trimStart_head _ _ _ Hu).
  - intros c r E. apply (f_equal (@rev ascii)) in E.
    rewrite rev_involutive, rev_app_distr in E. cbn in E. rewrite E in Hv.
    symmetry in Hv. apply (trimStart_head _ _ _ Hv).
Qed.

(** ** Arrays *)

Lemma filter_index_sub {A} (keep : A -> Z -> bool) (i : Z) (a : list A) :
  (forall x, In x (filter_index keep i a) -> In x a)
  /\ (NoDup a -> NoDup (filter_index keep i a))
  /\ (List.length (filter_index keep i a) <= List.length a)%nat.
Proof.
  revert i. induction a as [|x a IH]; intros i.
  - cbn. repeat split; auto.
  - destruct (IH (i + 1)) as (H1 & H2 & H3). cbn [filter_index].
    destruct (keep x i); cbn [In List.length]; repeat split.
    + intros y [->|H]; auto.
    + intros N. inversion N as [|? ? Hn Hd]; subst. constructor; auto.
    + lia.
    + auto.
    + intros N. inversion N; subst. auto.
    + lia.
Qed.


Lemma removelast_sub {A} (a : list A) :
  (forall x, In x (removelast a) -> In x a)
  /\ (NoDup a -> NoDup (removelast a))
  /\ (a <> [] -> S (List.length (removelast a)) = List.length a).
Proof.
  induction a as [|x a (H1 & H2 & H3)]; [cbn; repeat split; auto; congruence|].
  destruct a as [|y a].
  - cbn. repeat split; auto; contradiction || constructor.
  - change (removelast (x :: y :: a)) with (x :: removelast (y :: a)).
    repeat split.
    + intros z [->|H]; [now left | right; auto].
    + intros N. inversion N as [|? ? Hn Hd]; subst. constructor; auto.
    + intros _. cbn [List.length]. rewrite H3 by discriminate. reflexivity.
Qed.

Lemma write_note_length (o : list CalculationResult) (at_ : nat) (n : jsstring) :
  List.length (write_note o at_ n) = List.length o.
Proof.
  revert at_. induction o as [|r o IH]; intros [|k]; cbn; auto.
Qed.

Lemma write_note_same (o : list CalculationResult) (at_ : nat) (n : jsstring)
      (r : CalculationResult) :
  nth_error o at_ = Some r ->
  nth_error (write_note o at_ n) at_
  = Some (mkResult (current r) (tallest r) (shortest r) (scale r) (timestamp r) n (json r)).
Proof.
  revert at_. induction o as [|x o IH]; intros [|k]; cbn; try discriminate.
  - now intros [= ->].
  - apply IH.
Qed.

Lemma write_note_other (o : list CalculationResult) (at_ a : nat) (n : jsstring) :
  a <> at_ -> nth_error (write_note o at_ n) a = nth_error o a.
Proof.
  revert at_ a. induction o as [|x o IH]; intros [|k] [|j] H; cbn; auto; try lia.
Qed.

(** ** The page as a transition system

    A state of the running component: the page, the pending callback of
    [setTimeout] if there is one, and the host.  The measure button is
    disabled while [isLoading] (line 447), so a calculation starts only
    when none is loading.  The status is also written by the toast timer
    (line 73), by [handleCopy] (lines 221, 223) and by [handleQrUpload]
    (lines 255-293), each time with a value of its own: [step_status]
    stands for all of them. *)

Record System := mkSystem {
  page : Page;
  timer : option jsstring;
  world : World
}.

Section Transitions.

Variable translations : string -> option string.

Variable Math_pow : float -> float -> float.

Inductive step : System -> System -> Prop :=
| step_input s v :
    step s (mkSystem (setInputVal v (page s)) (timer s) (world s))
| step_clock s now :
    step s (mkSystem (page s) (timer s) (mkWorld now (events (world s))))
| step_tab s tab :
    step s (mkSystem (setActiveTab tab (page s)) (timer s) (world s))
| step_status s st :
    step s (mkSystem (setStatus st (page s)) (timer s) (world s))
| step_calculate s :
    isLoading (page s) = false ->
    step s (mkSystem (fst (handleCalculate translations (page s)))
                     (snd (handleCalculate translations (page s))) (world s))
| step_timeout s rawData p' w' :
    timer s = Some rawData ->
    calculateTimeout translations Math_pow rawData (page s) (world s) = Some (p', w') ->
    step s (mkSystem p' None w')
| step_remeasure s :
    step s (mkSystem (remeasure (page s)) (timer s) (world s))
| step_potion s random :
    step s (mkSystem (drinkPotion translations random (page s)) (timer s) (world s))
| step_clear s answer :
    step s (mkSystem (clearHistory translations answer (page s)) (timer s) (world s))
| step_delete s index answer :
    step s (mkSystem (handleDeleteHistory translations index answer (page s))
                     (timer s) (world s))
| step_note s index answer p' :
    handleHistoryNote translations index answer (page s) = Some p' ->
    step s (mkSystem p' (timer s) (world s)).

Inductive steps : System -> System -> Prop :=
| steps_refl s : steps s s
| steps_step s1 s2 s3 : steps s1 s2 -> step s2 s3 -> steps s1 s3.

End Transitions.

(** The history holds at most 20 entries, all of them distinct live
    objects; [lastResult] is the object at its address; and the page is
    loading exactly while a callback is pending. *)
Definition consistent (s : System) : Prop :=
  let p := page s in
  (List.length (history p) <= 20)%nat
  /\ NoDup (history p)
  /\ Forall (fun a => a < List.length (objects p))%nat (history p)
  /\ match lastResultAt p with
     | Some a => exists r, nth_error (objects p) a = Some r /\ lastResult (app p) = Some r
     | None => lastResult (app p) = None
     end
  /\ (isLoading p = true <-> timer s <> None).

Lemma handlePotionDrink_lastResult (translations : string -> option string)
      (random : float) (st : AppState) :
  lastResult (handlePotionDrink translations random st) = lastResult st.
Proof. unfold handlePotionDrink. destruct (lastResult st); reflexivity. Qed.

Lemma handleCalculate_cases (translations : string -> option string) (p : Page) :
  let blank := forallb is_white_space (inputVal p) in
  let p' := fst (handleCalculate translations p) in
  snd (handleCalculate translations p) = (if blank then None else Some (trim (inputVal p)))
  /\ isLoading p' = negb blank
  /\ status p' = (if blank
                  then mkStatus (t translations "status_error_empty") StatusError
                  else mkStatus (t translations "status_calculating") StatusNormal)
  /\ lastResult (app p') = None /\ lastResultAt p' = None
  /\ history p' = history p /\ objects p' = objects p /\ inputVal p' = inputVal p
  /\ dialogs p' = dialogs p.
Proof.
  cbv zeta. unfold handleCalculate.
  change (inputVal (setStatus _ (setIsLoading true (setLastResult None p)))) with (inputVal p).
  destruct (trim_spec (inputVal p)) as (_ & Hnil & _).
  destruct (trim (inputVal p)) as [|c r] eqn:E.
  - rewrite (proj1 Hnil eq_refl). repeat split.
  - destruct (forallb is_white_space (inputVal p)).
    + destruct Hnil as [_ H]. discriminate (H eq_refl).
    + repeat split.
Qed.

Section CallbackCases.

Variable translations : string -> option string.

Variable Math_pow : float -> float -> float.

Lemma calculateTimeout_success (rawData : jsstring) (p : Page) (w w1 : World)
      (result : CalculationResult) :
  decodeAndCalculate Math_pow rawData w = (Success result, w1) ->
  exists p',
    calculateTimeout translations Math_pow rawData p w = Some (p', w1)
    /\ objects p' = objects p ++ [result]
    /\ lastResultAt p' = Some (List.length (objects p))
    /\ lastResult (app p') = Some result
    /\ history p' =
       (let newHistory := List.length (objects p) :: history p in
        if (20 <? List.length newHistory)%nat then removelast newHistory else newHistory)
    /\ isLoading p' = false
    /\ status p' = mkStatus (t translations "status_success") StatusSuccess
    /\ potionCount (app p') = 0%float /\ simResult (app p') = None
    /\ simExtremeNotice (app p') = EmptyString
    /\ activeTab (app p') = activeTab (app p) /\ alerts (app p') = alerts (app p)
    /\ inputVal p' = inputVal p /\ dialogs p' = dialogs p.
Proof.
  intros H. unfold calculateTimeout. rewrite H. eexists. split; [reflexivity|].
  repeat split.
Qed.

Lemma calculateTimeout_failure (rawData : jsstring) (p : Page) (w w1 : World)
      (k : ErrorKind) (c : ascii) (m : string) :
  decodeAndCalculate Math_pow rawData w = (Failure k, w1) ->
  translations "status_error_general" = Some (String c m) ->
  exists p',
    calculateTimeout translations Math_pow rawData p w = Some (p', w1)
    /\ status p' = mkStatus (String c m) StatusError
    /\ isLoading p' = false
    /\ app p' = app p /\ lastResultAt p' = lastResultAt p
    /\ objects p' = objects p /\ history p' = history p
    /\ inputVal p' = inputVal p /\ dialogs p' = dialogs p.
Proof.
  intros H Ht. unfold calculateTimeout. rewrite H, Ht. eexists. split; [reflexivity|].
  repeat split.
Qed.

End CallbackCases.

Section Invariant.

Variable translations : string -> option string.

Variable Math_pow : float -> float -> float.

Lemma step_consistent (s s' : System) :
  consistent s -> step translations Math_pow s s' -> consistent s'.
Proof.
  intros (Hlen & Hnd & Hlive & Hlast & Hload) St.
  destruct St as [s v | s now | s tab | s st | s Hl | s rawData p' w' Ht Hc | s | s random
                  | s answer | s index answer | s index answer p' Hn];
    unfold consistent; cbn [page timer world].
  - (* typing *) repeat split; try assumption; apply Hload.
  - (* the clock *) repeat split; try assumption; apply Hload.
  - (* the tabs *) repeat split; try assumption; apply Hload.
  - (* the status *) repeat split; try assumption; apply Hload.
  - (* handleCalculate *)
    destruct (handleCalculate_cases translations (page s))
      as (Et & El & _ & Er & Ea & Eh & Eo & _). cbv zeta in *.
    rewrite Et, El, Er, Ea, Eh, Eo.
    repeat split; try assumption;
      destruct (forallb is_white_space (inputVal (page s))); cbn; congruence.
  - (* the callback *)
    destruct (decodeAndCalculate Math_pow rawData (world s)) as [[result|k] w1] eqn:Ed.
    + destruct (calculateTimeout_success translations Math_pow rawData (page s) _ _ _ Ed)
        as (q & Eq & Eo & Ea & Er & Eh & El & _).
      rewrite Eq in Hc. injection Hc as <- _. rewrite Eo, Ea, Er, Eh, El. cbv zeta.
      set (h := List.length (objects (page s)) :: history (page s)).
      assert (Elen : List.length h = S (List.length (history (page s)))) by reflexivity.
      assert (Hfresh : ~ In (List.length (objects (page s))) (history (page s))).
      { intros Hin. rewrite Forall_forall in Hlive. specialize (Hlive _ Hin). lia. }
      assert (Hnd' : NoDup h) by (now constructor).
      assert (Hlive' : Forall (fun a => a < List.length (objects (page s) ++ [result]))%nat h).
      { rewrite length_app. change (List.length [result]) with 1%nat. constructor; [lia|].
        eapply Forall_impl; [|exact Hlive]. intros a Ha. cbv beta in *. lia. }
      split; [|split; [|split; [|split]]].
      * destruct (20 <? List.length h)%nat eqn:E.
        -- destruct (removelast_sub h) as (_ & _ & H3).
           specialize (H3 ltac:(discriminate)). lia.
        -- apply Nat.ltb_ge in E. exact E.
      * destruct (20 <? List.length h)%nat; [now apply removelast_sub | exact Hnd'].
      * destruct (20 <? List.length h)%nat; [|exact Hlive'].
        rewrite Forall_forall in *. intros a Ha. apply Hlive'. now apply removelast_sub.
      * exists result. split; [|reflexivity].
        rewrite nth_error_app2 by lia. now rewrite Nat.sub_diag.
      * split; [discriminate | congruence].
    + unfold calculateTimeout in Hc. rewrite Ed in Hc.
      destruct (translations "status_error_general") as [[|c m]|] eqn:Et;
        try discriminate Hc.
      destruct (calculateTimeout_failure translations Math_pow rawData (page s) _ _ _ c m
                  Ed Et) as (q & Eq & _ & El & Ea & Er & Eo & Eh & _).
      unfold calculateTimeout in Eq. rewrite Ed, Et in Eq. rewrite Eq in Hc.
      injection Hc as <- _. rewrite El, Ea, Er, Eo, Eh.
      repeat split; try assumption; [discriminate | congruence].
  - (* remeasure *)
    unfold remeasure.
    cbn [history objects lastResultAt app isLoading setInputVal setLastResult option_map
           lastResult].
    repeat split; try assumption; apply Hload.
  - (* handlePotionDrink *)
    unfold drinkPotion. cbn [history objects lastResultAt app isLoading setApp].
    rewrite handlePotionDrink_lastResult.
    repeat split; try assumption; apply Hload.
  - (* clearing the history *)
    unfold clearHistory. destruct answer;
      cbn [history objects lastResultAt app isLoading setHistory openDialog].
    + repeat split; try assumption; try apply Hload; [cbn; lia | constructor | constructor].
    + repeat split; try assumption; apply Hload.
  - (* handleDeleteHistory *)
    unfold handleDeleteHistory. destruct answer;
      cbn [history objects lastResultAt app isLoading setHistory openDialog].
    + destruct (filter_index_sub (fun (_ : nat) i => negb (i =? index)) 0 (history (page s)))
        as (H1 & H2 & H3).
      repeat split; try assumption; try apply Hload; [lia | now apply H2 |].
      rewrite Forall_forall in *. intros a Ha. apply Hlive, H1, Ha.
    + repeat split; try assumption; apply Hload.
  - (* handleHistoryNote *)
    unfold handleHistoryNote in Hn.
    destruct (at_index (history (page s)) index) as [at_|]; [|discriminate Hn].
    destruct (nth_error (objects (page s)) at_) as [entry|] eqn:Ee; [|discriminate Hn].
    destruct answer as [newNote|].
    + injection Hn as <-.
      cbn [lastResultAt setObjects openDialog objects].
      destruct (lastResultAt (page s)) as [l|] eqn:El.
      * destruct Hlast as (r & Hr & Hlr).
        destruct (l =? at_)%nat eqn:E.
        -- apply Nat.eqb_eq in E. subst l.
           rewrite (write_note_same _ _ (trim newNote) _ Ee).
           cbn [history objects lastResultAt app isLoading setHistory setLastResult
                  setObjects openDialog option_map fst snd lastResult].
           rewrite write_note_length.
           repeat split; try assumption; try apply Hload.
           eexists. split; [apply (write_note_same _ _ _ _ Ee) | reflexivity].
        -- apply Nat.eqb_neq in E.
           cbn [history objects lastResultAt app isLoading setHistory setObjects openDialog].
           rewrite write_note_length, El.
           repeat split; try assumption; try apply Hload.
           exists r. split; [now rewrite write_note_other | exact Hlr].
      * cbn [history objects lastResultAt app isLoading setHistory setObjects openDialog].
        rewrite write_note_length, El.
        repeat split; try assumption; apply Hload.
    + injection Hn as <-.
      cbn [history objects lastResultAt app isLoading openDialog].
      repeat split; try assumption; apply Hload.
Qed.

(** X8: the invariant of the page: it holds along every run that starts in a
    consistent state. *)
Theorem page_invariant (s s' : System) :
  consistent s -> steps translations Math_pow s s' -> consistent s'.
Proof.
  intros H R. induction R as [|s1 s2 s3 _ IH St]; [exact H|].
  exact (step_consistent _ _ (IH H) St).
Qed.

End Invariant.

(** ** What the handlers do *)

Lemma capped_history (a : nat) (h : list nat) :
  (List.length h <= 20)%nat ->
  (let newHistory := a :: h in
   if (20 <? List.length newHistory)%nat then removelast newHistory else newHistory)
  = firstn 20 (a :: h).
Proof.
  intros H. cbv zeta. destruct (20 <? List.length (a :: h))%nat eqn:E.
  - apply Nat.ltb_lt in E. rewrite removelast_firstn_len.
    replace (Nat.pred (List.length (a :: h))) with 20%nat by (simpl in *; lia). reflexivity.
  - apply Nat.ltb_ge in E. symmetry. now apply firstn_all2.
Qed.

Lemma at_index_distinct (h : list nat) (i j : Z) (a b : nat) :
  NoDup h -> at_index h i = Some a -> at_index h j = Some b -> i <> j -> a <> b.
Proof.
  unfold at_index. intros N Hi Hj Hne ->.
  destruct (i <? 0) eqn:Ei; [discriminate|]. destruct (j <? 0) eqn:Ej; [discriminate|].
  apply Z.ltb_ge in Ei, Ej.
  assert (Hlt : (Z.to_nat i < List.length h)%nat) by (apply nth_error_Some; congruence).
  pose proof (proj1 (NoDup_nth_error h) N _ _ Hlt (eq_trans Hi (eq_sym Hj))). lia.
Qed.

Ltac page_fields :=
  cbn [history objects app dialogs lastResultAt isLoading status inputVal lastResult
         setHistory setLastResult setObjects openDialog setApp setStatus setIsLoading
         setInputVal option_map snd fst].

Section HandlerFacts.

Variable translations : string -> option string.

Variable Math_pow : float -> float -> float.

(** X9: [handleCalculate] refuses a blank input at once, and otherwise
    schedules the run on the trimmed input. *)
Theorem blank_input_is_refused (p : Page) :
  let p' := fst (handleCalculate translations p) in
  let pending := snd (handleCalculate translations p) in
  (pending = None <-> forallb is_white_space (inputVal p) = true)
  /\ (pending = None ->
      status p' = mkStatus (t translations "status_error_empty") StatusError
      /\ isLoading p' = false)
  /\ (forall rawData, pending = Some rawData ->
      rawData = trim (inputVal p)
      /\ (exists pre post,
             inputVal p = pre ++ rawData ++ post
             /\ forallb is_white_space pre = true /\ forallb is_white_space post = true)
      /\ (exists c r, rawData = c :: r /\ is_white_space c = false)
      /\ (exists c r, rawData = r ++ [c] /\ is_white_space c = false)
      /\ status p' = mkStatus (t translations "status_calculating") StatusNormal
      /\ isLoading p' = true)
  /\ lastResult (app p') = None
  /\ history p' = history p /\ objects p' = objects p.
Proof.
  destruct (handleCalculate_cases translations p) as (Et & El & Es & Er & _ & Eh & Eo & _).
  cbv zeta in *. rewrite Et, El, Es.
  destruct (trim_spec (inputVal p)) as (Hsplit & Hnil & Hfirst & Hlast).
  destruct (forallb is_white_space (inputVal p)) eqn:B.
  - split; [easy|]. split; [easy|]. split; [discriminate|]. auto.
  - split; [split; discriminate|]. split; [discriminate|]. split; [|auto].
    intros rawData [= <-]. split; [reflexivity|]. split; [exact Hsplit|].
    destruct (trim (inputVal p)) as [|c r] eqn:E.
    + destruct Hnil as [H _]. discriminate (H eq_refl).
    + split; [exists c, r; split; [reflexivity | now apply (Hfirst c r)]|].
      split; [|split; reflexivity].
      destruct (exists_last (l := c :: r) ltac:(discriminate)) as (r' & c' & E').
      exists c', r'. split; [exact E' | now apply (Hlast c' r')].
Qed.

(** X10: a run that succeeds stores its record as a new object: it is the
    last result, and the first entry of a history cut to 20; the simulator
    is reset, and the next potion is computed from the new scale. *)
Theorem successful_run_is_recorded (rawData : jsstring) (p : Page) (w w1 : World)
        (result : CalculationResult) (random : float) :
  decodeAndCalculate Math_pow rawData w = (Success result, w1) ->
  (List.length (history p) <= 20)%nat ->
  exists p',
    calculateTimeout translations Math_pow rawData p w = Some (p', w1)
    /\ lastResult (app p') = Some result
    /\ history p' = firstn 20 (List.length (objects p) :: history p)
    /\ nth_error (objects p') (List.length (objects p)) = Some result
    /\ (forall a, (a < List.length (objects p))%nat ->
        nth_error (objects p') a = nth_error (objects p) a)
    /\ status p' = mkStatus (t translations "status_success") StatusSuccess
    /\ isLoading p' = false
    /\ potionCount (app p') = 0%float /\ simResult (app p') = None
    /\ simExtremeNotice (app p') = EmptyString
    /\ simResult (app (drinkPotion translations random p'))
       = Some (7.6 - 8.3 * scale result - 3 * (random * 4.0 - 2.0))%float
    /\ potionCount (app (drinkPotion translations random p')) = 1%float.
Proof.
  intros H Hlen.
  destruct (calculateTimeout_success translations Math_pow rawData p _ _ _ H)
    as (p' & Ec & Eo & _ & Er & Eh & El & Es & Ep & Esr & En & _).
  exists p'. split; [exact Ec|]. split; [exact Er|].
  split; [rewrite Eh; now apply capped_history|].
  split; [rewrite Eo, nth_error_app2 by lia; now rewrite Nat.sub_diag|].
  split; [intros a Ha; rewrite Eo; now apply nth_error_app1|].
  split; [exact Es|]. split; [exact El|]. split; [exact Ep|]. split; [exact Esr|].
  split; [exact En|].
  unfold drinkPotion, handlePotionDrink. cbn [app setApp]. rewrite Er.
  cbn [simResult potionCount]. rewrite Ep. split; reflexivity.
Qed.

(** X11: a run that fails leaves no result behind: [handleCalculate] has
    cleared the last one, the callback only reports the error, the history
    is untouched, and the simulator then refuses to run. *)
Theorem failed_run_discards_result (rawData : jsstring) (p : Page) (w w1 : World)
        (k : ErrorKind) (c : ascii) (m : string) (random : float) :
  snd (handleCalculate translations p) = Some rawData ->
  decodeAndCalculate Math_pow rawData w = (Failure k, w1) ->
  translations "status_error_general" = Some (String c m) ->
  exists p',
    calculateTimeout translations Math_pow rawData (fst (handleCalculate translations p)) w
    = Some (p', w1)
    /\ lastResult (app p') = None
    /\ status p' = mkStatus (String c m) StatusError
    /\ isLoading p' = false
    /\ history p' = history p /\ objects p' = objects p
    /\ simResult (app p') = simResult (app p)
    /\ potionCount (app p') = potionCount (app p)
    /\ alerts (app (drinkPotion translations random p'))
       = alerts (app p) ++ [t translations "sim_error_no_calc"]
    /\ activeTab (app (drinkPotion translations random p')) = TabMeasure
    /\ simResult (app (drinkPotion translations random p')) = simResult (app p).
Proof.
  intros Hp H Ht.
  destruct (handleCalculate_cases translations p) as (_ & _ & _ & Er & _ & Eh & Eo & _).
  cbv zeta in *.
  destruct (calculateTimeout_failure translations Math_pow rawData
              (fst (handleCalculate translations p)) _ _ _ c m H Ht)
    as (p' & Ec & Es & El & Ea & _ & Eo' & Eh' & _).
  exists p'. split; [exact Ec|]. rewrite Ea, Es, El, Eh', Eo', Eh, Eo.
  split; [exact Er|]. do 4 (split; [reflexivity|]).
  assert (Esim : simResult (app (fst (handleCalculate translations p))) = simResult (app p)
                 /\ potionCount (app (fst (handleCalculate translations p)))
                    = potionCount (app p)
                 /\ alerts (app (fst (handleCalculate translations p))) = alerts (app p)).
  { unfold handleCalculate. destruct (trim _); repeat split. }
  destruct Esim as (E1 & E2 & E3).
  split; [exact E1|]. split; [exact E2|].
  unfold drinkPotion, handlePotionDrink. cbn [app setApp]. rewrite Ea, Er.
  cbn [alerts activeTab simResult]. rewrite E1, E3. repeat split.
Qed.


(** X13: [handleHistoryNote] writes the trimmed answer into the note of the
    entry at [index] and into nothing else: the other entries of a history
    of distinct objects keep their values, the numbers of the entry stay,
    and the last result changes with it exactly when it is that object.
    Cancelling the prompt changes nothing, and an index outside the history
    throws. *)
Theorem note_edits_one_entry (index : Z) (p : Page) (at_ : nat) (entry : CalculationResult)
        (newNote : jsstring) :
  NoDup (history p) ->
  at_index (history p) index = Some at_ ->
  nth_error (objects p) at_ = Some entry ->
  let edited :=
    mkResult (current entry) (tallest entry) (shortest entry) (scale entry)
      (timestamp entry) (trim newNote) (json entry) in
  (exists p',
      handleHistoryNote translations index (Some newNote) p = Some p'
      /\ history p' = history p
      /\ nth_error (objects p') at_ = Some edited
      /\ (forall j a, j <> index -> at_index (history p) j = Some a ->
          nth_error (objects p') a = nth_error (objects p) a)
      /\ (lastResultAt p = Some at_ -> lastResult (app p') = Some edited)
      /\ (lastResultAt p <> Some at_ -> lastResult (app p') = lastResult (app p))
      /\ dialogs p'
         = dialogs p ++ [Prompt (t translations "history_note_placeholder") (note entry)])
  /\ handleHistoryNote translations index None p
     = Some (openDialog (Prompt (t translations "history_note_placeholder") (note entry)) p)
  /\ (forall j answer, at_index (history p) j = None ->
      handleHistoryNote translations j answer p = None).
Proof.
  intros N Hi He. cbv zeta.
  assert (Hother : forall j a, j <> index -> at_index (history p) j = Some a ->
            nth_error (write_note (objects p) at_ (trim newNote)) a = nth_error (objects p) a).
  { intros j a Hj Ha. apply write_note_other.
    apply (at_index_distinct (history p) j index a at_ N Ha Hi Hj). }
  pose proof (write_note_same _ _ (trim newNote) _ He) as Hsame.
  split; [|split].
  - unfold handleHistoryNote. rewrite Hi, He. page_fields.
    destruct (lastResultAt p) as [l|] eqn:El.
    + destruct (l =? at_)%nat eqn:E.
      * apply Nat.eqb_eq in E. subst l. eexists. split; [reflexivity|].
        page_fields. rewrite Hsame. page_fields.
        split; [reflexivity|]. split; [reflexivity|]. split; [exact Hother|].
        split; [reflexivity|]. split; [congruence | reflexivity].
      * apply Nat.eqb_neq in E. eexists. split; [reflexivity|]. page_fields.
        split; [reflexivity|]. split; [exact Hsame|]. split; [exact Hother|].
        split; [intros [= ->]; congruence|]. split; reflexivity.
    + eexists. split; [reflexivity|]. page_fields.
      split; [reflexivity|]. split; [exact Hsame|]. split; [exact Hother|].
      split; [discriminate|]. split; reflexivity.
  - unfold handleHistoryNote. now rewrite Hi, He.
  - intros j answer Hj. unfold handleHistoryNote. now rewrite Hj.
Qed.

End HandlerFacts.

(** ** Concrete runs of the page *)

(** A [translations] table with the one message the callback reads. *)
Definition sample_translations (key : string) : option string :=
  if String.eqb key "status_error_general" then Some "Error"%string else None.

(** The state of the component when it mounts (lines 21-47). *)
Definition initialPage : Page :=
  mkPage (mkApp TabMeasure None 0%float None EmptyString []) None [] [] []
    (mkStatus EmptyString StatusNormal) false [].

Definition initialSystem (input : jsstring) : System :=
  mkSystem (setInputVal input initialPage) None world0.

(** A page that shows one measured result, also first in the history. *)
Definition measuredPage : Page :=
  mkPage (mkApp TabHistory (Some sim_last) 0%float None EmptyString []) (Some 0%nat)
    [sim_last] [] [0%nat] (mkStatus EmptyString StatusNormal) false [].

Lemma initial_consistent (input : jsstring) : consistent (initialSystem input).
Proof.
  unfold consistent, initialSystem, initialPage, setInputVal.
  cbn [page timer history objects lastResultAt app lastResult isLoading List.length].
  split; [lia|]. split; [constructor|]. split; [constructor|]. split; [reflexivity|].
  split; [discriminate | intros H; now contradiction H].
Qed.

Lemma successful_run_is_recorded_witness :
  exists p' w1 result,
    decodeAndCalculate Math_pow_ref tall_payload world0 = (Success result, w1)
    /\ calculateTimeout sample_translations Math_pow_ref tall_payload initialPage world0
       = Some (p', w1)
    /\ lastResult (app p') = Some result
    /\ history p' = [0%nat]
    /\ potionCount (app (drinkPotion sample_translations 0.25 p')) = 1%float.
Proof.
  destruct (decodeAndCalculate Math_pow_ref tall_payload world0) as [[result|k] w1] eqn:E;
    [|vm_compute in E; discriminate E].
  destruct (successful_run_is_recorded sample_translations Math_pow_ref tall_payload
              initialPage world0 w1 result 0.25%float E ltac:(simpl; lia))
    as (p' & Ec & Er & Eh & _ & _ & _ & _ & _ & _ & _ & _ & Ep).
  exists p', w1, result. repeat split; assumption.
Defined.

Lemma failed_run_discards_result_witness :
  exists p',
    calculateTimeout sample_translations Math_pow_ref (lit "no payload here")
      (fst (handleCalculate sample_translations
              (setInputVal (lit "  no payload here ") measuredPage)))
      world0
    = Some (p', world0)
    /\ lastResult (app p') = None
    /\ status p' = mkStatus "Error" StatusError
    /\ history p' = [0%nat]
    /\ alerts (app (drinkPotion sample_translations 0.25 p')) = ["sim_error_no_calc"%string].
Proof.
  destruct (failed_run_discards_result sample_translations Math_pow_ref
              (lit "no payload here") (setInputVal (lit "  no payload here ") measuredPage)
              world0 world0 AnchorNotFound "E"%char "rror"%string 0.25%float
              eq_refl eq_refl eq_refl)
    as (p' & Ec & Er & Es & _ & Eh & _ & _ & _ & Ea & _).
  exists p'. repeat split; assumption.
Defined.

Lemma note_edits_one_entry_witness :
  exists p',
    handleHistoryNote sample_translations 0 (Some (lit " tall one ")) measuredPage = Some p'
    /\ history p' = [0%nat]
    /\ option_map note (nth_error (objects p') 0) = Some (lit "tall one")
    /\ option_map note (lastResult (app p')) = Some (lit "tall one")
    /\ option_map current (lastResult (app p')) = Some 3.45%float.
Proof.
  destruct (note_edits_one_entry sample_translations 0 measuredPage 0 sim_last
              (lit " tall one ") ltac:(repeat constructor; simpl; tauto) eq_refl eq_refl)
    as ((p' & Eh' & Eh & Eo & _ & El & _) & _).
  exists p'. split; [exact Eh'|]. split; [exact Eh|].
  rewrite Eo, (El eq_refl). repeat split.
Defined.

Lemma page_invariant_witness :
  exists s',
    steps sample_translations Math_pow_ref (initialSystem tall_payload) s'
    /\ consistent s'
    /\ history (page s') = [0%nat]
    /\ isLoading (page s') = false /\ timer s' = None.
Proof.
  set (s1 := mkSystem
               (fst (handleCalculate sample_translations (page (initialSystem tall_payload))))
               (snd (handleCalculate sample_translations (page (initialSystem tall_payload))))
               world0).
  assert (S1 : step sample_translations Math_pow_ref (initialSystem tall_payload) s1)
    by (apply (step_calculate sample_translations Math_pow_ref (initialSystem tall_payload));
        reflexivity).
  assert (T1 : timer s1 = Some tall_payload) by (vm_compute; reflexivity).
  destruct (calculateTimeout sample_translations Math_pow_ref tall_payload (page s1) (world s1))
    as [[p' w']|] eqn:E; [|vm_compute in E; discriminate E].
  pose proof (step_timeout sample_translations Math_pow_ref s1 tall_payload p' w' T1 E) as S2.
  exists (mkSystem p' None w').
  assert (R : steps sample_translations Math_pow_ref (initialSystem tall_payload)
                (mkSystem p' None w')).
  { eapply steps_step; [eapply steps_step; [apply steps_refl | exact S1] | exact S2]. }
  split; [exact R|].
  split; [exact (page_invariant sample_translations Math_pow_ref _ _
                   (initial_consistent tall_payload) R)|].
  vm_compute in E. injection E as <- <-. repeat split.
Defined.

Lemma encoded_payload_is_decoded_witness :
  indexOf (lit "https://sky.example/?d=" ++ base64url sample_plaintext) startMarker = 23
  /\ decodeAndCalculate Math_pow_ref
       (lit "https://sky.example/?d=" ++ base64url sample_plaintext) world0
     = decoded_run Math_pow_ref (btoa sample_plaintext) sample_plaintext world0.
Proof.
  assert (Hi : indexOf (lit "https://sky.example/?d=" ++ base64url sample_plaintext)
                 startMarker = 23) by (vm_compute; reflexivity).
  split; [exact Hi|].
  apply encoded_payload_is_decoded; rewrite Hi; [discriminate|].
  right. vm_compute. reflexivity.
Defined.

(** * The entry modal (lines 30-31, 60-67 and 367-369)

    The effect of lines 60-67 keeps a one-second timer pending exactly
    while the modal is shown and the countdown is positive; every change of
    either cancels and re-arms it, so the timer fires on the state that
    armed it.  The button that closes the modal is rendered while the
    modal is shown and is disabled while the countdown is positive. *)

Record Entry := mkEntry {
  showEntryModal : bool;
  entryCountdown : float
}.

Inductive EntryEvent :=
| EntryTick      (* the timer of line 62 fires *)
| EntryClick.    (* a click on the button of line 367 *)

(** [useState(true)] and [useState(5)]. *)
Definition entryInitial : Entry := mkEntry true 5%float.

(** An event that the state does not offer (no timer is pending, the button
    is disabled or not rendered) leaves the state as it is. *)
Definition entryStep (s : Entry) (e : EntryEvent) : Entry :=
  match e with
  | EntryTick =>
      if showEntryModal s && (0 <? entryCountdown s)%float
      then mkEntry (showEntryModal s) (entryCountdown s - 1)%float
      else s
  | EntryClick =>
      if showEntryModal s && negb (0 <? entryCountdown s)%float
      then mkEntry false (entryCountdown s)
      else s
  end.

Definition entryRun (events : list EntryEvent) : Entry :=
  fold_left entryStep events entryInitial.

Definition isTick (e : EntryEvent) : bool :=
  match e with EntryTick => true | EntryClick => false end.

Definition ticks (events : list EntryEvent) : nat := List.length (filter isTick events).

(** The countdown after [n] ticks. *)
Definition countdownAfter (n : nat) : float := nth n [5; 4; 3; 2; 1]%float 0%float.

Lemma countdownAfter_step (n : nat) :
  (0 <? countdownAfter n)%float = (n <? 5)%nat
  /\ ((n < 5)%nat -> (countdownAfter n - 1)%float = countdownAfter (S n))
  /\ ((5 <= n)%nat -> countdownAfter (S n) = countdownAfter n).
Proof.
  do 5 (destruct n as [|n]; [repeat split; intros; try reflexivity; lia|]).
  repeat split; intros; try lia.
  - unfold countdownAfter. cbn [nth]. now destruct n.
  - unfold countdownAfter. cbn [nth]. now destruct n.
Qed.

Lemma ticks_snoc (events : list EntryEvent) (e : EntryEvent) :
  ticks (events ++ [e]) = (ticks events + if isTick e then 1 else 0)%nat.
Proof.
  unfold ticks. rewrite filter_app, length_app. cbn [filter].
  now destruct (isTick e).
Qed.

Lemma snoc_split {A} (l pre post : list A) (e x : A) :
  l ++ [e] = pre ++ x :: post ->
  (post = [] /\ l = pre /\ e = x) \/ (exists post', post = post' ++ [e] /\ l = pre ++ x :: post').
Proof.
  intros E. destruct (exists_last (l := x :: post) ltac:(discriminate)) as (q & y & Eq).
  rewrite Eq, app_assoc in E. apply app_inj_tail in E as [El <-].
  destruct post as [|z post].
  - left. destruct q as [|? [|? ?]]; try discriminate Eq.
    injection Eq as <-. rewrite app_nil_r in El. auto.
  - right. destruct q as [|x' q]; [discriminate Eq|].
    injection Eq as <- Eq. exists q. auto.
Qed.

(** X14: the modal keeps the visitor waiting: the countdown goes 5, 4, 3, 2, 1,
    0 with the ticks and stops there, and the modal is closed exactly when
    the button was clicked after the fifth tick. *)
Theorem entry_modal_waits (events : list EntryEvent) :
  entryCountdown (entryRun events) = countdownAfter (ticks events)
  /\ (showEntryModal (entryRun events) = false <->
      exists pre post, events = pre ++ EntryClick :: post /\ (5 <= ticks pre)%nat).
Proof.
  unfold entryRun. induction events as [|e events (IHc & IHs)] using rev_ind.
  - split; [reflexivity|]. split; [discriminate|].
    intros (pre & post & E & _). now destruct pre.
  - rewrite fold_left_app, ticks_snoc. cbn [fold_left].
    set (s := fold_left entryStep events entryInitial) in *.
    destruct (countdownAfter_step (ticks events)) as (Hpos & Hdec & Hstay).
    assert (Hclosed : showEntryModal s = false -> (5 <= ticks events)%nat).
    { intros H. apply IHs in H as (pre & post & -> & H).
      unfold ticks in *. rewrite filter_app, length_app. lia. }
    destruct e; cbn [entryStep isTick].
    + (* a tick *)
      rewrite IHc, Hpos. replace (ticks events + 1)%nat with (S (ticks events)) by lia.
      split.
      * destruct (showEntryModal s) eqn:Es; cbn [andb].
        -- destruct (ticks events <? 5)%nat eqn:E.
           ++ apply Nat.ltb_lt in E. cbn [entryCountdown]. auto.
           ++ apply Nat.ltb_ge in E. rewrite IHc. symmetry. auto.
        -- rewrite IHc. symmetry. auto.
      * assert (Es : showEntryModal
                       (if showEntryModal s && (ticks events <? 5)%nat
                        then mkEntry (showEntryModal s) (countdownAfter (ticks events) - 1)
                        else s) = showEntryModal s)
          by (now destruct (showEntryModal s && (ticks events <? 5)%nat)).
        rewrite Es, IHs. split.
        -- intros (pre & post & -> & H). exists pre, (post ++ [EntryTick]).
           split; [|exact H]. now rewrite <- app_assoc.
        -- intros (pre & post & E & H). apply snoc_split in E as [(_ & _ & E)|(q & _ & E)];
             [discriminate E|]. now exists pre, q.
    + (* a click *)
      rewrite IHc, Hpos, Nat.add_0_r.
      split.
      * now destruct (showEntryModal s && negb (ticks events <? 5)%nat).
      * destruct (showEntryModal s) eqn:Es; cbn [andb].
        -- destruct (ticks events <? 5)%nat eqn:E; cbn [negb showEntryModal].
           ++ apply Nat.ltb_lt in E. rewrite Es. split; [discriminate|].
              intros (pre & post & E' & H).
              apply snoc_split in E' as [(_ & <- & _)|(q & _ & E')]; [lia|].
              assert (Hs : true = false) by (apply IHs; now exists pre, q).
              discriminate Hs.
           ++ apply Nat.ltb_ge in E. split; [|reflexivity].
              intros _. exists events, []. auto.
        -- rewrite Es. split; [|reflexivity].
           intros _. destruct (proj1 IHs eq_refl) as (pre & post & -> & H).
           exists pre, (post ++ [EntryClick]). split; [|exact H]. now rewrite <- app_assoc.
Qed.

(** * The preview's background and the object URLs

    ** Definitions

    [customization] (lines 34-42) with the handlers that write it: the
    name field (line 519), the swatches (lines 548 and 556) and
    [handleBgUpload] (lines 297-310); [handleQrUpload] (lines 253-295),
    the other caller of [URL.createObjectURL]; and the background that
    [drawContent] paints (lines 147-160). *)

Inductive BgType := BgImage | BgGradient | BgUploaded.

Inductive TextColor := TextWhite | TextBlack.

Inductive TextAlign := AlignCenter | AlignLeft | AlignRight.

Record Customization := mkCustomization {
  playerName : jsstring;
  bgType : BgType;
  bgSource : jsstring;
  textColor : TextColor;
  textAlign : TextAlign;
  showRange : bool;
  uploadedBgUrl : option nat     (* an object URL, see [UrlStore] *)
}.

Record BackgroundImage := mkBackgroundImage { imageId : string; path : jsstring }.

Record Gradient := mkGradient { gradientId : string; colors : list jsstring }.

(** Lines 6-11 *)
Definition backgroundImages : list BackgroundImage :=
  [ mkBackgroundImage "bg1" (lit "https://picsum.photos/500/250?random=1");
    mkBackgroundImage "bg2" (lit "https://picsum.photos/500/250?random=2");
    mkBackgroundImage "bg3" (lit "https://picsum.photos/500/250?random=3");
    mkBackgroundImage "bg4" (lit "https://picsum.photos/500/250?random=4") ].

(** Lines 13-17 *)
Definition backgroundGradients : list Gradient :=
  [ mkGradient "dawn" [lit "#ffecd2"; lit "#fcb69f"];
    mkGradient "sky" [lit "#a18cd1"; lit "#fbc2eb"];
    mkGradient "night" [lit "#09203f"; lit "#537895"] ].

(** [a.join(',')] *)
Fixpoint join_comma (a : list jsstring) : jsstring :=
  match a with
  | [] => []
  | x :: a' =>
      match a' with
      | [] => x
      | _ :: _ => x ++ ","%char :: join_comma a'
      end
  end.

(** [s.split(',')] *)
Fixpoint split_comma (s : jsstring) : list jsstring :=
  match s with
  | [] => [[]]
  | c :: s' =>
      if Ascii.eqb c ","
      then [] :: split_comma s'
      else match split_comma s' with
           | piece :: rest => (c :: piece) :: rest
           | [] => [[c]]
           end
  end.

(** Lines 34-42: [bgSource] starts as [backgroundGradients[1].colors.join(',')]. *)
Definition initialCustomization : Customization :=
  mkCustomization [] BgGradient
    (match nth_error backgroundGradients 1 with
     | Some grad => join_comma (colors grad)
     | None => []
     end)
    TextWhite AlignCenter true None.

(** *** The browser's store of object URLs

    An object URL is a string that no other call of [createObjectURL]
    returns: here the number of the call that made it. *)

Record UrlStore := mkUrlStore {
  nextUrl : nat;
  liveUrls : list nat     (* created and not revoked, oldest first *)
}.

Definition createObjectURL (st : UrlStore) : nat * UrlStore :=
  (nextUrl st, mkUrlStore (S (nextUrl st)) (liveUrls st ++ [nextUrl st])).

Definition revokeObjectURL (u : nat) (st : UrlStore) : UrlStore :=
  mkUrlStore (nextUrl st) (remove Nat.eq_dec u (liveUrls st)).

(** A [File], by its [type]. *)
Record File := mkFile { fileType : jsstring }.

Definition isImage (file : option File) : bool :=
  match file with
  | Some f => startsWith (lit "image/") (fileType f)
  | None => false
  end.

(** Lines 297-310, with [file] for [e.target.files?.[0]]. *)
Definition handleBgUpload (file : option File) (c : Customization) (st : UrlStore)
  : Customization * UrlStore :=
  if isImage file
  then
    let st := match uploadedBgUrl c with
              | Some old => revokeObjectURL old st
              | None => st
              end in
    let (url, st) := createObjectURL st in
    (mkCustomization (playerName c) BgUploaded (bgSource c) (textColor c) (textAlign c)
       (showRange c) (Some url), st)
  else (c, st).

(** Line 519 *)
Definition typeName (name : jsstring) (c : Customization) : Customization :=
  mkCustomization name (bgType c) (bgSource c) (textColor c) (textAlign c) (showRange c)
    (uploadedBgUrl c).

(** Line 548, the swatch of the gradient [grad]. *)
Definition pickGradient (grad : Gradient) (c : Customization) : Customization :=
  mkCustomization (playerName c) BgGradient (join_comma (colors grad)) (textColor c)
    (textAlign c) (showRange c) (uploadedBgUrl c).

(** Line 556, the swatch of the image [img]. *)
Definition pickImage (img : BackgroundImage) (c : Customization) : Customization :=
  mkCustomization (playerName c) BgImage (path img) (textColor c) (textAlign c)
    (showRange c) (uploadedBgUrl c).

(** What lines 266-284 meet: an exception (the image does not load, the
    canvas or [jsQR] throws), or the results of the calls of [jsQR], [None]
    for [null] and [Some data] for a code with that [data]; the second call
    is made only when the first gives [null]. *)
Inductive QrScan :=
| QrThrows
| QrScanned (dontInvert attemptBoth : option jsstring).

Record QrEnv := mkQrEnv {
  jsQR : bool;          (* [window.jsQR] is there *)
  qrScan : QrScan
}.

Section Uploads.

Variable translations : string -> option string.

(** Lines 253-295, run to the end. *)
Definition handleQrUpload (file : option File) (env : QrEnv) (p : Page) (st : UrlStore)
           (w : World) : Page * UrlStore * World :=
  if negb (isImage file)
  then (setStatus (mkStatus (t translations "status_error_general") StatusError) p, st, w)
  else if negb (jsQR env)
  then (setStatus (mkStatus "Error: jsQR not loaded." StatusError) p, st, w)
  else
    let (_, st) := createObjectURL st in
    match qrScan env with
    | QrThrows =>
        (setStatus (mkStatus (t translations "status_error_general") StatusError) p, st,
         emit EvConsoleError w)
    | QrScanned dontInvert attemptBoth =>
        let code := match dontInvert with
                    | Some data => Some data
                    | None => attemptBoth
                    end in
        match code with
        | Some (c :: data) => (setInputVal (c :: data) p, st, w)
        | _ => (setStatus (mkStatus (t translations "status_qr_fail") StatusError) p, st, w)
        end
    end.

(** *** The part of the component that these handlers share *)

Record Studio := mkStudio {
  customization : Customization;
  urls : UrlStore;
  front : Page;
  host : World
}.

Inductive StudioAction :=
| TypeName (name : jsstring)
| PickGradient (i : nat)                     (* the [i]-th gradient swatch *)
| PickImage (i : nat)                        (* the [i]-th image swatch *)
| BgUpload (file : option File)
| QrUpload (file : option File) (env : QrEnv).

Definition studioStep (s : Studio) (a : StudioAction) : Studio :=
  match a with
  | TypeName name => mkStudio (typeName name (customization s)) (urls s) (front s) (host s)
  | PickGradient i =>
      match nth_error backgroundGradients i with
      | Some grad => mkStudio (pickGradient grad (customization s)) (urls s) (front s) (host s)
      | None => s
      end
  | PickImage i =>
      match nth_error backgroundImages i with
      | Some img => mkStudio (pickImage img (customization s)) (urls s) (front s) (host s)
      | None => s
      end
  | BgUpload file =>
      let (c, st) := handleBgUpload file (customization s) (urls s) in
      mkStudio c st (front s) (host s)
  | QrUpload file env =>
      match handleQrUpload file env (front s) (urls s) (host s) with
      | (p, st, w) => mkStudio (customization s) st p w
      end
  end.

(** The component as it mounts, on the page [p]. *)
Definition studioInitial (p : Page) (w : World) : Studio :=
  mkStudio initialCustomization (mkUrlStore 0%nat []) p w.

Definition studioRun (actions : list StudioAction) (p : Page) (w : World) : Studio :=
  fold_left studioStep actions (studioInitial p w).

End Uploads.

(** The calls of [handleQrUpload] that reach [createObjectURL]. *)
Definition scans (actions : list StudioAction) : nat :=
  List.length
    (filter (fun a => match a with
                      | QrUpload file env => isImage file && jsQR env
                      | _ => false
                      end) actions).

(** *** [drawContent], lines 147-160: what is painted behind the text *)

Inductive ImageSrc :=
| SrcObjectUrl (u : nat)
| SrcPath (p : jsstring).

(** [GradientFill colors[0] colors[1]], [None] for [undefined]. *)
Inductive Background :=
| GradientFill (stop0 stop1 : option jsstring)
| ImageFill (src : ImageSrc).

Definition background (c : Customization) : Background :=
  match bgType c with
  | BgGradient =>
      let colors := split_comma (bgSource c) in
      GradientFill (nth_error colors 0) (nth_error colors 1)
  | BgUploaded =>
      ImageFill (match uploadedBgUrl c with
                 | Some u => SrcObjectUrl u
                 | None => SrcPath (bgSource c)
                 end)
  | BgImage => ImageFill (SrcPath (bgSource c))
  end.

(** ** Properties *)

Lemma remove_present (u : nat) (l : list nat) :
  NoDup l -> In u l ->
  S (List.length (remove Nat.eq_dec u l)) = List.length l
  /\ NoDup (remove Nat.eq_dec u l)
  /\ (forall x, In x (remove Nat.eq_dec u l) <-> In x l /\ x <> u).
Proof.
  intros N H. split; [|split].
  - induction l as [|a l IH]; [contradiction H|].
    inversion N as [|? ? Hn Hd]; subst. cbn [remove List.length].
    destruct (Nat.eq_dec u a) as [->|Hne].
    + rewrite notin_remove by exact Hn. reflexivity.
    + destruct H as [->|H]; [contradiction Hne; reflexivity|].
      cbn [List.length]. now rewrite IH.
  - clear H. induction l as [|a l IH]; [constructor|].
    inversion N as [|? ? Hn Hd]; subst. cbn [remove].
    destruct (Nat.eq_dec u a); [now apply IH|].
    constructor; [|now apply IH]. intros Hin. apply in_remove in Hin. tauto.
  - intros x. split; [apply in_remove|]. intros [Hx Hd]. now apply in_in_remove.
Qed.

(** What holds of the store and of [customization] after [n] scans. *)
Definition studio_invariant (s : Studio) (n : nat) : Prop :=
  let c := customization s in
  let live := liveUrls (urls s) in
  NoDup live
  /\ Forall (fun u => u < nextUrl (urls s))%nat live
  /\ List.length live = (n + match uploadedBgUrl c with Some _ => 1 | None => 0 end)%nat
  /\ (forall u, uploadedBgUrl c = Some u -> In u live)
  /\ match bgType c with
     | BgUploaded => uploadedBgUrl c <> None
     | BgGradient => exists grad, In grad backgroundGradients
                                  /\ bgSource c = join_comma (colors grad)
     | BgImage => exists img, In img backgroundImages /\ bgSource c = path img
     end.

Lemma create_invariant (live : list nat) (next : nat) :
  NoDup live -> Forall (fun u => u < next)%nat live ->
  NoDup (live ++ [next]) /\ Forall (fun u => u < S next)%nat (live ++ [next]).
Proof.
  intros N F. split.
  - apply NoDup_app; [exact N | repeat constructor; intros [] |].
    intros x Hx [<-|[]]. rewrite Forall_forall in F. specialize (F _ Hx). lia.
  - apply Forall_app. split; [|repeat constructor].
    eapply Forall_impl; [|exact F]. intros a Ha. cbv beta in *. lia.
Qed.

Section UploadFacts.

Variable translations : string -> option string.

Lemma studioStep_invariant (s : Studio) (a : StudioAction) (n : nat) :
  studio_invariant s n ->
  studio_invariant (studioStep translations s a) (n + scans [a]).
Proof.
  intros (N & F & L & U & B). unfold studio_invariant.
  destruct a as [name|i|i|file|file env].
  - (* the name *)
    cbn [studioStep scans filter List.length customization urls typeName uploadedBgUrl bgType
           bgSource].
    rewrite Nat.add_0_r. auto.
  - (* a gradient *)
    cbn [studioStep scans filter List.length]. rewrite Nat.add_0_r.
    destruct (nth_error backgroundGradients i) as [grad|] eqn:E; [|now repeat split].
    cbn [customization urls pickGradient uploadedBgUrl bgType bgSource].
    repeat split; auto. exists grad. split; [|reflexivity]. eapply nth_error_In, E.
  - (* an image *)
    cbn [studioStep scans filter List.length]. rewrite Nat.add_0_r.
    destruct (nth_error backgroundImages i) as [img|] eqn:E; [|now repeat split].
    cbn [customization urls pickImage uploadedBgUrl bgType bgSource].
    repeat split; auto. exists img. split; [|reflexivity]. eapply nth_error_In, E.
  - (* handleBgUpload *)
    cbn [studioStep scans filter List.length]. rewrite Nat.add_0_r.
    unfold handleBgUpload. destruct (isImage file); [|now repeat split].
    destruct (uploadedBgUrl (customization s)) as [old|] eqn:Eo;
      cbn [createObjectURL revokeObjectURL nextUrl liveUrls customization urls uploadedBgUrl
             bgType].
    + destruct (remove_present old _ N (U _ eq_refl)) as (Hl & Hn & Hi).
      assert (F' : Forall (fun u => u < nextUrl (urls s))%nat
                     (remove Nat.eq_dec old (liveUrls (urls s)))).
      { rewrite Forall_forall in *. intros x Hx. apply F, Hi, Hx. }
      destruct (create_invariant _ _ Hn F') as (N2 & F2).
      repeat split; try assumption.
      * rewrite length_app. cbn [List.length]. lia.
      * intros u [= <-]. apply in_or_app. right. now left.
      * discriminate.
    + destruct (create_invariant _ _ N F) as (N2 & F2).
      repeat split; try assumption.
      * rewrite length_app. cbn [List.length]. lia.
      * intros u [= <-]. apply in_or_app. right. now left.
      * discriminate.
  - (* handleQrUpload *)
    cbn [studioStep scans filter List.length]. unfold handleQrUpload.
    destruct (isImage file); cbn [negb andb List.length];
      [|rewrite Nat.add_0_r; now repeat split].
    destruct (jsQR env); cbn [negb List.length];
      [|rewrite Nat.add_0_r; now repeat split].
    destruct (create_invariant _ _ N F) as (N2 & F2).
    assert (Hs : studio_invariant
                   (mkStudio (customization s) (snd (createObjectURL (urls s))) (front s)
                      (host s)) (n + 1)).
    { unfold studio_invariant.
      cbn [createObjectURL snd nextUrl liveUrls customization urls].
      repeat split; try assumption.
      - rewrite length_app. cbn [List.length]. lia.
      - intros u Hu. apply in_or_app. left. now apply U. }
    unfold studio_invariant in Hs. cbn [customization urls] in Hs.
    cbn [createObjectURL snd] in *.
    destruct (qrScan env) as [|[[|c d]|] [[|c' d']|]]; cbn [customization urls]; exact Hs.
Qed.

Lemma scans_app (a b : list StudioAction) : scans (a ++ b) = (scans a + scans b)%nat.
Proof. unfold scans. now rewrite filter_app, length_app. Qed.

Lemma studioRun_invariant (actions : list StudioAction) (p : Page) (w : World) :
  studio_invariant (studioRun translations actions p w) (scans actions).
Proof.
  unfold studioRun. induction actions as [|a actions IH] using rev_ind.
  - unfold studio_invariant, studioInitial. cbn.
    repeat split; try constructor; try discriminate.
    eexists. split; [right; left; reflexivity | reflexivity].
  - rewrite fold_left_app, scans_app. cbn [fold_left]. now apply studioStep_invariant.
Qed.

(** X15: background uploads leak no object URL and every scan leaks one: after
    any sequence of actions the live URLs are distinct, and they are the
    uploaded background, if there is one, and one URL for each scan. *)
Theorem object_urls_accounted (actions : list StudioAction) (p : Page) (w : World) :
  let s := studioRun translations actions p w in
  NoDup (liveUrls (urls s))
  /\ List.length (liveUrls (urls s))
     = (scans actions
        + match uploadedBgUrl (customization s) with Some _ => 1 | None => 0 end)%nat
  /\ (forall u, uploadedBgUrl (customization s) = Some u -> In u (liveUrls (urls s))).
Proof.
  destruct (studioRun_invariant actions p w) as (N & _ & L & U & _). cbv zeta. auto.
Qed.

(** X16: the preview always has a background to paint.  By [bgType]: a
    gradient is painted with the two colour stops of one of the gradients;
    an image with the path of one of the stock images; and an uploaded
    background is there, is painted from its object URL, never from
    [bgSource], and that URL is not revoked.  So whatever is painted is one
    of these three. *)
Theorem preview_background_is_defined (actions : list StudioAction) (p : Page) (w : World) :
  let s := studioRun translations actions p w in
  let c := customization s in
  match bgType c with
  | BgGradient =>
      exists grad, In grad backgroundGradients
                   /\ bgSource c = join_comma (colors grad)
                   /\ split_comma (bgSource c) = colors grad
                   /\ exists stop0 stop1,
                        colors grad = [stop0; stop1]
                        /\ background c = GradientFill (Some stop0) (Some stop1)
  | BgImage =>
      exists img, In img backgroundImages
                  /\ background c = ImageFill (SrcPath (path img))
  | BgUploaded =>
      exists u, uploadedBgUrl c = Some u
                /\ background c = ImageFill (SrcObjectUrl u)
                /\ In u (liveUrls (urls s))
  end
  /\ match background c with
     | GradientFill stop0 stop1 =>
         exists grad, In grad backgroundGradients
                      /\ [stop0; stop1] = map Some (colors grad)
     | ImageFill (SrcPath src) => exists img, In img backgroundImages /\ src = path img
     | ImageFill (SrcObjectUrl u) => In u (liveUrls (urls s))
     end.
Proof.
  destruct (studioRun_invariant actions p w) as (_ & _ & _ & U & B). cbv zeta.
  unfold background. destruct (bgType (customization _)).
  - destruct B as (img & Hin & E). split; [|now exists img].
    exists img. split; [exact Hin | now rewrite E].
  - destruct B as (grad & Hin & ->). split.
    + exists grad. split; [exact Hin|]. split; [reflexivity|].
      cbn in Hin. destruct Hin as [<-|[<-|[<-|[]]]];
        (split; [reflexivity|]); eexists; eexists; split; reflexivity.
    + exists grad. split; [exact Hin|].
      cbn in Hin. destruct Hin as [<-|[<-|[<-|[]]]]; reflexivity.
  - destruct (uploadedBgUrl (customization _)) as [u|] eqn:E; [|now contradiction B].
    split; [|now apply U]. exists u. split; [reflexivity|]. split; [reflexivity|].
    now apply U.
Qed.

(** X17: a scan either puts the data of the code it found, which is not empty,
    into the input field, or reports an error and leaves the input field;
    it changes nothing else on the page, revokes no URL, and writes to the
    console only when it reports [status_error_general]. *)
Theorem qr_upload_outcome (file : option File) (env : QrEnv) (p : Page) (st : UrlStore)
        (w : World) :
  let '(p', st', w') := handleQrUpload translations file env p st w in
  (app p' = app p /\ lastResultAt p' = lastResultAt p /\ objects p' = objects p
   /\ history p' = history p /\ isLoading p' = isLoading p /\ dialogs p' = dialogs p)
  /\ ((exists c data, inputVal p' = c :: data /\ status p' = status p /\ w' = w
                      /\ isImage file = true /\ jsQR env = true
                      /\ exists attemptBoth,
                           qrScan env = QrScanned (Some (c :: data)) attemptBoth
                           \/ qrScan env = QrScanned None (Some (c :: data)))
      \/ (inputVal p' = inputVal p /\ type (status p') = StatusError
          /\ (w' = w \/ w' = emit EvConsoleError w
                        /\ text (status p') = t translations "status_error_general")))
  /\ (forall u, In u (liveUrls st) -> In u (liveUrls st'))
  /\ List.length (liveUrls st')
     = (List.length (liveUrls st) + if isImage file && jsQR env then 1 else 0)%nat.
Proof.
  unfold handleQrUpload.
  destruct (isImage file); cbn [negb andb];
    [|rewrite Nat.add_0_r; repeat split; auto].
  destruct (jsQR env); cbn [negb];
    [|rewrite Nat.add_0_r; repeat split; auto].
  cbn [createObjectURL].
  assert (Hlive : forall u, In u (liveUrls st) -> In u (liveUrls st ++ [nextUrl st]))
    by (intros u Hu; apply in_or_app; now left).
  assert (Hlen : List.length (liveUrls st ++ [nextUrl st]) = (List.length (liveUrls st) + 1)%nat)
    by (now rewrite length_app).
  destruct (qrScan env) as [|[[|c d]|] [[|c' d']|]]; cbn [liveUrls];
    (split; [repeat split|split; [|split; [exact Hlive | exact Hlen]]]);
    try (right; repeat split; auto; fail).
  - left. exists c, d. repeat split. eexists. left. reflexivity.
  - left. exists c, d. repeat split. eexists. left. reflexivity.
  - left. exists c, d. repeat split. eexists. left. reflexivity.
  - left. exists c', d'. repeat split. exists None. right. reflexivity.
Qed.

End UploadFacts.
